(** * dota_underlords: the synergy-accounting and constrained-mutation engine

    A shallow embedding of [src/dota_underlords/__main__.py]: the partition
    engine ([TeamAlliance], [TeamAlliances]), the mutation core ([Team]) and
    the exploration engine ([increase], [recursive_increase]), followed by
    the properties of the specification, each proved or refuted on the
    embedded code. *)

From Stdlib Require Import ZArith Lia.
From stdpp Require Import gmap strings list.

Local Open Scope Z_scope.
Set Warnings "-clear-no-such-hyp".

(** ** Entity model *)

(** A hero is identified by its name: [Hero.__hash__] is the hash of the
    name, and the loader builds one record per name.  The sets of the
    Python code ([Alliance.heroes], [TeamAlliances.team], ...) are sets of
    heroes, here finite sets of names. *)
Definition Hero := string.

Module Alliance.
(** [class Alliance]: a faction.  [level] is the hero-count step per
    synergy tier, [total] the number of heroes that count. *)
Record t := mk {
  name : string;
  level : Z;
  total : Z;
  effect : string;
  heroes : gset Hero
}.
End Alliance.

#[global] Instance Alliance_eq_dec : EqDecision Alliance.t.
Proof. solve_decision. Defined.

Module TeamAlliance.
(** [class TeamAlliance]: the state of one faction in one team.  The
    back-reference [tas] of the Python object always points at the
    container that holds the entry ([from_empty], [set] and [copy] all
    construct it that way), so the derived quantities below take that
    container as an argument. *)
Record t := mk {
  alliance : Alliance.t;
  level : Z
}.
End TeamAlliance.

Module TeamAlliances.
(** [class TeamAlliances(Dict[Alliance, TeamAlliance])]: the dictionary in
    insertion order, every entry stored under the key [alliance] of the
    entry, and the two owned sets. *)
Record t := mk {
  items : list TeamAlliance.t;
  team : gset Hero;
  mixed : gset Hero
}.
End TeamAlliances.

Module Team.
(** [class Team] *)
Record t := mk {
  size : Z;
  alliances : TeamAlliances.t;
  limit : Z
}.
End Team.

(** [len(s)] of a set, as a Python integer. *)
Definition len (s : gset Hero) : Z := Z.of_nat (size s).

(** ** Partition engine *)

Section partition.
Implicit Types (tas : TeamAlliances.t) (ta : TeamAlliance.t).

(** [TeamAlliances.pool] *)
Definition pool tas : gset Hero :=
  TeamAlliances.team tas ∪ TeamAlliances.mixed tas.

Definition p_heroes tas ta : gset Hero :=
  Alliance.heroes (TeamAlliance.alliance ta) ∩ pool tas.
Definition t_heroes tas ta : gset Hero :=
  Alliance.heroes (TeamAlliance.alliance ta) ∩ TeamAlliances.team tas.
Definition m_heroes tas ta : gset Hero :=
  Alliance.heroes (TeamAlliance.alliance ta) ∩ TeamAlliances.mixed tas.
Definition a_heroes tas ta : gset Hero :=
  Alliance.heroes (TeamAlliance.alliance ta) ∖ pool tas.

Definition total_size ta : Z :=
  Alliance.level (TeamAlliance.alliance ta) * TeamAlliance.level ta.
Definition p_size tas ta : Z :=
  Z.min (total_size ta) (len (p_heroes tas ta)).
Definition t_size tas ta : Z :=
  Z.min (total_size ta) (len (t_heroes tas ta)).
Definition m_size tas ta : Z := p_size tas ta - t_size tas ta.
Definition a_size tas ta : Z := total_size ta - p_size tas ta.

(** [TeamAlliance.level_up_amount(level, t_size)] *)
Definition level_up_amount tas ta (level reserved : Z) : Z :=
  let n_size := level * Alliance.level (TeamAlliance.alliance ta) in
  Z.max 0 (n_size - len (p_heroes tas ta) - reserved).

(** [sum(...)] over a generator of integers. *)
Definition sum (l : list Z) : Z := foldr Z.add 0 l.

(** What a list of entries still needs from outside the pool: the sum in
    [TeamAlliances.size]. *)
Definition outstanding tas (values : list TeamAlliance.t) : Z :=
  sum (map (λ ta, Z.max 0 (a_size tas ta)) values).

(** [TeamAlliances.size] *)
Definition TeamAlliances_size tas : Z :=
  len (TeamAlliances.team tas) + len (TeamAlliances.mixed tas)
  + outstanding tas (TeamAlliances.items tas).

(** *** The dictionary operations *)

(** [self.keys()] *)
Definition keys tas : list Alliance.t :=
  map TeamAlliance.alliance (TeamAlliances.items tas).

(** [alliance in self] *)
Definition contains tas (alliance : Alliance.t) : bool :=
  bool_decide (alliance ∈ keys tas).

(** [dict.get]: the entry stored under a key. *)
Fixpoint find_item (alliance : Alliance.t) (l : list TeamAlliance.t)
  : option TeamAlliance.t :=
  match l with
  | [] => None
  | ta :: l =>
      if decide (TeamAlliance.alliance ta = alliance) then Some ta
      else find_item alliance l
  end.

(** [dict.__setitem__]: an existing key keeps its place, a new key goes
    to the end. *)
Fixpoint set_item (new : TeamAlliance.t) (l : list TeamAlliance.t)
  : list TeamAlliance.t :=
  match l with
  | [] => [new]
  | ta :: l =>
      if decide (TeamAlliance.alliance ta = TeamAlliance.alliance new)
      then new :: l
      else ta :: set_item new l
  end.

Definition with_items tas (l : list TeamAlliance.t) : TeamAlliances.t :=
  TeamAlliances.mk l (TeamAlliances.team tas) (TeamAlliances.mixed tas).
Definition with_team tas (s : gset Hero) : TeamAlliances.t :=
  TeamAlliances.mk (TeamAlliances.items tas) s (TeamAlliances.mixed tas).
Definition with_mixed tas (s : gset Hero) : TeamAlliances.t :=
  TeamAlliances.mk (TeamAlliances.items tas) (TeamAlliances.team tas) s.

(** [TeamAlliance.from_empty] *)
Definition from_empty (alliance : Alliance.t) : TeamAlliance.t :=
  TeamAlliance.mk alliance 0.

(** [self[alliance]], with [TeamAlliances.__missing__]: a missing key is
    inserted at level 0.  Returns the container after the read and the
    entry. *)
Definition getitem tas (alliance : Alliance.t)
  : TeamAlliances.t * TeamAlliance.t :=
  match find_item alliance (TeamAlliances.items tas) with
  | Some ta => (tas, ta)
  | None =>
      let ret := from_empty alliance in
      (with_items tas (set_item ret (TeamAlliances.items tas)), ret)
  end.

(** [TeamAlliances.set] *)
Definition TeamAlliances_set tas (alliance : Alliance.t) (level : Z)
  : TeamAlliances.t :=
  with_items tas
    (set_item (TeamAlliance.mk alliance level) (TeamAlliances.items tas)).

(** [TeamAlliance.copy] and [TeamAlliances.copy]: new sets and a new
    entry per key, in the same order. *)
Definition TeamAlliance_copy ta : TeamAlliance.t :=
  TeamAlliance.mk (TeamAlliance.alliance ta) (TeamAlliance.level ta).
Definition TeamAlliances_copy tas : TeamAlliances.t :=
  foldl (λ new value,
           with_items new
             (set_item (TeamAlliance_copy value) (TeamAlliances.items new)))
        (TeamAlliances.mk [] (TeamAlliances.team tas) (TeamAlliances.mixed tas))
        (TeamAlliances.items tas).

(** [TeamAlliances.__eq__]: the two sets and the key views; the key views
    of two dictionaries compare as sets.  The stored levels take no part. *)
Definition TeamAlliances_eq tas other : bool :=
  bool_decide (TeamAlliances.team tas = TeamAlliances.team other)
  && bool_decide (TeamAlliances.mixed tas = TeamAlliances.mixed other)
  && bool_decide (Forall (λ k, k ∈ keys other) (keys tas))
  && bool_decide (Forall (λ k, k ∈ keys tas) (keys other)).
End partition.

(** ** Team mutation core *)

(** The two kinds of [ValueError] the core raises (they differ in their
    message), and the other exceptions a call can end in.
    [RecursionError] is what the interpreter raises when the calls are
    nested deeper than it allows. *)
Inductive ValueError_kind := Capacity | Composition.
Inductive exn :=
  | ValueError (kind : ValueError_kind)
  | ZeroDivisionError
  | UnboundLocalError
  | RecursionError.

#[global] Instance ValueError_kind_eq_dec : EqDecision ValueError_kind.
Proof. solve_decision. Defined.
#[global] Instance exn_eq_dec : EqDecision exn.
Proof. solve_decision. Defined.

(** A method that mutates [self] is a function from the state before the
    call to the state after it and the exception it raised, if any. *)
Definition outcome : Type := Team.t * option exn.

Definition with_alliances (self : Team.t) (tas : TeamAlliances.t) : Team.t :=
  Team.mk (Team.size self) tas (Team.limit self).
Definition with_size (self : Team.t) (size : Z) : Team.t :=
  Team.mk size (Team.alliances self) (Team.limit self).

(** [Team.__init__] *)
Definition Team_init (limit : Z) : Team.t :=
  Team.mk 0 (TeamAlliances.mk [] ∅ ∅) limit.

(** [Team.__eq__] *)
Definition Team_eq (self other : Team.t) : bool :=
  bool_decide (Team.size self = Team.size other)
  && TeamAlliances_eq (Team.alliances self) (Team.alliances other)
  && bool_decide (Team.limit self = Team.limit other).

(** [Team.copy], through [Team._copy] *)
Definition Team_copy (self : Team.t) : Team.t :=
  let new := Team_init (Team.limit self) in
  let new := with_size new (Team.size self) in
  with_alliances new (TeamAlliances_copy (Team.alliances self)).

(** [Team._post_check]: the loop over [self.alliances.values()]; the first
    entry that fails restores [prev_tas] and raises. *)
Fixpoint _post_check_loop (self : Team.t) (prev_tas : TeamAlliances.t)
    (values : list TeamAlliance.t) : outcome :=
  match values with
  | [] => (self, None)
  | ta :: values =>
      let tas := Team.alliances self in
      if len (a_heroes tas ta) <? a_size tas ta
      then (with_alliances self prev_tas, Some (ValueError Composition))
      else if len (m_heroes tas ta) <? m_size tas ta
      then (with_alliances self prev_tas, Some (ValueError Composition))
      else _post_check_loop self prev_tas values
  end.

Definition _post_check (self : Team.t) (prev_tas : TeamAlliances.t) : outcome :=
  _post_check_loop self prev_tas (TeamAlliances.items (Team.alliances self)).

(** The loops of [_post_add_mixed] and [_post_add_team]: the union of the
    hero sets of the entries that qualify, built up in a local [team]. *)
Definition promote (qualifies : TeamAlliance.t → bool)
    (heroes : TeamAlliance.t → gset Hero) (values : list TeamAlliance.t)
  : gset Hero :=
  foldl (λ team ta, if qualifies ta then team ∪ heroes ta else team) ∅ values.

(** The heroes [_post_add_mixed] merges into [mixed]: its local [team]. *)
Definition mixed_promotion (tas : TeamAlliances.t) : gset Hero :=
  promote (λ ta, len (a_heroes tas ta) <=? a_size tas ta) (a_heroes tas)
          (TeamAlliances.items tas).

(** [Team._post_add_mixed] *)
Definition _post_add_mixed (self : Team.t) : Team.t :=
  let tas := Team.alliances self in
  let team := mixed_promotion tas in
  with_alliances self (with_mixed tas (TeamAlliances.mixed tas ∪ team)).

(** The heroes [_post_add_team] moves from [mixed] to [team]: its local
    [team]. *)
Definition team_promotion (tas : TeamAlliances.t) : gset Hero :=
  promote (λ ta, len (m_heroes tas ta) <=? m_size tas ta) (m_heroes tas)
          (TeamAlliances.items tas).

(** [Team._post_add_team] *)
Definition _post_add_team (self : Team.t) : Team.t :=
  let tas := Team.alliances self in
  let team := team_promotion tas in
  let tas := with_team tas (TeamAlliances.team tas ∪ team) in
  with_alliances self (with_mixed tas (TeamAlliances.mixed tas ∖ team)).

(** [alliances.setdefault(alliance, []).append(hero)] on the local
    dictionary of [_post_add_alliance]. *)
Fixpoint setdefault_append (alliance : Alliance.t) (hero : Hero)
    (d : list (Alliance.t * list Hero)) : list (Alliance.t * list Hero) :=
  match d with
  | [] => [(alliance, [hero])]
  | (k, heroes) :: d =>
      if decide (k = alliance) then (k, heroes ++ [hero]) :: d
      else (k, heroes) :: setdefault_append alliance hero d
  end.

(** [ta.level = level] on the entry of a key that is present. *)
Definition set_level (tas : TeamAlliances.t) (ta : TeamAlliance.t) (level : Z)
  : TeamAlliances.t :=
  with_items tas
    (set_item (TeamAlliance.mk (TeamAlliance.alliance ta) level)
              (TeamAlliances.items tas)).

(** The body of the second loop of [Team._post_add_alliance] once [level]
    is known not to be zero: [ta = self.alliances[alliance]], then
    [if level > ta.level: ta.level = level]. *)
Definition raise_level (tas : TeamAlliances.t) (alliance : Alliance.t)
    (level : Z) : TeamAlliances.t :=
  let '(tas, ta) := getitem tas alliance in
  if level >? TeamAlliance.level ta then set_level tas ta level else tas.

(** The second loop of [Team._post_add_alliance]. *)
Fixpoint _post_add_alliance_loop (self : Team.t)
    (alliances : list (Alliance.t * list Hero)) : outcome :=
  match alliances with
  | [] => (self, None)
  | (alliance, heroes) :: alliances =>
      if decide (Alliance.level alliance = 0) then (self, Some ZeroDivisionError)
      else
        let level := Z.of_nat (length heroes) `div` Alliance.level alliance in
        if decide (level = 0) then _post_add_alliance_loop self alliances
        else
          _post_add_alliance_loop
            (with_alliances self (raise_level (Team.alliances self) alliance level))
            alliances
  end.

Section universe.
(** The reference graph the loader builds: [hero.alliances] for every
    hero.  ([alliance.heroes] is a field of the alliance.) *)
Variable hero_alliances : Hero → list Alliance.t.
(** The order in which Python iterates over a set of heroes.  It depends
    on the hashes of the names; the model takes it as given. *)
Variable iter_set : gset Hero → list Hero.

(** The first loop of [Team._post_add_alliance]. *)
Definition heroes_by_alliance (team : gset Hero)
  : list (Alliance.t * list Hero) :=
  foldl (λ alliances hero,
           foldl (λ alliances alliance,
                    setdefault_append alliance hero alliances)
                 alliances (hero_alliances hero))
        [] (iter_set team).

(** [Team._post_add_alliance] *)
Definition _post_add_alliance (self : Team.t) : outcome :=
  _post_add_alliance_loop self
    (heroes_by_alliance (TeamAlliances.team (Team.alliances self))).

(** [Team._post_add] *)
Definition _post_add (self : Team.t) : outcome :=
  _post_add_alliance (_post_add_team (_post_add_mixed self)).

(** The overlap loop of [Team._add], run when the alliance has no entry:
    the reserved size and the working set, which starts as the pool. *)
Definition overlap (tas : TeamAlliances.t) (alliance : Alliance.t)
  : Z * gset Hero :=
  foldl (λ '(reserved, team) ta,
           let al := TeamAlliance.alliance ta in
           if bool_decide (al ≠ alliance) && (a_size tas ta >? 0) then
             let heroes := Alliance.heroes al ∩ Alliance.heroes alliance in
             (reserved + Z.min (a_size tas ta) (len (heroes ∖ team)),
              team ∪ heroes)
           else (reserved, team))
        (0, pool tas) (TeamAlliances.items tas).

(** What [Team._add] computes before it reads the entry of the alliance:
    the reserved size [t_size] and the local [team], which is the pool
    when the alliance has an entry already. *)
Definition reservation (tas : TeamAlliances.t) (alliance : Alliance.t)
  : Z * gset Hero :=
  if contains tas alliance then (0, pool tas) else overlap tas alliance.

(** The level loop of [Team._add].  It returns [size] and the loop
    variable [level] as the loop leaves them: [level] is the candidate
    the loop stopped at, or the last candidate when the loop ran to its
    end, or unbound ([None]) when there was no candidate. *)
Fixpoint level_search (tas : TeamAlliances.t) (ta : TeamAlliance.t)
    (reserved limit : Z) (levels : list Z) (size : Z) (level : option Z)
  : Z * option Z :=
  match levels with
  | [] => (size, level)
  | level :: levels =>
      let amount := level_up_amount tas ta level reserved in
      if (level >? TeamAlliance.level ta) && (size + amount <=? limit)
      then (size + amount, Some level)
      else level_search tas ta reserved limit levels size (Some level)
  end.

(** [Team._add] *)
Definition _add (self : Team.t) (alliance : Alliance.t) (levels : list Z)
  : outcome :=
  let tas := Team.alliances self in
  let '(reserved, team) := reservation tas alliance in
  let team := team ∖ pool tas in
  let '(tas, ta) := getitem tas alliance in
  let self := with_alliances self tas in
  let size := TeamAlliances_size tas in
  let '(size, level) :=
    level_search tas ta reserved (Team.limit self) levels size None in
  if size >? Team.limit self then (self, Some (ValueError Capacity))
  else
    let prev_tas := TeamAlliances_copy tas in
    let tas := with_mixed tas (TeamAlliances.mixed tas ∪ team) in
    let self := with_size (with_alliances self tas) size in
    match level with
    | None => (self, Some UnboundLocalError)
    | Some level =>
        let tas := TeamAlliances_set tas alliance level in
        let self := with_alliances self tas in
        if TeamAlliances_size tas >? Team.limit self
        then (with_alliances self prev_tas, Some (ValueError Capacity))
        else
          match _post_check self prev_tas with
          | (self, None) => _post_add self
          | raised => raised
          end
    end.

(** [range(stop, 0, -1)] *)
Definition range_down (start : Z) : list Z :=
  rev (map Z.of_nat (seq 1 (Z.to_nat start))).

(** [Team.add] *)
Definition add (self : Team.t) (alliance : Alliance.t) (level : Z) : outcome :=
  if decide (Alliance.level alliance = 0) then (self, Some ZeroDivisionError)
  else
    _add self alliance
      [Z.min level (Alliance.total alliance `div` Alliance.level alliance)].

(** [Team.add_max] *)
Definition add_max (self : Team.t) (alliance : Alliance.t) : outcome :=
  if decide (Alliance.level alliance = 0) then (self, Some ZeroDivisionError)
  else
    _add self alliance
      (range_down (Alliance.total alliance `div` Alliance.level alliance)).

(** [Team._add_hero] and [Team.add_hero] *)
Definition _add_hero (self : Team.t) (hero : Hero) : outcome :=
  let tas := Team.alliances self in
  if negb (existsb (λ ta, (a_size tas ta >? 0)
                          && bool_decide (hero ∈ a_heroes tas ta))
                   (TeamAlliances.items tas))
     && (TeamAlliances_size tas + 1 >? Team.limit self)
  then (self, Some (ValueError Capacity))
  else
    let prev_tas := TeamAlliances_copy tas in
    let tas := with_team tas (TeamAlliances.team tas ∪ {[hero]}) in
    let tas := with_mixed tas (TeamAlliances.mixed tas ∖ TeamAlliances.team tas) in
    let self := with_alliances self tas in
    match _post_check self prev_tas with
    | (self, None) => _post_add self
    | raised => raised
    end.

Definition add_hero (self : Team.t) (hero : Hero) : outcome :=
  _add_hero self hero.
End universe.

(** ** Exploration engine *)

(** What a generator produces when it is consumed to its end: the values
    it yields and the exception that ends it, if one does. *)
Definition generated (A : Type) : Type := list A * option exn.

(** [iter_or] *)
Definition iter_or {A} (iter : generated A) (default : A) : generated A :=
  match iter with
  | ([], None) => ([default], None)
  | _ => iter
  end.

(** An upgrade rule [fn(team, alliance)] returns a team or raises. *)
Definition rule : Type := Team.t → Alliance.t → exn + Team.t.

(** A method that returns [self]. *)
Definition returning_self (o : outcome) : exn + Team.t :=
  match o with
  | (self, None) => inr self
  | (_, Some e) => inl e
  end.

Section exploration.
Variable hero_alliances : Hero → list Alliance.t.
Variable iter_set : gset Hero → list Hero.

(** [team_add(amount)], [team_inc] and [team_max] *)
Definition team_add (amount : Z) : rule :=
  λ team alliance,
    returning_self (add hero_alliances iter_set team alliance amount).

Definition team_inc : rule :=
  λ team alliance,
    let level :=
      if contains (Team.alliances team) alliance
      then TeamAlliance.level (snd (getitem (Team.alliances team) alliance)) + 1
      else 1 in
    returning_self (add hero_alliances iter_set team alliance level).

Definition team_max : rule :=
  λ team alliance,
    returning_self (add_max hero_alliances iter_set team alliance).

(** [Team._increase]: [except ValueError] skips the candidate; any other
    exception ends the generator. *)
Fixpoint _increase (self : Team.t) (alliances : list Alliance.t) (fn : rule)
  : generated Team.t :=
  match alliances with
  | [] => ([], None)
  | alliance :: alliances =>
      match fn (Team_copy self) alliance with
      | inl (ValueError _) => _increase self alliances fn
      | inl e => ([], Some e)
      | inr value =>
          if negb (Team_eq value self)
          then let '(rest, e) := _increase self alliances fn in
               (value :: rest, e)
          else _increase self alliances fn
      end
  end.

(** [Team.increase] *)
Definition increase (self : Team.t) (alliances : list Alliance.t) (fn : rule)
  : generated Team.t :=
  iter_or (_increase self alliances fn) self.

(** [yield from] over the teams of a generator: the values of each
    sub-generator in turn, up to the first exception.  The values that
    were yielded before the exception stay yielded. *)
Fixpoint yield_from_each (sub : Team.t → generated Team.t)
    (teams : list Team.t) (e : option exn) : generated Team.t :=
  match teams with
  | [] => ([], e)
  | team :: teams =>
      match sub team with
      | (values, Some e') => (values, Some e')
      | (values, None) =>
          let '(rest, e') := yield_from_each sub teams e in
          (values ++ rest, e')
      end
  end.

(** [Team.recursive_increase] through [Team._recursive_increase].  The
    recursion of the source is not structural: [fuel] is the depth of
    nested calls the interpreter allows.  A call beyond it raises
    [RecursionError], which no handler of the source catches
    ([_increase] catches [ValueError] around the rule only): it ends
    every generator on the way up, after the teams they have yielded. *)
Fixpoint recursive_increase (fuel : nat) (self : Team.t)
    (alliances : list Alliance.t) (fn : rule)
  : generated Team.t :=
  match fuel with
  | O => ([], Some RecursionError)
  | S fuel =>
      let '(teams, e) := _increase self alliances fn in
      iter_or
        (yield_from_each (λ team, recursive_increase fuel team alliances fn)
                         teams e)
        self
  end.
End exploration.

(** ** The public mutations *)

(** A call of one of the three public mutating methods of [Team]. *)
Inductive call :=
  | call_add (alliance : Alliance.t) (level : Z)
  | call_add_max (alliance : Alliance.t)
  | call_add_hero (hero : Hero).

Definition run (hero_alliances : Hero → list Alliance.t)
    (iter_set : gset Hero → list Hero) (c : call) (self : Team.t) : outcome :=
  match c with
  | call_add alliance level => add hero_alliances iter_set self alliance level
  | call_add_max alliance => add_max hero_alliances iter_set self alliance
  | call_add_hero hero => add_hero hero_alliances iter_set self hero
  end.

(** The alliance an [add] or [add_max] call is about. *)
Definition call_alliance (c : call) : option Alliance.t :=
  match c with
  | call_add alliance _ | call_add_max alliance => Some alliance
  | call_add_hero _ => None
  end.

(** The hero a call adds directly. *)
Definition added_hero (c : call) : gset Hero :=
  match c with
  | call_add_hero hero => {[hero]}
  | _ => ∅
  end.

(** The teams a program can hold: a new [Team(limit)], and what a call of
    [add], [add_max] or [add_hero] leaves of such a team, whether the call
    returns or raises. *)
Inductive reachable (hero_alliances : Hero → list Alliance.t)
    (iter_set : gset Hero → list Hero) : Team.t → Prop :=
  | reachable_init limit : reachable hero_alliances iter_set (Team_init limit)
  | reachable_call c self self' e :
      reachable hero_alliances iter_set self →
      run hero_alliances iter_set c self = (self', e) →
      reachable hero_alliances iter_set self'.

(** ** What the properties are stated with *)

(** The level a faction has on read: an absent faction reads as level 0
    ([TeamAlliances.__missing__]). *)
Definition stored_level (tas : TeamAlliances.t) (alliance : Alliance.t) : Z :=
  match find_item alliance (TeamAlliances.items tas) with
  | Some ta => TeamAlliance.level ta
  | None => 0
  end.

(** What a failed [add] or [add_max] leaves of the container: the read
    [self.alliances[alliance]] that precedes the snapshot. *)
Definition materialised (c : call) (tas : TeamAlliances.t) : TeamAlliances.t :=
  match c with
  | call_add alliance _ | call_add_max alliance => fst (getitem tas alliance)
  | call_add_hero _ => tas
  end.

(** The state a caller can observe: cached size, key set, stored levels,
    team set and mixed set. *)
Definition same_state (self other : Team.t) : Prop :=
  Team.size self = Team.size other
  ∧ (∀ k, k ∈ keys (Team.alliances self) ↔ k ∈ keys (Team.alliances other))
  ∧ (∀ k, stored_level (Team.alliances self) k
          = stored_level (Team.alliances other) k)
  ∧ TeamAlliances.team (Team.alliances self)
    = TeamAlliances.team (Team.alliances other)
  ∧ TeamAlliances.mixed (Team.alliances self)
    = TeamAlliances.mixed (Team.alliances other).

(** [team ∩ mixed = ∅] *)
Definition disjoint_sets (tas : TeamAlliances.t) : Prop :=
  TeamAlliances.team tas ## TeamAlliances.mixed tas.

(** The member heroes of the alliances that have an entry in the
    container, whatever the level of the entry. *)
Definition heroes_of_entries (tas : TeamAlliances.t) : gset Hero :=
  ⋃ (map Alliance.heroes (keys tas)).

(** The container [_add_hero] hands to the post-check: after
    [team |= {hero}] and [mixed -= team]. *)
Definition with_hero (tas : TeamAlliances.t) (hero : Hero) : TeamAlliances.t :=
  TeamAlliances.mk (TeamAlliances.items tas)
    (TeamAlliances.team tas ∪ {[hero]})
    (TeamAlliances.mixed tas ∖ (TeamAlliances.team tas ∪ {[hero]})).

(** What a candidate contributes to [increase]: the team the rule returns
    on a copy of [self], unless the rule raises or that team equals
    [self]. *)
Definition alternative (self : Team.t) (fn : rule) (alliance : Alliance.t)
  : option Team.t :=
  match fn (Team_copy self) alliance with
  | inr value => if Team_eq value self then None else Some value
  | inl _ => None
  end.

(** ** A well-formed universe *)

(** The reference graph and the iteration order are well formed: a hero
    lists an alliance once, only alliances it is a member of, alliances
    have a positive step, and iterating over a set visits each of its
    elements once. *)
Record wf_universe (hero_alliances : Hero → list Alliance.t)
    (iter_set : gset Hero → list Hero) : Prop := {
  wf_member : ∀ h al, al ∈ hero_alliances h → h ∈ Alliance.heroes al;
  wf_level : ∀ h al, al ∈ hero_alliances h → 0 < Alliance.level al;
  wf_once : ∀ h, NoDup (hero_alliances h);
  wf_iter : ∀ s, iter_set s ≡ₚ elements s
}.

(** ** What the proofs keep track of *)

(** An entry is settled for [_post_add_mixed] when it does not qualify, or
    qualifies with no hero left to promote; likewise for [_post_add_team]. *)
Definition mixed_stable (tas : TeamAlliances.t) (ta : TeamAlliance.t) : Prop :=
  len (a_heroes tas ta) ≤ a_size tas ta → a_heroes tas ta = ∅.
Definition team_stable (tas : TeamAlliances.t) (ta : TeamAlliance.t) : Prop :=
  len (m_heroes tas ta) ≤ m_size tas ta → m_heroes tas ta = ∅.

(** The confirmed heroes of an entry cover the size it claims. *)
Definition covered (tas : TeamAlliances.t) (ta : TeamAlliance.t) : Prop :=
  total_size ta ≤ len (t_heroes tas ta).

(** An item of the local dictionary of [_post_add_alliance] that the loop
    can process without raising the stored level of its alliance above
    what the confirmed heroes cover. *)
Definition counted (tas : TeamAlliances.t) (item : Alliance.t * list Hero)
  : Prop :=
  0 < Alliance.level item.1
  ∧ Z.of_nat (length item.2)
    ≤ len (Alliance.heroes item.1 ∩ TeamAlliances.team tas).

(** An item of that dictionary whose level is already stored. *)
Definition settled (tas : TeamAlliances.t) (item : Alliance.t * list Hero)
  : Prop :=
  let level := Z.of_nat (length item.2) `div` Alliance.level item.1 in
  level = 0
  ∨ ∃ ta, find_item item.1 (TeamAlliances.items tas) = Some ta
          ∧ level ≤ TeamAlliance.level ta.

(** How the second loop of [_post_add_alliance] moves a container: the
    sets stay, the size does not grow, every entry that was there is still
    there with a level at least as high, and the entries that are new are
    covered by confirmed heroes. *)
Record advances (tas tas' : TeamAlliances.t) : Prop := {
  adv_team : TeamAlliances.team tas' = TeamAlliances.team tas;
  adv_mixed : TeamAlliances.mixed tas' = TeamAlliances.mixed tas;
  adv_size : TeamAlliances_size tas' ≤ TeamAlliances_size tas;
  adv_find :
    ∀ k ta, find_item k (TeamAlliances.items tas) = Some ta →
            ∃ ta', find_item k (TeamAlliances.items tas') = Some ta'
                   ∧ TeamAlliance.level ta ≤ TeamAlliance.level ta';
  adv_items :
    ∀ ta', ta' ∈ TeamAlliances.items tas' →
           ta' ∈ TeamAlliances.items tas ∨ covered tas ta'
}.

(** The lists of the local dictionary of [_post_add_alliance] while the
    heroes [seen] have been processed and, of the hero [h] being processed,
    the alliances [pre]: a list is not empty, holds a hero once, and only
    heroes that list the alliance. *)
Definition grouping (hero_alliances : Hero → list Alliance.t)
    (seen : list Hero) (now : option (Hero * list Alliance.t))
    (d : list (Alliance.t * list Hero)) : Prop :=
  ∀ al hs, (al, hs) ∈ d →
    hs ≠ [] ∧ NoDup hs
    ∧ (∀ x, x ∈ hs →
            (x ∈ seen ∨ ∃ h pre, now = Some (h, pre) ∧ x = h)
            ∧ al ∈ hero_alliances x)
    ∧ (∀ h pre, now = Some (h, pre) → h ∈ hs → al ∈ pre).

(** ** A small universe

    Four factions over nine heroes, and the reference graph the loader
    would build for them.  [Examples.F] has nine members and tiers at 3, 6
    and 9 heroes; [Examples.G] claims the same tiers with four members
    only; [Examples.P] and [Examples.Q] share three members. *)
Module Examples.
Definition F : Alliance.t :=
  Alliance.mk "F" 3 9 "effect of F"
    (list_to_set ["h1"; "h2"; "h3"; "h4"; "h5"; "h6"; "h7"; "h8"; "h9"]).
Definition G : Alliance.t :=
  Alliance.mk "G" 3 9 "effect of G" (list_to_set ["h1"; "h2"; "h3"; "h4"]).
Definition P : Alliance.t :=
  Alliance.mk "P" 1 3 "effect of P" (list_to_set ["h1"; "h2"; "h3"]).
Definition Q : Alliance.t :=
  Alliance.mk "Q" 2 4 "effect of Q" (list_to_set ["h1"; "h2"; "h3"; "h4"]).

Definition alliances : list Alliance.t := [F; G; P; Q].

(** [hero.alliances], as [load] resolves it: the alliances that have the
    hero as a member. *)
Definition hero_alliances (hero : Hero) : list Alliance.t :=
  List.filter (λ al, bool_decide (hero ∈ Alliance.heroes al)) alliances.

(** Sets are iterated in the order of [elements]. *)
Definition iter_set (s : gset Hero) : list Hero := elements s.

Definition run (c : call) (self : Team.t) : outcome :=
  run hero_alliances iter_set c self.

(** [Team(limit=10).add(F, 1)], [.add(F, 2)] *)
Definition team_F1 : Team.t := (run (call_add F 1) (Team_init 10)).1.
Definition team_F2 : Team.t := (run (call_add F 2) (Team_init 10)).1.
(** [Team(limit=10).add(F, 2).add(F, 1)] *)
Definition team_F2_lowered : Team.t := (run (call_add F 1) team_F2).1.
(** [Team(limit=10).add(F, 3)]: all nine members are promoted. *)
Definition team_F3 : Team.t := (run (call_add F 3) (Team_init 10)).1.
(** [Team(limit=10).add(P, 1)] *)
Definition team_P1 : Team.t := (run (call_add P 1) (Team_init 10)).1.

(** What the failed call [Team(limit=10).add(G, 2)] leaves of the team. *)
Definition team_G_failed : Team.t := (run (call_add G 2) (Team_init 10)).1.

(** [team_max] in this universe. *)
Definition team_max : rule := team_max hero_alliances iter_set.

(** The two teams [recursive_increase] alternates between when it starts
    from [team_F1] with [team_max]: [team_F1.copy().add_max(F)], and
    [add_max(F)] on a copy of that. *)
Definition team_A : Team.t := (run (call_add_max F) team_F1).1.
Definition team_B : Team.t := (run (call_add_max F) team_A).1.
End Examples.

(** ** Objects and references: [copy]

    The mutating methods above are functions on values.  That is sound as
    long as no two teams share an object they mutate, which is what
    [Team.copy] has to establish.  This part models the objects: sets,
    [TeamAlliance] entries with their back-reference [tas],
    [TeamAlliances] containers and [Team]s live in a heap and refer to
    each other by reference, and the three [copy] methods allocate. *)

(** A reference is the identity of an object. *)
Definition ref : Type := positive.

Inductive object :=
  | SetObj (elems : gset Hero)
  | TeamAllianceObj (alliance : Alliance.t) (level : Z) (tas : ref)
  | TeamAlliancesObj (items : list (Alliance.t * ref)) (team mixed : ref)
  | TeamObj (size : Z) (alliances : ref) (limit : Z).

Abbreviation heap := (gmap ref object).

(** Creating an object: it gets a reference no object has. *)
Definition alloc (h : heap) (o : object) : heap * ref :=
  let r := fresh (dom h) in (<[r := o]> h, r).

(** [dict.__setitem__] on a dictionary of references. *)
Fixpoint dict_set (key : Alliance.t) (value : ref)
    (items : list (Alliance.t * ref)) : list (Alliance.t * ref) :=
  match items with
  | [] => [(key, value)]
  | (k, v) :: items =>
      if decide (k = key) then (k, value) :: items
      else (k, v) :: dict_set key value items
  end.

(** [set(s)]: a new set with the elements of [s]. *)
Definition set_copy (h : heap) (s : ref) : option (heap * ref) :=
  match h !! s with
  | Some (SetObj elems) => Some (alloc h (SetObj elems))
  | _ => None
  end.

(** [TeamAlliance.copy(self, tas)]: [type(self)(self.alliance, self.level, tas)] *)
Definition TeamAlliance_copy_obj (h : heap) (self tas : ref)
  : option (heap * ref) :=
  match h !! self with
  | Some (TeamAllianceObj alliance level _) =>
      Some (alloc h (TeamAllianceObj alliance level tas))
  | _ => None
  end.

(** The loop of [TeamAlliances.copy]: [new[key] = value.copy(new)]. *)
Fixpoint copy_items (h : heap) (new : ref) (items : list (Alliance.t * ref))
  : option heap :=
  match items with
  | [] => Some h
  | (key, value) :: items =>
      match TeamAlliance_copy_obj h value new with
      | Some (h, copied) =>
          match h !! new with
          | Some (TeamAlliancesObj new_items team mixed) =>
              copy_items
                (<[new := TeamAlliancesObj (dict_set key copied new_items)
                                           team mixed]> h)
                new items
          | _ => None
          end
      | None => None
      end
  end.

(** [TeamAlliances.copy] *)
Definition TeamAlliances_copy_obj (h : heap) (self : ref)
  : option (heap * ref) :=
  match h !! self with
  | Some (TeamAlliancesObj items team mixed) =>
      match set_copy h team with
      | Some (h, team') =>
          match set_copy h mixed with
          | Some (h, mixed') =>
              let '(h, new) := alloc h (TeamAlliancesObj [] team' mixed') in
              match copy_items h new items with
              | Some h => Some (h, new)
              | None => None
              end
          | None => None
          end
      | None => None
      end
  | _ => None
  end.

(** [Team.__init__] *)
Definition Team_init_obj (h : heap) (limit : Z) : heap * ref :=
  let '(h, team) := alloc h (SetObj ∅) in
  let '(h, mixed) := alloc h (SetObj ∅) in
  let '(h, alliances) := alloc h (TeamAlliancesObj [] team mixed) in
  alloc h (TeamObj 0 alliances limit).

(** [Team.copy], through [Team._copy]: the attribute assignments
    [new.size = self.size] and [new.alliances = self.alliances.copy()]
    update the new object in place. *)
Definition Team_copy_obj (h : heap) (self : ref) : option (heap * ref) :=
  match h !! self with
  | Some (TeamObj size alliances limit) =>
      let '(h, new) := Team_init_obj h limit in
      match h !! new with
      | Some (TeamObj _ new_alliances new_limit) =>
          let h := <[new := TeamObj size new_alliances new_limit]> h in
          match TeamAlliances_copy_obj h alliances with
          | Some (h, copied) =>
              Some (<[new := TeamObj size copied new_limit]> h, new)
          | None => None
          end
      | _ => None
      end
  | _ => None
  end.

(** *** The team an object stands for *)

Definition set_value (h : heap) (s : ref) : option (gset Hero) :=
  match h !! s with
  | Some (SetObj elems) => Some elems
  | _ => None
  end.

Definition entry_value (h : heap) (item : Alliance.t * ref)
  : option TeamAlliance.t :=
  match h !! item.2 with
  | Some (TeamAllianceObj alliance level _) =>
      Some (TeamAlliance.mk alliance level)
  | _ => None
  end.

Definition alliances_value (h : heap) (tas : ref) : option TeamAlliances.t :=
  match h !! tas with
  | Some (TeamAlliancesObj items team mixed) =>
      items ← mapM (entry_value h) items;
      team ← set_value h team;
      mixed ← set_value h mixed;
      Some (TeamAlliances.mk items team mixed)
  | _ => None
  end.

Definition team_value (h : heap) (self : ref) : option Team.t :=
  match h !! self with
  | Some (TeamObj size alliances limit) =>
      alliances ← alliances_value h alliances;
      Some (Team.mk size alliances limit)
  | _ => None
  end.

(** The objects a team is made of: the [Team], its container, the two
    sets of the container and the entries of the container.  Every
    assignment of the mutating methods is to an attribute of one of
    these ([self.size], [self.alliances], [self.alliances.mixed |= ...],
    [self.alliances[alliance] = ...], [ta.level = ...]) or creates an
    object. *)
Definition footprint (h : heap) (self : ref) : gset ref :=
  match h !! self with
  | Some (TeamObj _ alliances _) =>
      {[self; alliances]}
      ∪ match h !! alliances with
        | Some (TeamAlliancesObj items team mixed) =>
            {[team; mixed]} ∪ list_to_set (map snd items)
        | _ => ∅
        end
  | _ => ∅
  end.

(** The container [tas] is well formed: it is a dictionary, every entry
    is stored under its alliance, and refers back to the container. *)
Definition parented (h : heap) (tas : ref) : Prop :=
  ∃ items team mixed,
    h !! tas = Some (TeamAlliancesObj items team mixed)
    ∧ NoDup (map fst items)
    ∧ ∀ key value, (key, value) ∈ items →
        ∃ level, h !! value = Some (TeamAllianceObj key level tas).

(** A later heap in which only objects of [owned] were assigned to, and
    objects were created. *)
Definition writes_within (owned : gset ref) (h h' : heap) : Prop :=
  ∀ r, r ∈ dom h → r ∉ owned → h' !! r = h !! r.

(** What a new entry is to the entry it copies: under the same key, a new
    object with the same alliance and level, referring to the new
    container. *)
Definition copy_of (h h' : heap) (new : ref) (item c : Alliance.t * ref)
  : Prop :=
  (c.1 = item.1) ∧ (c.2 ∉ dom h)
  ∧ ∃ level tas0,
      h !! item.2 = Some (TeamAllianceObj item.1 level tas0)
      ∧ h' !! c.2 = Some (TeamAllianceObj item.1 level new).

(** The container of the team [self] is well formed. *)
Definition team_parented (h : heap) (self : ref) : Prop :=
  ∃ size alliances limit,
    h !! self = Some (TeamObj size alliances limit) ∧ parented h alliances.

(** A heap with one team, [Team(limit=10).add(F, 2)]: the two sets, the
    container, the team and the entry of [F]. *)
Definition example_heap : heap :=
  <[1%positive := SetObj ∅]>
  (<[2%positive := SetObj ∅]>
  (<[3%positive := TeamAlliancesObj [(Examples.F, 5%positive)] 1%positive 2%positive]>
  (<[4%positive := TeamObj 6 3%positive 10]>
  (<[5%positive := TeamAllianceObj Examples.F 2 3%positive]> ∅)))).

(** ** What the further properties are stated with *)

(** Every entry asks for no more heroes than its alliance has. *)
Definition staffed (tas : TeamAlliances.t) : Prop :=
  ∀ ta, ta ∈ TeamAlliances.items tas →
        total_size ta ≤ len (Alliance.heroes (TeamAlliance.alliance ta)).

(** One container holds at least what another holds: the heroes of the
    team set, the heroes of the pool, the keys, and every stored level. *)
Definition grown (tas tas' : TeamAlliances.t) : Prop :=
  TeamAlliances.team tas ⊆ TeamAlliances.team tas'
  ∧ pool tas ⊆ pool tas'
  ∧ (∀ k, k ∈ keys tas → k ∈ keys tas')
  ∧ (∀ k, stored_level tas k ≤ stored_level tas' k).

(** One step of the exploration: [value] is what the rule returns on a
    copy of [self] for one of the candidates, and is not equal to
    [self]. *)
Definition explores (alliances : list Alliance.t) (fn : rule)
    (self value : Team.t) : Prop :=
  ∃ alliance, alliance ∈ alliances ∧ alternative self fn alliance = Some value.

(** ** [Alliance.sizes] *)

(** [range(start, stop, step)], as the list of its elements.  [None]
    stands for the [ValueError] of a zero step. *)
Definition py_range (start stop step : Z) : option (list Z) :=
  if decide (step = 0) then None
  else
    let count :=
      if decide (0 < step) then (stop - start + step - 1) `div` step
      else (start - stop - step - 1) `div` (- step) in
    Some (map (λ i, start + Z.of_nat i * step) (seq 0 (Z.to_nat count))).

(** [Alliance.sizes]: [range(self.level, self.total + 1, self.level)] *)
Definition Alliance_sizes (alliance : Alliance.t) : option (list Z) :=
  py_range (Alliance.level alliance) (Alliance.total alliance + 1)
           (Alliance.level alliance).

(** ** [GlobalTeam] and [Underlord] *)

Module GlobalTeam.
(** [class GlobalTeam(Team)]: a team that carries the candidates of its
    exploration.  [base] holds the fields of [Team]. *)
Record t := mk {
  base : Team.t;
  _alliances : list Alliance.t
}.
End GlobalTeam.

(** [GlobalTeam.__init__] *)
Definition GlobalTeam_init (alliances : list Alliance.t) (limit : Z)
  : GlobalTeam.t :=
  GlobalTeam.mk (Team_init limit) alliances.

(** [GlobalTeam.increase]: the argument [alliances] is not used, the
    candidates are those of the team; [fn] is [team_max] unless it is
    given.  The rule works on the fields of [Team], and the teams yielded
    are given by these fields. *)
Definition GlobalTeam_increase (hero_alliances : Hero → list Alliance.t)
    (iter_set : gset Hero → list Hero) (self : GlobalTeam.t)
    (alliances : option (list Alliance.t)) (fn : option rule)
  : generated Team.t :=
  iter_or (_increase (GlobalTeam.base self) (GlobalTeam._alliances self)
                     (default (team_max hero_alliances iter_set) fn))
          (GlobalTeam.base self).

Module Underlord.
(** [class Underlord]: the heroes and the alliances, each with an index
    by name, and the table of the heroes two alliances share.  A
    dictionary with strings as keys is a finite map; the table, whose
    keys are pairs of alliances, is a list of items in insertion order. *)
Record t := mk {
  heroes : list Hero;
  hero : gmap string Hero;
  alliances : list Alliance.t;
  alliance : gmap string Alliance.t;
  alliances_overlap : list ((Alliance.t * Alliance.t) * gset Hero)
}.
End Underlord.

(** [d[key] = value] and [d.get(key)] on a list of items. *)
Fixpoint dict_setitem {K V} `{EqDecision K} (key : K) (value : V)
    (d : list (K * V)) : list (K * V) :=
  match d with
  | [] => [(key, value)]
  | (k, v) :: d =>
      if decide (k = key) then (k, value) :: d
      else (k, v) :: dict_setitem key value d
  end.

Fixpoint dict_get {K V} `{EqDecision K} (key : K) (d : list (K * V))
  : option V :=
  match d with
  | [] => None
  | (k, v) :: d => if decide (k = key) then Some v else dict_get key d
  end.

(** [Underlord.__init__]: the three dictionary comprehensions assign
    item after item, so that a later item replaces an earlier one with
    the same key; [itertools.product(alliances, repeat=2)] pairs every
    alliance with every alliance, the first component varying slowest. *)
Definition Underlord_init (heroes : list Hero) (alliances : list Alliance.t)
  : Underlord.t :=
  Underlord.mk heroes
    (foldl (λ d h, <[h := h]> d) ∅ heroes)
    alliances
    (foldl (λ d a, <[Alliance.name a := a]> d) ∅ alliances)
    (foldl (λ d '(a1, a2),
              dict_setitem (a1, a2)
                (Alliance.heroes a1 ∩ Alliance.heroes a2) d)
           [] (list_prod alliances alliances)).

(** What [Underlord.with_alliances] ends in when it does not return: the
    [KeyError] of a name that is not in the index, or what [add] raised. *)
Inductive lookup_error :=
  | KeyError (key : string)
  | Raised (e : exn).

(** The loop of [Underlord.with_alliances]:
    [team.add(self.alliance[alliance], level)] for every pair. *)
Fixpoint with_alliances_loop (hero_alliances : Hero → list Alliance.t)
    (iter_set : gset Hero → list Hero) (self : Underlord.t)
    (team : GlobalTeam.t) (alliances : list (string * Z))
  : lookup_error + GlobalTeam.t :=
  match alliances with
  | [] => inr team
  | (alliance, level) :: alliances =>
      match Underlord.alliance self !! alliance with
      | None => inl (KeyError alliance)
      | Some alliance =>
          match add hero_alliances iter_set (GlobalTeam.base team)
                    alliance level with
          | (base, None) =>
              with_alliances_loop hero_alliances iter_set self
                (GlobalTeam.mk base (GlobalTeam._alliances team)) alliances
          | (_, Some e) => inl (Raised e)
          end
      end
  end.

(** [Underlord.with_alliances]: the team is a [GlobalTeam] with the
    default limit, 10. *)
Definition Underlord_with_alliances (hero_alliances : Hero → list Alliance.t)
    (iter_set : gset Hero → list Hero) (self : Underlord.t)
    (alliances : list (string * Z)) : lookup_error + GlobalTeam.t :=
  with_alliances_loop hero_alliances iter_set self
    (GlobalTeam_init (Underlord.alliances self) 10) alliances.

(** What every step of the loop of [with_alliances] keeps of the team:
    its candidates and its limit, and a state that is within the limit,
    has disjoint sets and staffed entries, and that a program can
    hold. *)
Definition built (hero_alliances : Hero → list Alliance.t)
    (iter_set : gset Hero → list Hero) (candidates : list Alliance.t)
    (limit : Z) (team : GlobalTeam.t) : Prop :=
  GlobalTeam._alliances team = candidates
  ∧ Team.limit (GlobalTeam.base team) = limit
  ∧ TeamAlliances_size (Team.alliances (GlobalTeam.base team)) ≤ limit
  ∧ disjoint_sets (Team.alliances (GlobalTeam.base team))
  ∧ staffed (Team.alliances (GlobalTeam.base team))
  ∧ reachable hero_alliances iter_set (GlobalTeam.base team).

(** ** The loader *)

Module HeroData.
(** [class Hero] as the schema decodes it from the data: [alliances] and
    [ace] are names.  (The fields [abilities], [description] and [stats]
    take no part in [load].) *)
Record t := mk {
  name : string;
  tier : Z;
  ace : option string;
  alliances : list string
}.
End HeroData.

(** A hero as [load] leaves it.  A hero in jail is skipped and keeps the
    names; for the others [hero.alliances] has become the list of the
    alliance objects, here their positions in the list of alliances
    [load] returns, and [hero.ace], unless it is [None] or empty, the
    alliance object of that name. *)
Inductive loaded_hero :=
  | Jailed (hero : HeroData.t)
  | Linked (hero : HeroData.t) (alliances : list nat) (ace : option nat).

Definition loaded_data (h : loaded_hero) : HeroData.t :=
  match h with
  | Jailed hero | Linked hero _ _ => hero
  end.

(** [alliance = {a.name: a for a in alliances}], the objects given by
    their positions. *)
Definition position_index (alliances : list Alliance.t) : gmap string nat :=
  foldl (λ d '(i, a), <[Alliance.name a := i]> d) ∅ (imap pair alliances).

(** [al.heroes.add(hero)] *)
Definition add_member (hero : Hero) (alliance : Alliance.t) : Alliance.t :=
  Alliance.mk (Alliance.name alliance) (Alliance.level alliance)
    (Alliance.total alliance) (Alliance.effect alliance)
    (Alliance.heroes alliance ∪ {[hero]}).

(** [if hero.ace: hero.ace = alliance[hero.ace]]: [None] and the empty
    string are false.  The outer [None] is the [KeyError]. *)
Definition resolve_ace (index : gmap string nat) (ace : option string)
  : option (option nat) :=
  match ace with
  | None => Some None
  | Some a =>
      if decide (a = EmptyString) then Some None else Some <$> index !! a
  end.

(** The body of the [try] in [load], for one hero.  [None] is an
    exception, which [load] turns into a [ValueError]: the [KeyError] of
    a name that is not in the index. *)
Definition link_hero (index : gmap string nat) (alliances : list Alliance.t)
    (hero : HeroData.t) : option (list Alliance.t * loaded_hero) :=
  refs ← mapM (λ a, index !! a) (HeroData.alliances hero);
  let alliances :=
    foldl (λ alliances r, alter (add_member (HeroData.name hero)) r alliances)
          alliances refs in
  ace ← resolve_ace index (HeroData.ace hero);
  Some (alliances, Linked hero refs ace).

(** [ValueError(f"Error loading {hero.name}")] *)
Inductive load_error := ErrorLoading (name : string).

Section loader.
(** [str.lower] *)
Variable lower : string → string.

(** The loop of [load] over the heroes. *)
Fixpoint link_heroes (index : gmap string nat) (jailbirds : gset string)
    (alliances : list Alliance.t) (heroes : list HeroData.t)
  : load_error + (list loaded_hero * list Alliance.t) :=
  match heroes with
  | [] => inr ([], alliances)
  | hero :: heroes =>
      if decide (lower (HeroData.name hero) ∈ jailbirds) then
        match link_heroes index jailbirds alliances heroes with
        | inr (heroes, alliances) => inr (Jailed hero :: heroes, alliances)
        | inl e => inl e
        end
      else
        match link_hero index alliances hero with
        | None => inl (ErrorLoading (HeroData.name hero))
        | Some (alliances, linked) =>
            match link_heroes index jailbirds alliances heroes with
            | inr (heroes, alliances) => inr (linked :: heroes, alliances)
            | inl e => inl e
            end
        end
  end.

(** [load], from the heroes and the alliances the schemas have decoded:
    the index by name, the names in jail in lower case, and the loop. *)
Definition load (heroes : list HeroData.t) (alliances : list Alliance.t)
    (jailbirds : gset string)
  : load_error + (list loaded_hero * list Alliance.t) :=
  link_heroes (position_index alliances) (set_map lower jailbirds)
              alliances heroes.
End loader.

(** [hero.alliances] after [load]: the alliance objects a linked hero
    refers to, as they are in the list [load] returned.  A hero in jail
    has none: its [alliances] still holds the names, strings on which
    [_post_add_alliance] raises [AttributeError]. *)
Definition loaded_alliances (alliances : list Alliance.t) (h : loaded_hero)
  : option (list Alliance.t) :=
  match h with
  | Jailed _ => None
  | Linked _ refs _ => Some (omap (λ r, alliances !! r) refs)
  end.

(** The engine reads [hero.alliances] of the heroes [load] returned: for
    every one of them [hero_alliances] gives the alliance objects of the
    hero, which a hero in jail does not have; a name that is not the
    name of a hero stands for no hero and refers to nothing. *)
Definition engine_reads (heroes : list loaded_hero)
    (alliances : list Alliance.t) (hero_alliances : Hero → list Alliance.t)
  : Prop :=
  (∀ h, h ∈ heroes →
        loaded_alliances alliances h
        = Some (hero_alliances (HeroData.name (loaded_data h))))
  ∧ (∀ x, x ∉ map (λ h, HeroData.name (loaded_data h)) heroes →
          hero_alliances x = []).

(** The heroes [load] adds to the alliance at a position: the heroes,
    not in jail, that refer to it. *)
Definition members_at (heroes : list loaded_hero) (r : nat) : gset Hero :=
  ⋃ (map (λ h, match h with
               | Linked hero refs _ =>
                   if decide (r ∈ refs) then {[HeroData.name hero]} else ∅
               | Jailed _ => ∅
               end) heroes).

(** A hero [load] can link: its alliances, and its ace unless that is
    [None] or empty, are names of alliances of the list. *)
Definition linkable (alliances : list Alliance.t) (hero : HeroData.t) : Prop :=
  Forall (λ a, a ∈ map Alliance.name alliances) (HeroData.alliances hero)
  ∧ match HeroData.ace hero with
    | None => True
    | Some a => a = EmptyString ∨ a ∈ map Alliance.name alliances
    end.

(** An alliance with the heroes [members] added to its heroes. *)
Definition with_members (members : gset Hero) (al : Alliance.t) : Alliance.t :=
  Alliance.mk (Alliance.name al) (Alliance.level al) (Alliance.total al)
    (Alliance.effect al) (Alliance.heroes al ∪ members).

(** How [load] has dealt with a hero: skipped it for being in jail, or
    resolved its names in the index. *)
Definition dealt_with (lower : string → string) (index : gmap string nat)
    (jailbirds : gset string) (h : loaded_hero) : Prop :=
  match h with
  | Jailed hero => lower (HeroData.name hero) ∈ jailbirds
  | Linked hero refs ace =>
      (lower (HeroData.name hero) ∉ jailbirds)
      ∧ mapM (λ a, index !! a) (HeroData.alliances hero) = Some refs
      ∧ resolve_ace index (HeroData.ace hero) = Some ace
  end.

(** A small set of data: three heroes, of which one is in jail, and the
    alliances [P] and [Q] without heroes yet. *)
Module LoaderExample.
Definition lower_char (c : Ascii.ascii) : Ascii.ascii :=
  let n := Ascii.nat_of_ascii c in
  if ((65 <=? n) && (n <=? 90))%nat then Ascii.ascii_of_nat (n + 32) else c.

(** [str.lower] on ASCII strings. *)
Fixpoint lower (s : string) : string :=
  match s with
  | EmptyString => EmptyString
  | String c s => String (lower_char c) (lower s)
  end.

Definition heroes : list HeroData.t :=
  [HeroData.mk "h1" 1 (Some "P") ["P"; "Q"];
   HeroData.mk "H2" 2 None ["P"];
   HeroData.mk "h3" 1 (Some EmptyString) ["Q"]].

Definition alliances : list Alliance.t :=
  [Alliance.mk "P" 1 3 "effect of P" ∅; Alliance.mk "Q" 2 4 "effect of Q" ∅].

Definition jailbirds : gset string := {["h2"]}.

Definition loaded : list loaded_hero * list Alliance.t :=
  ([Linked (HeroData.mk "h1" 1 (Some "P") ["P"; "Q"]) [0; 1]%nat (Some 0%nat);
    Jailed (HeroData.mk "H2" 2 None ["P"]);
    Linked (HeroData.mk "h3" 1 (Some EmptyString) ["Q"]) [1%nat] None],
   [Alliance.mk "P" 1 3 "effect of P" {["h1"]};
    Alliance.mk "Q" 2 4 "effect of Q" {["h1"; "h3"]}]).

(** The same data loaded with nobody in jail, and [hero.alliances] of the
    three heroes then. *)
Definition P : Alliance.t := Alliance.mk "P" 1 3 "effect of P" {["h1"; "H2"]}.
Definition Q : Alliance.t := Alliance.mk "Q" 2 4 "effect of Q" {["h1"; "h3"]}.

Definition loaded_free : list loaded_hero * list Alliance.t :=
  ([Linked (HeroData.mk "h1" 1 (Some "P") ["P"; "Q"]) [0; 1]%nat (Some 0%nat);
    Linked (HeroData.mk "H2" 2 None ["P"]) [0%nat] None;
    Linked (HeroData.mk "h3" 1 (Some EmptyString) ["Q"]) [1%nat] None],
   [P; Q]).

Definition hero_alliances (hero : Hero) : list Alliance.t :=
  if decide (hero = "h1") then [P; Q]
  else if decide (hero = "H2") then [P]
  else if decide (hero = "h3") then [Q]
  else [].
End LoaderExample.

(** ** Listing heroes *)

From Stdlib Require OrdersEx.
From stdpp Require pretty sorting.

Section display.
(** [hero.tier] *)
Variable tier : Hero → Z.

(** [hero_sort] *)
Definition hero_sort (hero : Hero) : Z * string := (tier hero, hero).

(** [k1 < k2] on the keys [hero_sort] returns: tuples compare item by
    item, the integers as numbers and the strings character by
    character. *)
Definition key_lt (k1 k2 : Z * string) : bool :=
  if decide (k1.1 = k2.1) then String.ltb k1.2 k2.2 else k1.1 <? k2.1.

(** [sorted(heroes, key=hero_sort)].  The sort is stable: of two heroes
    with the same key the one that came first stays first.  Here a hero
    is put before the first of the heroes after it whose key is not
    smaller. *)
Fixpoint insert_by_key (hero : Hero) (heroes : list Hero) : list Hero :=
  match heroes with
  | [] => [hero]
  | other :: heroes =>
      if key_lt (hero_sort other) (hero_sort hero)
      then other :: insert_by_key hero heroes
      else hero :: other :: heroes
  end.

Definition sorted_heroes (heroes : list Hero) : list Hero :=
  foldr insert_by_key [] heroes.

(** [_str_heroes] *)
Definition _str_heroes (heroes : list Hero) : string :=
  String.concat ", "
    (map (λ h, h +:+ "(" +:+ pretty.pretty (tier h) +:+ ")") (sorted_heroes heroes)).

(** The order of the listing: by tier, and by name within a tier. *)
Definition listed_before (h1 h2 : Hero) : Prop :=
  key_lt (hero_sort h2) (hero_sort h1) = false.
End display.

(** ** The texts of a team and of an alliance

    The [__str__] methods and [short_str].  A set of heroes is
    enumerated in the order [iter_set] before [sorted] sees it; [str] of
    an integer is its decimal numeral. *)

Definition newline : string := String (Ascii.ascii_of_nat 10) EmptyString.

Definition str_int (n : Z) : string := pretty.pretty n.

Section texts.
Variable tier : Hero → Z.
Variable iter_set : gset Hero → list Hero.

(** [Alliance.__str__].  [self.sizes] is the range of [Alliance_sizes];
    building it raises [ValueError] when [level] is 0. *)
Definition Alliance___str__ (self : Alliance.t) : option string :=
  sizes ← Alliance_sizes self;
  Some (Alliance.name self +:+ " ("
        +:+ String.concat "/" (map str_int sizes)
        +:+ ")"
        +:+ newline +:+ "  "
        +:+ Alliance.effect self
        +:+ newline +:+ "  Heroes:"
        +:+ String.concat EmptyString
              (map (λ hero, newline +:+ "    " +:+ hero
                            +:+ "(" +:+ str_int (tier hero) +:+ ")")
                   (sorted_heroes tier (iter_set (Alliance.heroes self))))).

(** [TeamAlliance.__str__] *)
Definition TeamAlliance___str__ (tas : TeamAlliances.t) (self : TeamAlliance.t)
    : string :=
  "  " +:+ Alliance.name (TeamAlliance.alliance self)
  +:+ " " +:+ str_int (TeamAlliance.level self)
  +:+ newline +:+ "    Team, " +:+ str_int (t_size tas self)
  +:+ " of " +:+ _str_heroes tier (iter_set (t_heroes tas self))
  +:+ newline +:+ "    Mixed, " +:+ str_int (m_size tas self)
  +:+ " of " +:+ _str_heroes tier (iter_set (m_heroes tas self))
  +:+ newline +:+ "    Alliance, " +:+ str_int (a_size tas self)
  +:+ " of " +:+ _str_heroes tier (iter_set (a_heroes tas self)).

(** [TeamAlliances.__str__] *)
Definition TeamAlliances___str__ (self : TeamAlliances.t) : string :=
  "  Team(" +:+ str_int (len (TeamAlliances.team self)) +:+ "): "
  +:+ _str_heroes tier (iter_set (TeamAlliances.team self)) +:+ newline
  +:+ "  Mixed(" +:+ str_int (len (TeamAlliances.mixed self)) +:+ "): "
  +:+ _str_heroes tier (iter_set (TeamAlliances.mixed self)) +:+ newline
  +:+ String.concat newline
        (map (TeamAlliance___str__ self) (TeamAlliances.items self)).

(** [Team.__str__] *)
Definition Team___str__ (self : Team.t) : string :=
  "Team(" +:+ str_int (Team.size self) +:+ ","
  +:+ str_int (TeamAlliances_size (Team.alliances self)) +:+ "):" +:+ newline
  +:+ TeamAlliances___str__ (Team.alliances self).

(** [short_str] *)
Definition short_str (team : Team.t) : string :=
  let al := Team.alliances team in
  "Team(" +:+ str_int (Team.size team) +:+ ","
  +:+ str_int (TeamAlliances_size al) +:+ "):" +:+ newline
  +:+ "  Team(" +:+ str_int (len (TeamAlliances.team al)) +:+ "): "
  +:+ _str_heroes tier (iter_set (TeamAlliances.team al)) +:+ newline
  +:+ "  Mixed(" +:+ str_int (len (TeamAlliances.mixed al)) +:+ "): "
  +:+ _str_heroes tier (iter_set (TeamAlliances.mixed al)) +:+ newline
  +:+ String.concat "  "
        (map (λ ta, "  " +:+ Alliance.name (TeamAlliance.alliance ta)
                    +:+ " " +:+ str_int (TeamAlliance.level ta))
             (TeamAlliances.items al)).
End texts.

(** ** The candidate levels of a call *)

(** The levels [add] and [add_max] hand to [_add]. *)
Definition call_levels (c : call) : list Z :=
  match c with
  | call_add alliance level =>
      [Z.min level (Alliance.total alliance `div` Alliance.level alliance)]
  | call_add_max alliance =>
      range_down (Alliance.total alliance `div` Alliance.level alliance)
  | call_add_hero _ => []
  end.

(** ** A universe with a hero that lists an alliance twice

    One alliance with the members h1 and h2; the data of h1 names the
    alliance twice, so that [hero.alliances] holds it twice. *)
Module DoubleListing.
Definition P : Alliance.t :=
  Alliance.mk "P" 1 3 "effect of P" (list_to_set ["h1"; "h2"]).

Definition hero_alliances (hero : Hero) : list Alliance.t :=
  if decide (hero = "h1") then [P; P]
  else if decide (hero = "h2") then [P]
  else [].

Definition run (c : call) (self : Team.t) : outcome :=
  run hero_alliances Examples.iter_set c self.

(** The data [load] builds this universe from. *)
Definition heroes : list HeroData.t :=
  [HeroData.mk "h1" 1 None ["P"; "P"]; HeroData.mk "h2" 1 None ["P"]].
Definition alliances : list Alliance.t :=
  [Alliance.mk "P" 1 3 "effect of P" ∅].
End DoubleListing.

(** ** More teams of the small universe *)

(** [Team(limit=3).add(P, 3)]: the three members of P fill the team. *)
Definition team_P3_full : Team.t :=
  (Examples.run (call_add Examples.P 3) (Team_init 3)).1.

(** [Team(limit=10).add(P, 1).add(Q, 1)]: the three heroes P and Q share
    are in [mixed]. *)
Definition team_P1_Q1 : Team.t :=
  (Examples.run (call_add Examples.Q 1) Examples.team_P1).1.
(** ** Basic facts about the dictionary *)

Section dict_facts.
Implicit Types (tas : TeamAlliances.t) (ta : TeamAlliance.t)
  (l : list TeamAlliance.t) (alliance : Alliance.t).

Lemma find_item_None alliance l :
  find_item alliance l = None ↔ alliance ∉ map TeamAlliance.alliance l.
Proof.
  induction l as [|ta l IH]; simpl.
  - split; [intros _; apply not_elem_of_nil | done].
  - destruct (decide (TeamAlliance.alliance ta = alliance)) as [->|Hne].
    + split; [done | intros []; apply elem_of_cons; by left].
    + rewrite IH, not_elem_of_cons. naive_solver.
Qed.

Lemma find_item_Some alliance l ta :
  find_item alliance l = Some ta →
  ta ∈ l ∧ TeamAlliance.alliance ta = alliance.
Proof.
  induction l as [|ta' l IH]; simpl; [done|].
  destruct (decide (TeamAlliance.alliance ta' = alliance)) as [Heq|Hne].
  - intros [= ->]. split; [apply elem_of_cons; by left | done].
  - intros H. destruct (IH H) as [Hin Hk].
    split; [apply elem_of_cons; by right | done].
Qed.

Lemma set_item_absent new l :
  TeamAlliance.alliance new ∉ map TeamAlliance.alliance l →
  set_item new l = l ++ [new].
Proof.
  induction l as [|ta l IH]; simpl; [done|].
  rewrite not_elem_of_cons. intros [Hne Hl].
  destruct (decide _) as [Heq|_]; [done|]. by rewrite IH.
Qed.

Lemma set_item_keys new l k :
  k ∈ map TeamAlliance.alliance (set_item new l)
  ↔ k = TeamAlliance.alliance new ∨ k ∈ map TeamAlliance.alliance l.
Proof.
  induction l as [|ta l IH]; simpl.
  - rewrite list_elem_of_singleton. split; [by left|].
    intros [?|H]; [done | by apply not_elem_of_nil in H].
  - destruct (decide _) as [Heq|Hne]; simpl; rewrite !elem_of_cons.
    + rewrite Heq. naive_solver.
    + rewrite IH. naive_solver.
Qed.

Lemma set_item_NoDup new l :
  NoDup (map TeamAlliance.alliance l) →
  NoDup (map TeamAlliance.alliance (set_item new l)).
Proof.
  induction l as [|ta l IH]; simpl.
  - intros _. apply NoDup_singleton.
  - rewrite NoDup_cons. intros [Hni Hnd].
    destruct (decide _) as [Heq|Hne]; simpl; rewrite NoDup_cons.
    + by rewrite <- Heq.
    + split; [|by apply IH].
      rewrite set_item_keys. naive_solver.
Qed.

Lemma find_set_item new l alliance :
  find_item alliance (set_item new l)
  = if decide (TeamAlliance.alliance new = alliance) then Some new
    else find_item alliance l.
Proof.
  induction l as [|ta l IH]; simpl.
  - by destruct (decide _).
  - destruct (decide (TeamAlliance.alliance ta = TeamAlliance.alliance new))
      as [Heq|Hne]; simpl.
    + destruct (decide (TeamAlliance.alliance new = alliance)) as [<-|Hne'];
        [done|].
      destruct (decide (TeamAlliance.alliance ta = alliance)); congruence.
    + rewrite IH.
      destruct (decide (TeamAlliance.alliance ta = alliance)) as [<-|];
        [|done].
      destruct (decide (TeamAlliance.alliance new = TeamAlliance.alliance ta));
        congruence.
Qed.

(** [TeamAlliances.copy] returns an equal value: the dictionary has one
    entry per key. *)
Lemma copy_loop_id l0 l team mixed :
  NoDup (map TeamAlliance.alliance (l0 ++ l)) →
  foldl (λ new value,
           with_items new
             (set_item (TeamAlliance_copy value) (TeamAlliances.items new)))
        (TeamAlliances.mk l0 team mixed) l
  = TeamAlliances.mk (l0 ++ l) team mixed.
Proof.
  revert l0. induction l as [|ta l IH]; intros l0 Hnd; simpl.
  - by rewrite app_nil_r.
  - unfold with_items at 2; simpl.
    rewrite set_item_absent.
    + replace (TeamAlliance_copy ta) with ta by by destruct ta.
      rewrite IH; rewrite <- app_assoc; [done|by simpl].
    + simpl. rewrite map_app in Hnd. apply NoDup_app in Hnd as (_ & Hd & _).
      intros Hin. apply (Hd _ Hin). simpl. apply elem_of_cons. by left.
Qed.

Lemma TeamAlliances_copy_id tas :
  NoDup (keys tas) → TeamAlliances_copy tas = tas.
Proof.
  intros Hnd. unfold TeamAlliances_copy.
  rewrite copy_loop_id; [by destruct tas | done].
Qed.

Lemma getitem_keys tas alliance k :
  k ∈ keys (fst (getitem tas alliance)) ↔ k = alliance ∨ k ∈ keys tas.
Proof.
  unfold getitem, keys.
  destruct (find_item alliance (TeamAlliances.items tas)) as [ta|] eqn:Hf;
    simpl.
  - apply find_item_Some in Hf as [Hin <-].
    split; [by right|]. intros [->|]; [|done].
    by apply list_elem_of_fmap_2.
  - by rewrite set_item_keys.
Qed.

Lemma getitem_NoDup tas alliance :
  NoDup (keys tas) → NoDup (keys (fst (getitem tas alliance))).
Proof.
  unfold getitem, keys.
  destruct (find_item alliance (TeamAlliances.items tas)); simpl; [done|].
  apply set_item_NoDup.
Qed.

Lemma getitem_sets tas alliance :
  TeamAlliances.team (fst (getitem tas alliance)) = TeamAlliances.team tas
  ∧ TeamAlliances.mixed (fst (getitem tas alliance)) = TeamAlliances.mixed tas.
Proof.
  unfold getitem. by destruct (find_item alliance (TeamAlliances.items tas)).
Qed.

Lemma getitem_stored_level tas alliance k :
  stored_level (fst (getitem tas alliance)) k = stored_level tas k.
Proof.
  unfold getitem, stored_level.
  destruct (find_item alliance (TeamAlliances.items tas)) eqn:Hf; simpl;
    [done|].
  rewrite find_set_item. simpl.
  destruct (decide (alliance = k)) as [<-|]; [by rewrite Hf | done].
Qed.
End dict_facts.

(** ** How the passes end *)

Section pass_facts.
Variable hero_alliances : Hero → list Alliance.t.
Variable iter_set : gset Hero → list Hero.

(** The post-check either leaves [self] alone or restores the snapshot
    and raises the composition error. *)
Lemma _post_check_loop_cases self prev_tas values :
  _post_check_loop self prev_tas values = (self, None)
  ∨ _post_check_loop self prev_tas values
    = (with_alliances self prev_tas, Some (ValueError Composition)).
Proof.
  induction values as [|ta values IH]; simpl; [by left|].
  repeat case_match; auto.
Qed.

Lemma _post_check_cases self prev_tas :
  _post_check self prev_tas = (self, None)
  ∨ _post_check self prev_tas
    = (with_alliances self prev_tas, Some (ValueError Composition)).
Proof. apply _post_check_loop_cases. Qed.

(** The convergence pass raises nothing but the division by zero of
    [len(heroes) // alliance.level]. *)
Lemma _post_add_alliance_loop_raises self alliances self' e :
  _post_add_alliance_loop self alliances = (self', Some e) →
  e = ZeroDivisionError.
Proof.
  revert self. induction alliances as [|[alliance heroes] alliances IH];
    intros self; simpl; [done|].
  repeat case_match; try (intros [= _ <-]; done); apply IH.
Qed.

Lemma _post_add_raises self self' e :
  _post_add hero_alliances iter_set self = (self', Some e) →
  e = ZeroDivisionError.
Proof. apply _post_add_alliance_loop_raises. Qed.

(** A failed [_add] leaves the container as the read of the alliance
    left it; nothing else of it changes. *)
Lemma _add_failed self alliance levels self' kind :
  NoDup (keys (Team.alliances self)) →
  _add hero_alliances iter_set self alliance levels
    = (self', Some (ValueError kind)) →
  Team.alliances self' = fst (getitem (Team.alliances self) alliance)
  ∧ Team.limit self' = Team.limit self.
Proof.
  intros Hnd. unfold _add.
  pose proof (getitem_NoDup _ alliance Hnd) as Hnd'.
  destruct (reservation _ _) as [reserved team].
  destruct (getitem (Team.alliances self) alliance) as [tas ta]; simpl in *.
  destruct (level_search _ _ _ _ _ _ _) as [size level].
  case_match; [by intros [= <- _]|].
  destruct level as [level|]; [|done].
  rewrite (TeamAlliances_copy_id tas Hnd').
  case_match; [by intros [= <- _]|].
  match goal with |- context [_post_check ?s ?p] =>
    destruct (_post_check_cases s p) as [-> | ->] end.
  - intros Hraise. by apply _post_add_raises in Hraise.
  - by intros [= <- _].
Qed.

Lemma _add_hero_failed self hero self' kind :
  NoDup (keys (Team.alliances self)) →
  _add_hero hero_alliances iter_set self hero
    = (self', Some (ValueError kind)) →
  self' = self.
Proof.
  intros Hnd. unfold _add_hero.
  case_match; [by intros [= <- _]|].
  rewrite (TeamAlliances_copy_id _ Hnd).
  match goal with |- context [_post_check ?s ?p] =>
    destruct (_post_check_cases s p) as [-> | ->] end.
  - intros Hraise. by apply _post_add_raises in Hraise.
  - intros [= <- _]. by destruct self.
Qed.
End pass_facts.

(** ** Sizes *)

Section size_facts.
Implicit Types (tas : TeamAlliances.t) (ta : TeamAlliance.t)
  (l : list TeamAlliance.t) (s : gset Hero).

Lemma len_nonneg s : 0 ≤ len s.
Proof. unfold len. lia. Qed.

Lemma len_empty_iff s : len s ≤ 0 ↔ s = ∅.
Proof.
  unfold len. split.
  - intros H. apply leibniz_equiv, size_empty_iff. lia.
  - intros ->. by rewrite size_empty.
Qed.

Lemma len_mono s1 s2 : s1 ⊆ s2 → len s1 ≤ len s2.
Proof. intros H. unfold len. apply inj_le. by apply subseteq_size. Qed.

Lemma len_union_disjoint s1 s2 : s1 ## s2 → len (s1 ∪ s2) = len s1 + len s2.
Proof. intros H. unfold len. rewrite size_union by done. lia. Qed.

Lemma len_union_le s1 s2 : len (s1 ∪ s2) ≤ len s1 + len s2.
Proof.
  unfold len. pose proof (size_union_alt s1 s2) as H.
  pose proof (subseteq_size (s2 ∖ s1) s2 ltac:(set_solver)). lia.
Qed.

Lemma len_difference s1 s2 : s2 ⊆ s1 → len (s1 ∖ s2) = len s1 - len s2.
Proof. intros H. unfold len. rewrite size_difference by done.
  pose proof (subseteq_size _ _ H). lia. Qed.

(** The outstanding size is never negative: the clamp [max(0, a_size)]
    of [TeamAlliances.size] is the identity. *)
Lemma a_size_nonneg tas ta : 0 ≤ a_size tas ta.
Proof. unfold a_size, p_size. lia. Qed.

Lemma m_size_nonneg tas ta : 0 ≤ m_size tas ta.
Proof.
  unfold m_size, p_size, t_size.
  assert (len (t_heroes tas ta) ≤ len (p_heroes tas ta)).
  { apply len_mono. unfold t_heroes, p_heroes, pool. set_solver. }
  lia.
Qed.

(** The derived quantities of an entry see the container only through
    its sets. *)
Lemma a_size_with_items tas l ta : a_size (with_items tas l) ta = a_size tas ta.
Proof. done. Qed.

Lemma a_size_pool tas tas' ta :
  pool tas = pool tas' → a_size tas' ta = a_size tas ta.
Proof. intros H. unfold a_size, p_size, p_heroes. by rewrite H. Qed.

Lemma a_heroes_pool tas tas' ta :
  pool tas = pool tas' → a_heroes tas' ta = a_heroes tas ta.
Proof. intros H. unfold a_heroes. by rewrite H. Qed.

(** A larger pool never raises what a faction still needs. *)
Lemma a_size_antitone tas tas' ta :
  pool tas ⊆ pool tas' → a_size tas' ta ≤ a_size tas ta.
Proof.
  intros H. unfold a_size, p_size.
  assert (len (p_heroes tas ta) ≤ len (p_heroes tas' ta)).
  { apply len_mono. unfold p_heroes. set_solver. }
  lia.
Qed.

Lemma sum_app (l1 l2 : list Z) : sum (l1 ++ l2) = sum l1 + sum l2.
Proof. induction l1; simpl; lia. Qed.

Lemma sum_map_le {A} (f g : A → Z) (l : list A) :
  (∀ x, x ∈ l → f x ≤ g x) → sum (map f l) ≤ sum (map g l).
Proof.
  induction l as [|x l IH]; simpl; [done|]. intros H.
  pose proof (H x ltac:(apply elem_of_cons; by left)).
  assert (sum (map f l) ≤ sum (map g l)).
  { apply IH. intros y Hy. apply H, elem_of_cons. by right. }
  lia.
Qed.

Lemma sum_map_ext {A} (f g : A → Z) (l : list A) :
  (∀ x, x ∈ l → f x = g x) → sum (map f l) = sum (map g l).
Proof.
  intros H. apply Z.le_antisymm; apply sum_map_le; intros x Hx;
    rewrite (H x Hx); lia.
Qed.

Lemma TeamAlliances_size_eq tas :
  TeamAlliances_size tas
  = len (TeamAlliances.team tas) + len (TeamAlliances.mixed tas)
    + outstanding tas (TeamAlliances.items tas).
Proof. done. Qed.

Lemma outstanding_nonneg tas l : 0 ≤ outstanding tas l.
Proof. unfold outstanding. induction l; simpl; lia. Qed.

(** Storing an entry that needs nothing under some key does not raise
    the sum, whether the key is new or not. *)
Lemma outstanding_set_item tas new l :
  a_size tas new = 0 →
  outstanding tas (set_item new l) ≤ outstanding tas l.
Proof.
  intros Hnew. unfold outstanding.
  induction l as [|ta l IH]; simpl; [lia|].
  destruct (decide _); simpl.
  - pose proof (a_size_nonneg tas ta). lia.
  - lia.
Qed.

Lemma outstanding_set_item_absent tas new l :
  a_size tas new = 0 →
  TeamAlliance.alliance new ∉ map TeamAlliance.alliance l →
  outstanding tas (set_item new l) = outstanding tas l.
Proof.
  intros Hnew Hni. rewrite set_item_absent by done.
  unfold outstanding. rewrite map_app, sum_app. simpl. lia.
Qed.

Lemma a_size_from_empty tas alliance : a_size tas (from_empty alliance) = 0.
Proof.
  unfold a_size, p_size, total_size, from_empty. simpl.
  pose proof (len_nonneg (p_heroes tas (TeamAlliance.mk alliance 0))). lia.
Qed.

(** Reading a missing faction inserts a level-0 entry, which costs
    nothing. *)
Lemma getitem_size tas alliance :
  TeamAlliances_size (fst (getitem tas alliance)) = TeamAlliances_size tas.
Proof.
  unfold getitem.
  destruct (find_item alliance (TeamAlliances.items tas)) eqn:Hf; [done|].
  simpl. rewrite !TeamAlliances_size_eq. simpl.
  change (outstanding (with_items tas ?l) ?l') with (outstanding tas l').
  rewrite outstanding_set_item_absent; [done|apply a_size_from_empty|].
  by apply find_item_None.
Qed.

Lemma getitem_pool tas alliance : pool (fst (getitem tas alliance)) = pool tas.
Proof. unfold getitem. by destruct (find_item _ _). Qed.

Lemma getitem_found tas alliance :
  find_item alliance (TeamAlliances.items (fst (getitem tas alliance)))
  = Some (snd (getitem tas alliance))
  ∧ TeamAlliance.alliance (snd (getitem tas alliance)) = alliance.
Proof.
  unfold getitem.
  destruct (find_item alliance (TeamAlliances.items tas)) eqn:Hf; simpl.
  - split; [done|]. by apply find_item_Some in Hf as [_ ?].
  - rewrite find_set_item. simpl. by rewrite decide_True.
Qed.
End size_facts.

(** ** The promotion loops *)

Section promote_facts.
Implicit Types (tas : TeamAlliances.t) (ta : TeamAlliance.t)
  (l : list TeamAlliance.t) (s : gset Hero).

Lemma elem_of_promote_acc (q : TeamAlliance.t → bool)
    (f : TeamAlliance.t → gset Hero) l (acc : gset Hero) h :
  h ∈ foldl (λ team ta, if q ta then team ∪ f ta else team) acc l
  ↔ h ∈ acc ∨ ∃ ta, ta ∈ l ∧ q ta = true ∧ h ∈ f ta.
Proof.
  revert acc. induction l as [|ta l IH]; intros acc; simpl.
  - split; [by left|]. intros [?|(ta & Hin & _)]; [done|].
    by apply not_elem_of_nil in Hin.
  - rewrite IH. split.
    + intros [Hacc|(ta' & Hin & Hq & Hh)].
      * destruct (q ta) eqn:Hq; [|by left].
        apply elem_of_union in Hacc as [?|?]; [by left|].
        right. exists ta. split; [apply elem_of_cons; by left | done].
      * right. exists ta'. split; [apply elem_of_cons; by right | done].
    + intros [Hacc|(ta' & Hin & Hq & Hh)].
      * left. destruct (q ta); [set_solver | done].
      * apply elem_of_cons in Hin as [->|Hin].
        -- left. rewrite Hq. set_solver.
        -- right. by exists ta'.
Qed.

Lemma elem_of_promote q f l h :
  h ∈ promote q f l ↔ ∃ ta, ta ∈ l ∧ q ta = true ∧ h ∈ f ta.
Proof.
  unfold promote. rewrite elem_of_promote_acc. set_solver.
Qed.

Lemma len_promote_acc (q : TeamAlliance.t → bool)
    (f : TeamAlliance.t → gset Hero) l (acc : gset Hero) :
  len (foldl (λ team ta, if q ta then team ∪ f ta else team) acc l)
  ≤ len acc + sum (map (λ ta, if q ta then len (f ta) else 0) l).
Proof.
  revert acc. induction l as [|ta l IH]; intros acc; simpl; [lia|].
  etrans; [apply IH|]. destruct (q ta); [|lia].
  pose proof (len_union_le acc (f ta)). lia.
Qed.

Lemma len_promote q f l :
  len (promote q f l) ≤ sum (map (λ ta, if q ta then len (f ta) else 0) l).
Proof.
  unfold promote. etrans; [apply len_promote_acc|].
  unfold len at 1. rewrite size_empty. lia.
Qed.

Lemma sum_map_add {A} (f g : A → Z) (l : list A) :
  sum (map (λ x, f x + g x) l) = sum (map f l) + sum (map g l).
Proof. induction l; simpl; lia. Qed.

(** *** [_post_add_mixed] *)

Lemma _post_add_mixed_alliances self :
  Team.alliances (_post_add_mixed self)
  = with_mixed (Team.alliances self)
      (TeamAlliances.mixed (Team.alliances self)
       ∪ mixed_promotion (Team.alliances self)).
Proof. done. Qed.

Lemma mixed_promotion_outside tas : mixed_promotion tas ## pool tas.
Proof.
  intros h Hm Hp. apply elem_of_promote in Hm as (ta & _ & _ & Ha).
  unfold a_heroes in Ha. set_solver.
Qed.

Lemma mixed_promotion_heroes tas h :
  h ∈ mixed_promotion tas →
  ∃ ta, ta ∈ TeamAlliances.items tas
        ∧ h ∈ Alliance.heroes (TeamAlliance.alliance ta).
Proof.
  intros Hm. apply elem_of_promote in Hm as (ta & Hin & _ & Ha).
  exists ta. split; [done|]. unfold a_heroes in Ha. set_solver.
Qed.

(** One entry across [_post_add_mixed]: what it still needs goes down by
    at least the heroes it had promoted. *)
Lemma mixed_promotion_entry tas ta :
  ta ∈ TeamAlliances.items tas →
  let tas' := with_mixed tas (TeamAlliances.mixed tas ∪ mixed_promotion tas) in
  a_size tas' ta
  + (if len (a_heroes tas ta) <=? a_size tas ta
     then len (a_heroes tas ta) else 0)
  ≤ a_size tas ta.
Proof.
  intros Hin tas'.
  assert (Hpool : pool tas ⊆ pool tas') by (unfold pool; set_solver).
  destruct (len (a_heroes tas ta) <=? a_size tas ta) eqn:Hq.
  - apply Z.leb_le in Hq.
    assert (Hsub : p_heroes tas ta ∪ a_heroes tas ta ⊆ p_heroes tas' ta).
    { intros h Hh. apply elem_of_union in Hh as [Hh|Hh].
      - unfold p_heroes in *. set_solver.
      - unfold p_heroes. apply elem_of_intersection. split.
        + unfold a_heroes in Hh. set_solver.
        + unfold pool. simpl. apply elem_of_union_r, elem_of_union_r.
          apply elem_of_promote. exists ta. split; [done|].
          split; [by apply Z.leb_le | done]. }
    apply len_mono in Hsub.
    rewrite len_union_disjoint in Hsub
      by (unfold p_heroes, a_heroes; set_solver).
    pose proof (len_nonneg (a_heroes tas ta)).
    pose proof (len_nonneg (p_heroes tas ta)).
    unfold a_size, p_size in *. lia.
  - pose proof (a_size_antitone tas tas' ta Hpool). lia.
Qed.

Lemma _post_add_mixed_size self :
  TeamAlliances_size (Team.alliances (_post_add_mixed self))
  ≤ TeamAlliances_size (Team.alliances self).
Proof.
  rewrite _post_add_mixed_alliances.
  set (tas := Team.alliances self).
  set (tas' := with_mixed tas _).
  rewrite !TeamAlliances_size_eq. simpl.
  pose proof (len_union_le (TeamAlliances.mixed tas) (mixed_promotion tas)).
  pose proof (len_promote
    (λ ta, len (a_heroes tas ta) <=? a_size tas ta) (a_heroes tas)
    (TeamAlliances.items tas)) as Hlen.
  fold (mixed_promotion tas) in Hlen. cbv beta in Hlen.
  assert (outstanding tas' (TeamAlliances.items tas)
          + sum (map (λ ta, if len (a_heroes tas ta) <=? a_size tas ta
                            then len (a_heroes tas ta) else 0)
                     (TeamAlliances.items tas))
          ≤ outstanding tas (TeamAlliances.items tas)) as Hsum.
  { unfold outstanding. rewrite <- sum_map_add. apply sum_map_le.
    intros ta Hin. pose proof (mixed_promotion_entry tas ta Hin) as He.
    simpl in He. fold tas' in He.
    pose proof (a_size_nonneg tas ta). pose proof (a_size_nonneg tas' ta).
    lia. }
  lia.
Qed.

(** After [_post_add_mixed] no entry qualifies with heroes left to
    promote. *)
Lemma _post_add_mixed_stable self ta :
  ta ∈ TeamAlliances.items (Team.alliances self) →
  mixed_stable (Team.alliances (_post_add_mixed self)) ta.
Proof.
  intros Hin. rewrite _post_add_mixed_alliances.
  set (tas := Team.alliances self). set (tas' := with_mixed tas _).
  intros Hq.
  destruct (len (a_heroes tas ta) <=? a_size tas ta) eqn:Hq0.
  - apply elem_of_equiv_empty_L. intros h Hh.
    unfold a_heroes in Hh.
    apply elem_of_difference in Hh as [Hh Hp]. apply Hp.
    unfold pool, tas'. simpl. apply elem_of_union_r, elem_of_union_r.
    apply elem_of_promote. exists ta. split; [done|]. split; [done|].
    unfold a_heroes. apply elem_of_difference. split; [done|].
    intros Hp'. apply Hp. unfold pool, tas' in *. simpl. set_solver.
  - apply Z.leb_gt in Hq0.
    apply len_empty_iff.
    (* the heroes that left [a_heroes] entered [p_heroes] *)
    assert (Hsplit : a_heroes tas ta
                     = a_heroes tas' ta
                       ∪ (a_heroes tas ta ∩ mixed_promotion tas)).
    { apply set_eq. intros h. unfold a_heroes, pool, tas'. simpl.
      destruct (decide (h ∈ mixed_promotion tas)); set_solver. }
    assert (Hp : p_heroes tas' ta
                 = p_heroes tas ta ∪ (a_heroes tas ta ∩ mixed_promotion tas)).
    { apply set_eq. intros h. unfold p_heroes, a_heroes, pool, tas'. simpl.
      pose proof (mixed_promotion_outside tas) as Hout. unfold pool in Hout.
      destruct (decide (h ∈ mixed_promotion tas)); set_solver. }
    apply (f_equal len) in Hsplit, Hp.
    rewrite len_union_disjoint in Hsplit
      by (unfold a_heroes, pool, tas'; simpl; set_solver).
    rewrite len_union_disjoint in Hp
      by (unfold p_heroes, a_heroes; set_solver).
    pose proof (len_nonneg (a_heroes tas ta ∩ mixed_promotion tas)).
    pose proof (len_nonneg (a_heroes tas' ta)).
    pose proof (len_nonneg (p_heroes tas ta)).
    unfold a_size, p_size in *. lia.
Qed.

(** *** [_post_add_team] *)

Lemma _post_add_team_alliances self :
  Team.alliances (_post_add_team self)
  = with_mixed
      (with_team (Team.alliances self)
         (TeamAlliances.team (Team.alliances self)
          ∪ team_promotion (Team.alliances self)))
      (TeamAlliances.mixed (Team.alliances self)
       ∖ team_promotion (Team.alliances self)).
Proof. done. Qed.

Lemma team_promotion_mixed tas : team_promotion tas ⊆ TeamAlliances.mixed tas.
Proof.
  intros h Hm. apply elem_of_promote in Hm as (ta & _ & _ & Ha).
  unfold m_heroes in Ha. set_solver.
Qed.

Lemma _post_add_team_pool self :
  pool (Team.alliances (_post_add_team self)) = pool (Team.alliances self).
Proof.
  rewrite _post_add_team_alliances. unfold pool. simpl.
  pose proof (team_promotion_mixed (Team.alliances self)).
  apply set_eq. intros h.
  destruct (decide (h ∈ team_promotion (Team.alliances self))); set_solver.
Qed.

Lemma _post_add_team_disjoint self :
  TeamAlliances.team (Team.alliances self)
    ## TeamAlliances.mixed (Team.alliances self) →
  TeamAlliances.team (Team.alliances (_post_add_team self))
    ## TeamAlliances.mixed (Team.alliances (_post_add_team self)).
Proof. rewrite _post_add_team_alliances. simpl. set_solver. Qed.

Lemma _post_add_team_size self :
  TeamAlliances_size (Team.alliances (_post_add_team self))
  ≤ TeamAlliances_size (Team.alliances self).
Proof.
  pose proof (_post_add_team_pool self) as Hpool.
  rewrite _post_add_team_alliances in *.
  set (tas := Team.alliances self) in *. set (tas' := with_mixed _ _) in *.
  rewrite !TeamAlliances_size_eq. simpl.
  pose proof (team_promotion_mixed tas) as Hsub.
  pose proof (len_union_le (TeamAlliances.team tas) (team_promotion tas)).
  rewrite (len_difference _ _ Hsub).
  assert (outstanding tas' (TeamAlliances.items tas)
          = outstanding tas (TeamAlliances.items tas)) as ->.
  { unfold outstanding. apply sum_map_ext. intros ta _.
    by rewrite (a_size_pool tas tas'). }
  lia.
Qed.

Lemma _post_add_team_mixed_stable self ta :
  mixed_stable (Team.alliances self) ta →
  mixed_stable (Team.alliances (_post_add_team self)) ta.
Proof.
  pose proof (eq_sym (_post_add_team_pool self)) as Hpool.
  unfold mixed_stable.
  by rewrite (a_size_pool _ _ ta Hpool), (a_heroes_pool _ _ ta Hpool).
Qed.

(** After [_post_add_team], on a container whose two sets were disjoint,
    no entry qualifies with heroes left to move. *)
Lemma _post_add_team_stable self ta :
  TeamAlliances.team (Team.alliances self)
    ## TeamAlliances.mixed (Team.alliances self) →
  ta ∈ TeamAlliances.items (Team.alliances self) →
  team_stable (Team.alliances (_post_add_team self)) ta.
Proof.
  intros Hdisj Hin.
  pose proof (_post_add_team_pool self) as Hpool.
  rewrite _post_add_team_alliances in *.
  set (tas := Team.alliances self) in *. set (tas' := with_mixed _ _) in *.
  pose proof (team_promotion_mixed tas) as Hsub.
  intros Hq.
  destruct (len (m_heroes tas ta) <=? m_size tas ta) eqn:Hq0.
  - apply elem_of_equiv_empty_L. intros h Hh.
    unfold m_heroes, tas' in Hh. simpl in Hh.
    apply elem_of_intersection in Hh as [Hh Hm].
    apply elem_of_difference in Hm as [Hm Hn]. apply Hn.
    apply elem_of_promote. exists ta. split; [done|]. split; [done|].
    unfold m_heroes. set_solver.
  - apply Z.leb_gt in Hq0. apply len_empty_iff.
    assert (Hm : m_heroes tas ta
                 = m_heroes tas' ta ∪ (m_heroes tas ta ∩ team_promotion tas)).
    { apply set_eq. intros h. unfold m_heroes, tas'. simpl.
      destruct (decide (h ∈ team_promotion tas)); set_solver. }
    assert (Ht : t_heroes tas' ta
                 = t_heroes tas ta ∪ (m_heroes tas ta ∩ team_promotion tas)).
    { apply set_eq. intros h. unfold t_heroes, m_heroes, tas'. simpl.
      set_solver. }
    assert (Hp : p_heroes tas ta = t_heroes tas ta ∪ m_heroes tas ta).
    { unfold p_heroes, t_heroes, m_heroes, pool. set_solver. }
    assert (Hp' : p_heroes tas' ta = p_heroes tas ta).
    { unfold p_heroes. by rewrite Hpool. }
    apply (f_equal len) in Hm, Ht, Hp, Hp'.
    rewrite len_union_disjoint in Hm
      by (unfold m_heroes, tas'; simpl; set_solver).
    rewrite len_union_disjoint in Ht
      by (unfold t_heroes, m_heroes; set_solver).
    rewrite len_union_disjoint in Hp
      by (unfold t_heroes, m_heroes; set_solver).
    pose proof (len_nonneg (m_heroes tas ta ∩ team_promotion tas)).
    pose proof (len_nonneg (m_heroes tas' ta)).
    pose proof (len_nonneg (t_heroes tas ta)).
    unfold m_size, p_size, t_size in *. lia.
Qed.
End promote_facts.

(** ** Recomputing the levels *)

Section raise_level_facts.
Implicit Types (tas : TeamAlliances.t) (ta : TeamAlliance.t)
  (l : list TeamAlliance.t) (alliance : Alliance.t).

Lemma elem_of_set_item new l ta : ta ∈ set_item new l → ta = new ∨ ta ∈ l.
Proof.
  induction l as [|ta' l IH]; simpl.
  - rewrite list_elem_of_singleton. by left.
  - destruct (decide _); rewrite !elem_of_cons; naive_solver.
Qed.

Lemma raise_level_team tas alliance level :
  TeamAlliances.team (raise_level tas alliance level) = TeamAlliances.team tas.
Proof.
  unfold raise_level, getitem.
  destruct (find_item _ _); simpl; by destruct (_ >? _).
Qed.

Lemma raise_level_mixed tas alliance level :
  TeamAlliances.mixed (raise_level tas alliance level)
  = TeamAlliances.mixed tas.
Proof.
  unfold raise_level, getitem.
  destruct (find_item _ _); simpl; by destruct (_ >? _).
Qed.

Lemma raise_level_pool tas alliance level :
  pool (raise_level tas alliance level) = pool tas.
Proof. unfold pool. by rewrite raise_level_team, raise_level_mixed. Qed.

(** The entries after the step: the old ones, and under the key of the
    alliance either the level-0 entry of the read or the raised one. *)
Lemma raise_level_items tas alliance level ta :
  ta ∈ TeamAlliances.items (raise_level tas alliance level) →
  ta ∈ TeamAlliances.items tas
  ∨ ta = from_empty alliance
  ∨ ta = TeamAlliance.mk alliance level.
Proof.
  unfold raise_level.
  pose proof (getitem_found tas alliance) as [_ Hk].
  unfold getitem in *.
  destruct (find_item alliance (TeamAlliances.items tas)) as [ta0|] eqn:Hf;
    simpl in *.
  - destruct (_ >? _); simpl; [|by left].
    intros Hin. apply elem_of_set_item in Hin as [->|Hin]; [|by left].
    right; right. by rewrite Hk.
  - destruct (_ >? _); simpl; intros Hin.
    + apply elem_of_set_item in Hin as [->|Hin]; [by right; right|].
      apply elem_of_set_item in Hin as [->|Hin]; [by right; left | by left].
    + apply elem_of_set_item in Hin as [->|Hin]; [by right; left | by left].
Qed.

Lemma raise_level_keys tas alliance level k :
  k ∈ keys (raise_level tas alliance level) ↔ k = alliance ∨ k ∈ keys tas.
Proof.
  unfold raise_level.
  pose proof (getitem_keys tas alliance k) as Hkeys.
  pose proof (getitem_found tas alliance) as [_ Hk].
  destruct (getitem tas alliance) as [tas1 ta1]; simpl in *.
  destruct (_ >? _); [|done].
  unfold keys, set_level in *. simpl. rewrite set_item_keys. simpl.
  rewrite Hk. naive_solver.
Qed.

Lemma raise_level_stored tas alliance level k :
  stored_level (raise_level tas alliance level) k
  = if decide (k = alliance) then Z.max (stored_level tas alliance) level
    else stored_level tas k.
Proof.
  unfold raise_level.
  pose proof (getitem_stored_level tas alliance) as Hst.
  pose proof (getitem_found tas alliance) as [Hf Hk].
  destruct (getitem tas alliance) as [tas1 ta1]; simpl in *.
  assert (Hcur : stored_level tas alliance = TeamAlliance.level ta1).
  { rewrite <- Hst. unfold stored_level. by rewrite Hf. }
  destruct (level >? TeamAlliance.level ta1) eqn:Hgt;
    rewrite Z.gtb_ltb in Hgt;
    [apply Z.ltb_lt in Hgt | apply Z.ltb_ge in Hgt].
  - unfold stored_level at 1. unfold set_level. simpl.
    rewrite find_set_item. simpl.
    rewrite Hk. destruct (decide (alliance = k)) as [<-|Hne].
    + rewrite decide_True by done. simpl. lia.
    + rewrite decide_False by done. apply Hst.
  - destruct (decide (k = alliance)) as [->|Hne]; [|apply Hst].
    rewrite Hst. lia.
Qed.

Lemma raise_level_found tas alliance level :
  ∃ ta, find_item alliance (TeamAlliances.items (raise_level tas alliance level))
        = Some ta
        ∧ level ≤ TeamAlliance.level ta.
Proof.
  unfold raise_level.
  pose proof (getitem_found tas alliance) as [Hf Hk].
  destruct (getitem tas alliance) as [tas1 ta1]; simpl in *.
  destruct (level >? TeamAlliance.level ta1) eqn:Hgt;
    rewrite Z.gtb_ltb in Hgt;
    [apply Z.ltb_lt in Hgt | apply Z.ltb_ge in Hgt].
  - eexists. unfold set_level. simpl. rewrite find_set_item. simpl.
    rewrite Hk, decide_True by done. split; [done|]. simpl. lia.
  - exists ta1. split; [done|]. lia.
Qed.

(** The step leaves what is stored for the other keys, and lowers
    nothing. *)
Lemma raise_level_mono tas alliance level k ta :
  find_item k (TeamAlliances.items tas) = Some ta →
  ∃ ta', find_item k (TeamAlliances.items (raise_level tas alliance level))
         = Some ta'
         ∧ TeamAlliance.level ta ≤ TeamAlliance.level ta'.
Proof.
  intros Hfk.
  assert (Hk' : k ∈ keys (raise_level tas alliance level)).
  { apply raise_level_keys. right.
    apply find_item_Some in Hfk as [Hin <-]. by apply list_elem_of_fmap_2. }
  destruct (find_item k (TeamAlliances.items (raise_level tas alliance level)))
    as [ta'|] eqn:Hf'; [|by apply find_item_None in Hf'].
  exists ta'. split; [done|].
  pose proof (raise_level_stored tas alliance level k) as Hst.
  unfold stored_level in Hst at 1. rewrite Hf' in Hst. rewrite Hst.
  destruct (decide (k = alliance)) as [->|_];
    unfold stored_level; rewrite Hfk; lia.
Qed.

(** An entry whose claimed size is covered by confirmed heroes needs
    nothing and is settled for both promotion loops. *)
Lemma covered_a_size tas ta : covered tas ta → a_size tas ta = 0.
Proof.
  unfold covered, a_size, p_size. intros H.
  assert (len (t_heroes tas ta) ≤ len (p_heroes tas ta)).
  { apply len_mono. unfold t_heroes, p_heroes, pool. set_solver. }
  lia.
Qed.

Lemma covered_mixed_stable tas ta : covered tas ta → mixed_stable tas ta.
Proof.
  intros H Hq. rewrite (covered_a_size _ _ H) in Hq.
  by apply len_empty_iff.
Qed.

Lemma covered_team_stable tas ta : covered tas ta → team_stable tas ta.
Proof.
  intros H Hq. apply len_empty_iff.
  assert (len (t_heroes tas ta) ≤ len (p_heroes tas ta)).
  { apply len_mono. unfold t_heroes, p_heroes, pool. set_solver. }
  unfold covered, m_size, p_size, t_size in *. lia.
Qed.

Lemma covered_from_empty tas alliance : covered tas (from_empty alliance).
Proof.
  unfold covered, total_size, from_empty. simpl.
  pose proof (len_nonneg (t_heroes tas (TeamAlliance.mk alliance 0))). lia.
Qed.

(** The level [_post_add_alliance] computes from a counted item is
    covered by the confirmed heroes. *)
Lemma counted_covered tas alliance heroes :
  counted tas (alliance, heroes) →
  covered tas
    (TeamAlliance.mk alliance
       (Z.of_nat (length heroes) `div` Alliance.level alliance)).
Proof.
  intros [Hpos Hlen]. unfold covered, total_size, t_heroes. simpl in *.
  pose proof (Z.mul_div_le (Z.of_nat (length heroes))
                (Alliance.level alliance) Hpos).
  lia.
Qed.

Lemma raise_level_outstanding tas alliance level :
  covered tas (TeamAlliance.mk alliance level) →
  outstanding (raise_level tas alliance level)
              (TeamAlliances.items (raise_level tas alliance level))
  ≤ outstanding tas (TeamAlliances.items tas).
Proof.
  intros Hcov.
  assert (∀ l, outstanding (raise_level tas alliance level) l
               = outstanding tas l) as ->.
  { intros l. unfold outstanding. apply sum_map_ext. intros ta _.
    by rewrite (a_size_pool tas) by (symmetry; apply raise_level_pool). }
  unfold raise_level.
  pose proof (getitem_found tas alliance) as [_ Hk].
  unfold getitem in *.
  destruct (find_item alliance (TeamAlliances.items tas)) eqn:Hf; simpl in *.
  - destruct (_ >? _); simpl; [|lia].
    apply outstanding_set_item. rewrite Hk. by apply covered_a_size.
  - assert (outstanding tas (set_item (from_empty alliance)
                                      (TeamAlliances.items tas))
            ≤ outstanding tas (TeamAlliances.items tas)).
    { apply outstanding_set_item, a_size_from_empty. }
    destruct (_ >? _); simpl; [|done].
    etrans; [|done]. apply outstanding_set_item.
    simpl. by apply covered_a_size.
Qed.

Lemma raise_level_size tas alliance level :
  covered tas (TeamAlliance.mk alliance level) →
  TeamAlliances_size (raise_level tas alliance level) ≤ TeamAlliances_size tas.
Proof.
  intros Hcov. rewrite !TeamAlliances_size_eq.
  rewrite raise_level_team, raise_level_mixed.
  pose proof (raise_level_outstanding _ _ _ Hcov). lia.
Qed.
End raise_level_facts.

Section level_loop_facts.
Implicit Types (tas : TeamAlliances.t) (ta : TeamAlliance.t)
  (self : Team.t) (d : list (Alliance.t * list Hero)).

Lemma covered_team tas tas' ta :
  TeamAlliances.team tas' = TeamAlliances.team tas →
  covered tas ta → covered tas' ta.
Proof. unfold covered, t_heroes. by intros ->. Qed.

Lemma advances_refl tas : advances tas tas.
Proof.
  split; [done | done | lia | | by left].
  intros k ta Hf. exists ta. split; [done | lia].
Qed.

Lemma advances_trans tas1 tas2 tas3 :
  advances tas1 tas2 → advances tas2 tas3 → advances tas1 tas3.
Proof.
  intros [Ht1 Hm1 Hs1 Hf1 Hi1] [Ht2 Hm2 Hs2 Hf2 Hi2]. split.
  - congruence.
  - congruence.
  - lia.
  - intros k ta Hf. destruct (Hf1 _ _ Hf) as (ta' & Hf' & Hle).
    destruct (Hf2 _ _ Hf') as (ta'' & Hf'' & Hle').
    exists ta''. split; [done | lia].
  - intros ta Hin. destruct (Hi2 _ Hin) as [Hin'|Hcov].
    + apply Hi1, Hin'.
    + right. by apply (covered_team tas2).
Qed.

Lemma raise_level_advances tas alliance level :
  covered tas (TeamAlliance.mk alliance level) →
  advances tas (raise_level tas alliance level).
Proof.
  intros Hcov. split.
  - apply raise_level_team.
  - apply raise_level_mixed.
  - by apply raise_level_size.
  - intros k ta. apply raise_level_mono.
  - intros ta' Hin.
    apply raise_level_items in Hin as [?|[->| ->]];
      [by left | right; apply covered_from_empty | by right].
Qed.

Lemma settled_advances tas tas' item :
  advances tas tas' → settled tas item → settled tas' item.
Proof.
  intros Hadv [H0|(ta & Hf & Hle)]; [by left|]. right.
  destruct (adv_find _ _ Hadv _ _ Hf) as (ta' & Hf' & Hle').
  exists ta'. split; [done | lia].
Qed.

Lemma counted_team tas tas' item :
  TeamAlliances.team tas' = TeamAlliances.team tas →
  counted tas item → counted tas' item.
Proof. unfold counted. by intros ->. Qed.

(** On counted items the loop does not raise, and advances the
    container to one where every item is settled. *)
Lemma _post_add_alliance_loop_advances self d :
  Forall (counted (Team.alliances self)) d →
  ∃ self', _post_add_alliance_loop self d = (self', None)
           ∧ advances (Team.alliances self) (Team.alliances self')
           ∧ Team.size self' = Team.size self
           ∧ Team.limit self' = Team.limit self
           ∧ Forall (settled (Team.alliances self')) d.
Proof.
  revert self. induction d as [|[alliance heroes] d IH]; intros self Hd.
  - exists self. split; [done|]. split; [apply advances_refl|].
    do 2 (split; [done|]). apply Forall_nil_2.
  - apply Forall_cons in Hd as [Hc Hd]. simpl.
    pose proof Hc as [Hpos _]. simpl in Hpos.
    rewrite decide_False by lia.
    destruct (decide (_ = 0)) as [H0|Hn0].
    + destruct (IH self Hd) as (self' & -> & Hadv & Hs & Hl & Hset).
      exists self'. do 4 (split; [done|]).
      apply Forall_cons. split; [by left | done].
    + set (level := Z.of_nat (length heroes) `div` Alliance.level alliance) in *.
      pose proof (raise_level_advances (Team.alliances self) alliance level
                    (counted_covered _ _ _ Hc)) as Hadv1.
      set (self1 := with_alliances self _).
      destruct (IH self1) as (self' & -> & Hadv & Hs & Hl & Hset).
      { eapply Forall_impl; [exact Hd|]. intros item.
        apply counted_team. simpl. apply raise_level_team. }
      exists self'. split; [done|].
      split; [by apply (advances_trans _ (Team.alliances self1))|].
      split; [done|]. split; [done|].
      apply Forall_cons. split; [|done].
      apply (settled_advances (Team.alliances self1)); [done|].
      right. apply raise_level_found.
Qed.

(** On settled items the loop changes nothing. *)
Lemma _post_add_alliance_loop_settled self d :
  Forall (λ item, Alliance.level item.1 ≠ 0
                  ∧ settled (Team.alliances self) item) d →
  _post_add_alliance_loop self d = (self, None).
Proof.
  induction d as [|[alliance heroes] d IH]; intros Hd; [done|].
  apply Forall_cons in Hd as [[Hne Hset] Hd]. simpl in *.
  rewrite decide_False by done.
  destruct (decide (_ = 0)) as [H0|Hn0]; [by apply IH|].
  destruct Hset as [?|(ta & Hf & Hle)]; [done|]. simpl in *.
  assert (raise_level (Team.alliances self) alliance
            (Z.of_nat (length heroes) `div` Alliance.level alliance)
          = Team.alliances self) as ->.
  { unfold raise_level, getitem. rewrite Hf.
    destruct (_ >? _) eqn:Hgt; [|done].
    rewrite Z.gtb_ltb in Hgt. apply Z.ltb_lt in Hgt. lia. }
  replace (with_alliances self (Team.alliances self)) with self
    by by destruct self.
  by apply IH.
Qed.
End level_loop_facts.

(** ** The local dictionary of [_post_add_alliance] *)

Section grouping.
Variable hero_alliances : Hero → list Alliance.t.
Variable iter_set : gset Hero → list Hero.
Hypothesis Hwf : wf_universe hero_alliances iter_set.

Implicit Types (d : list (Alliance.t * list Hero)) (h : Hero)
  (seen : list Hero).

Lemma elem_of_setdefault_append a h d al hs :
  (al, hs) ∈ setdefault_append a h d →
  (al, hs) ∈ d
  ∨ (al = a ∧ (hs = [h] ∨ ∃ hs0, (a, hs0) ∈ d ∧ hs = hs0 ++ [h])).
Proof.
  induction d as [|[k hs'] d IH]; simpl.
  - rewrite list_elem_of_singleton. intros [= -> ->]. right. by split; [|left].
  - destruct (decide (k = a)) as [->|Hne]; rewrite !elem_of_cons.
    + intros [[= -> ->]|Hin]; [|by left; right].
      right. split; [done|]. right. exists hs'.
      split; [apply elem_of_cons; by left | done].
    + intros [[= -> ->]|Hin]; [by left; left|].
      destruct (IH Hin) as [?|(-> & [->|(hs0 & Hin0 & ->)])].
      * by left; right.
      * right. by split; [|left].
      * right. split; [done|]. right. exists hs0.
        split; [apply elem_of_cons; by right | done].
Qed.

Local Abbreviation grouping := (grouping hero_alliances).

Lemma grouping_inner seen h rest pre d :
  h ∉ seen →
  NoDup (pre ++ rest) →
  (∀ a, a ∈ rest → a ∈ hero_alliances h) →
  grouping seen (Some (h, pre)) d →
  grouping seen (Some (h, pre ++ rest))
    (foldl (λ d a, setdefault_append a h d) d rest).
Proof.
  intros Hseen. revert pre d.
  induction rest as [|a rest IH]; intros pre d Hnd Hrest Hg; simpl.
  - by rewrite app_nil_r.
  - replace (pre ++ a :: rest) with ((pre ++ [a]) ++ rest)
      by by rewrite <- app_assoc.
    apply IH.
    + by rewrite <- app_assoc.
    + intros a' Ha'. apply Hrest, elem_of_cons. by right.
    + assert (Ha : a ∉ pre).
      { apply NoDup_app in Hnd as (_ & Hd & _). intros Hin.
        apply (Hd _ Hin), elem_of_cons. by left. }
      assert (Hah : a ∈ hero_alliances h)
        by (apply Hrest, elem_of_cons; by left).
      intros al hs Hin.
      apply elem_of_setdefault_append in Hin
        as [Hin|(-> & [->|(hs0 & Hin & ->)])].
      * destruct (Hg _ _ Hin) as (Hne & Hnd' & Hx & Hpre).
        split; [done|]. split; [done|]. split.
        -- intros x Hxin. destruct (Hx x Hxin) as [[?|(h' & pre' & [= <- <-] & ->)] ?].
           ++ split; [by left | done].
           ++ split; [right; eauto | done].
        -- intros h' pre' [= <- <-] Hh. apply elem_of_app. left.
           by apply (Hpre h pre).
      * split; [done|]. split; [apply NoDup_singleton|]. split.
        -- intros x Hxin. apply list_elem_of_singleton in Hxin as ->.
           split; [right; eauto | done].
        -- intros h' pre' [= <- <-] _. apply elem_of_app. right.
           by apply list_elem_of_singleton.
      * destruct (Hg _ _ Hin) as (Hne & Hnd' & Hx & Hpre).
        split; [by destruct hs0|]. split.
        { apply NoDup_app. split; [done|]. split; [|apply NoDup_singleton].
          intros x Hxin Hxh. apply list_elem_of_singleton in Hxh as ->.
          apply Ha. by apply (Hpre h pre). }
        split.
        -- intros x Hxin. apply elem_of_app in Hxin as [Hxin|Hxin].
           ++ destruct (Hx x Hxin) as [[?|(h' & pre' & [= <- <-] & ->)] ?].
              ** split; [by left | done].
              ** split; [right; eauto | done].
           ++ apply list_elem_of_singleton in Hxin as ->.
              split; [right; eauto | done].
        -- intros h' pre' [= <- <-] _. apply elem_of_app. right.
           by apply list_elem_of_singleton.
Qed.

Lemma grouping_outer rest seen d :
  NoDup (seen ++ rest) →
  grouping seen None d →
  grouping (seen ++ rest) None
    (foldl (λ d h, foldl (λ d a, setdefault_append a h d) d (hero_alliances h))
           d rest).
Proof.
  revert seen d. induction rest as [|h rest IH]; intros seen d Hnd Hg; simpl.
  - by rewrite app_nil_r.
  - replace (seen ++ h :: rest) with ((seen ++ [h]) ++ rest)
      by by rewrite <- app_assoc.
    apply IH; [by rewrite <- app_assoc|].
    assert (Hh : h ∉ seen).
    { apply NoDup_app in Hnd as (_ & Hd & _). intros Hin.
      apply (Hd _ Hin), elem_of_cons. by left. }
    pose proof (grouping_inner seen h (hero_alliances h) [] d Hh) as Hinner.
    simpl in Hinner.
    assert (Hg' : grouping seen (Some (h, [])) d).
    { intros al hs Hin. destruct (Hg _ _ Hin) as (Hne & Hnd' & Hx & _).
      split; [done|]. split; [done|]. split.
      - intros x Hxin. destruct (Hx x Hxin) as [[?|(? & ? & [=] & _)] ?].
        split; [by left | done].
      - intros h' pre' [= <- <-] Hin'.
        destruct (Hx h Hin') as [[?|(? & ? & [=] & _)] _]. done. }
    specialize (Hinner (wf_once _ _ Hwf h) ltac:(auto) Hg').
    intros al hs Hin. destruct (Hinner _ _ Hin) as (Hne & Hnd' & Hx & _).
    split; [done|]. split; [done|]. split; [|done].
    intros x Hxin. destruct (Hx x Hxin) as [[?|(h' & pre' & [= <- <-] & ->)] ?].
    + split; [left; apply elem_of_app; by left | done].
    + split; [left; apply elem_of_app; right; by apply list_elem_of_singleton
             | done].
Qed.

Lemma NoDup_length_le_len (l : list Hero) (s : gset Hero) :
  NoDup l → (∀ x, x ∈ l → x ∈ s) → Z.of_nat (length l) ≤ len s.
Proof.
  intros Hnd Hsub. unfold len.
  rewrite <- (size_list_to_set (C := gset Hero) l Hnd).
  apply inj_le, subseteq_size. intros x Hx.
  apply elem_of_list_to_set in Hx. by apply Hsub.
Qed.

(** Every item of the local dictionary is counted. *)
Lemma heroes_by_alliance_counted tas :
  Forall (counted tas)
    (heroes_by_alliance hero_alliances iter_set (TeamAlliances.team tas)).
Proof.
  apply Forall_forall. intros [al hs] Hin.
  pose proof (wf_iter _ _ Hwf (TeamAlliances.team tas)) as Hperm.
  pose proof (grouping_outer (iter_set (TeamAlliances.team tas)) [] []) as Hg.
  simpl in Hg. specialize (Hg ltac:(rewrite Hperm; apply NoDup_elements)).
  destruct (Hg ltac:(by intros ?? ?%not_elem_of_nil) _ _ Hin)
    as (Hne & Hnd & Hx & _).
  split; simpl.
  - destruct hs as [|x hs]; [done|].
    destruct (Hx x ltac:(apply elem_of_cons; by left)) as [_ Hal].
    by apply (wf_level _ _ Hwf x).
  - apply NoDup_length_le_len; [done|]. intros x Hxin.
    destruct (Hx x Hxin) as [[Hseen|(? & ? & [=] & _)] Hal].
    apply elem_of_intersection. split.
    + by apply (wf_member _ _ Hwf).
    + rewrite Hperm in Hseen. by apply elem_of_elements in Hseen.
Qed.
End grouping.

(** ** The convergence pass as a whole *)

Section post_add_facts.
Variable hero_alliances : Hero → list Alliance.t.
Variable iter_set : gset Hero → list Hero.
Hypothesis Hwf : wf_universe hero_alliances iter_set.

Local Abbreviation heroes_by_alliance :=
  (heroes_by_alliance hero_alliances iter_set).

(** In a well-formed universe the convergence pass returns: it promotes
    outstanding heroes to [mixed], mixed heroes to [team], and then
    advances the levels. *)
Lemma _post_add_returns self :
  ∃ self',
    _post_add hero_alliances iter_set self = (self', None)
    ∧ advances (Team.alliances (_post_add_team (_post_add_mixed self)))
               (Team.alliances self')
    ∧ Team.size self' = Team.size self
    ∧ Team.limit self' = Team.limit self
    ∧ Forall (settled (Team.alliances self'))
        (heroes_by_alliance
           (TeamAlliances.team
              (Team.alliances (_post_add_team (_post_add_mixed self))))).
Proof.
  unfold _post_add, _post_add_alliance.
  set (self2 := _post_add_team (_post_add_mixed self)).
  destruct (_post_add_alliance_loop_advances self2
              (heroes_by_alliance (TeamAlliances.team (Team.alliances self2))))
    as (self' & Hrun & Hadv & Hs & Hl & Hset).
  { by apply heroes_by_alliance_counted. }
  exists self'. by do 4 (split; [done|]).
Qed.

(** The convergence pass does not raise the size. *)
Lemma _post_add_size self self' e :
  _post_add hero_alliances iter_set self = (self', e) →
  e = None
  ∧ TeamAlliances_size (Team.alliances self')
    ≤ TeamAlliances_size (Team.alliances self)
  ∧ Team.size self' = Team.size self
  ∧ Team.limit self' = Team.limit self.
Proof.
  destruct (_post_add_returns self) as (self1 & -> & Hadv & Hs & Hl & _).
  intros [= <- <-]. split; [done|]. split; [|done].
  pose proof (adv_size _ _ Hadv).
  pose proof (_post_add_team_size (_post_add_mixed self)).
  pose proof (_post_add_mixed_size self). lia.
Qed.
End post_add_facts.

(** ** The calls that return *)

Section returns.
Variable hero_alliances : Hero → list Alliance.t.
Variable iter_set : gset Hero → list Hero.

(** The state [_add] hands to the convergence pass when it returns. *)
Lemma _add_returns self alliance levels self' :
  _add hero_alliances iter_set self alliance levels = (self', None) →
  let tas := Team.alliances self in
  let reserved := (reservation tas alliance).1 in
  let team := (reservation tas alliance).2 ∖ pool tas in
  let tas1 := (getitem tas alliance).1 in
  let ta := (getitem tas alliance).2 in
  ∃ size level,
    level_search tas1 ta reserved (Team.limit self) levels
                 (TeamAlliances_size tas1) None = (size, Some level)
    ∧ size ≤ Team.limit self
    ∧ let tas2 :=
        TeamAlliances_set
          (with_mixed tas1 (TeamAlliances.mixed tas1 ∪ team)) alliance level in
      TeamAlliances_size tas2 ≤ Team.limit self
      ∧ _post_add hero_alliances iter_set (Team.mk size tas2 (Team.limit self))
        = (self', None).
Proof.
  unfold _add.
  destruct (reservation _ _) as [reserved team].
  destruct (getitem (Team.alliances self) alliance) as [tas1 ta]; simpl.
  destruct (level_search _ _ _ _ _ _ _) as [size level].
  destruct (size >? Team.limit self) eqn:Hsize; [done|].
  rewrite Z.gtb_ltb in Hsize. apply Z.ltb_ge in Hsize.
  destruct level as [level|]; [|done].
  destruct (_ >? Team.limit self) eqn:Hsize2; [done|].
  rewrite Z.gtb_ltb in Hsize2. apply Z.ltb_ge in Hsize2.
  match goal with |- context [_post_check ?s ?p] =>
    destruct (_post_check_cases s p) as [-> | ->] end; [|done].
  intros Hpost. exists size, level. by repeat split.
Qed.

(** The state [_add_hero] hands to the convergence pass when it
    returns. *)
Lemma _add_hero_returns self hero self' :
  _add_hero hero_alliances iter_set self hero = (self', None) →
  let tas := Team.alliances self in
  let team := TeamAlliances.team tas ∪ {[hero]} in
  let tas2 := TeamAlliances.mk (TeamAlliances.items tas) team
                               (TeamAlliances.mixed tas ∖ team) in
  ((∃ ta, ta ∈ TeamAlliances.items tas ∧ 0 < a_size tas ta
          ∧ hero ∈ a_heroes tas ta)
   ∨ TeamAlliances_size tas + 1 ≤ Team.limit self)
  ∧ _post_add hero_alliances iter_set (with_alliances self tas2)
    = (self', None).
Proof.
  unfold _add_hero.
  destruct (negb _ && _) eqn:Hguard; [done|].
  match goal with |- context [_post_check ?s ?p] =>
    destruct (_post_check_cases s p) as [-> | ->] end; [|done].
  intros Hpost. split; [|done].
  apply andb_false_iff in Hguard as [Hany|Hsize].
  - left. apply negb_false_iff, existsb_exists in Hany as (ta & Hin & Hta).
    apply andb_true_iff in Hta as [Hpos Hh].
    exists ta. split; [by apply list_elem_of_In|].
    rewrite Z.gtb_ltb in Hpos. apply Z.ltb_lt in Hpos.
    split; [done|]. by apply bool_decide_eq_true in Hh.
  - right. rewrite Z.gtb_ltb in Hsize. by apply Z.ltb_ge in Hsize.
Qed.

(** What the level loop returns: the size it started from, or that size
    plus the amount of a candidate above the stored level that fits. *)
Lemma level_search_cases tas ta reserved limit levels size0 level0 size level :
  level_search tas ta reserved limit levels size0 level0 = (size, level) →
  (size = size0
   ∧ level = last (level0 :: map Some levels) ≫= id
   ∧ ∀ l, l ∈ levels → TeamAlliance.level ta < l →
          limit < size0 + level_up_amount tas ta l reserved)
  ∨ (∃ l, l ∈ levels ∧ level = Some l
          ∧ TeamAlliance.level ta < l
          ∧ size = size0 + level_up_amount tas ta l reserved
          ∧ size ≤ limit).
Proof.
  revert level0. induction levels as [|l levels IH]; intros level0; simpl.
  - intros [= <- <-]. left. split; [done|]. split; [done|].
    by intros l ?%not_elem_of_nil.
  - destruct (_ && _) eqn:Hfit.
    + intros [= <- <-]. right. exists l.
      apply andb_true_iff in Hfit as [Hgt Hle].
      rewrite Z.gtb_ltb in Hgt. apply Z.ltb_lt in Hgt. apply Z.leb_le in Hle.
      split; [apply elem_of_cons; by left | done].
    + intros Hrest. destruct (IH _ Hrest) as [(-> & Hlast & Hno)|Hyes].
      * left. split; [done|]. split.
        { rewrite Hlast. by destruct levels. }
        intros l' Hin Hgt. apply elem_of_cons in Hin as [->|Hin]; [|by apply Hno].
        apply andb_false_iff in Hfit as [Hf|Hf].
        -- rewrite Z.gtb_ltb in Hf. apply Z.ltb_ge in Hf. lia.
        -- apply Z.leb_gt in Hf. lia.
      * right. destruct Hyes as (l' & Hin & Hrest').
        exists l'. split; [apply elem_of_cons; by right | done].
Qed.
End returns.

(** ** Adding a hero *)

Section add_hero_facts.
Implicit Types (tas : TeamAlliances.t) (ta : TeamAlliance.t) (hero : Hero).

Lemma sum_map_le_strict {A} (f g : A → Z) (l : list A) (x : A) :
  x ∈ l → f x + 1 ≤ g x → (∀ y, y ∈ l → f y ≤ g y) →
  sum (map f l) + 1 ≤ sum (map g l).
Proof.
  induction l as [|y l IH]; simpl; [by intros ?%not_elem_of_nil|].
  intros Hin Hx Hall.
  assert (Hrest : ∀ z, z ∈ l → f z ≤ g z)
    by (intros z Hz; apply Hall, elem_of_cons; by right).
  pose proof (Hall y ltac:(apply elem_of_cons; by left)).
  apply elem_of_cons in Hin as [->|Hin].
  - pose proof (sum_map_le f g l Hrest). lia.
  - pose proof (IH Hin Hx Hrest). lia.
Qed.

Lemma with_hero_pool tas hero : pool (with_hero tas hero) = pool tas ∪ {[hero]}.
Proof.
  unfold pool, with_hero. simpl. apply set_eq. intros h.
  destruct (decide (h ∈ TeamAlliances.team tas ∪ {[hero]})); set_solver.
Qed.

Lemma with_hero_size tas hero :
  TeamAlliances_size (with_hero tas hero) ≤ TeamAlliances_size tas + 1.
Proof.
  rewrite !TeamAlliances_size_eq. simpl.
  pose proof (len_union_le (TeamAlliances.team tas) {[hero]}) as Ht.
  unfold len at 3 in Ht. rewrite size_singleton in Ht.
  pose proof (len_mono
    (TeamAlliances.mixed tas ∖ (TeamAlliances.team tas ∪ {[hero]}))
    (TeamAlliances.mixed tas) ltac:(set_solver)).
  assert (outstanding (with_hero tas hero) (TeamAlliances.items tas)
          ≤ outstanding tas (TeamAlliances.items tas)).
  { unfold outstanding. apply sum_map_le. intros ta _.
    pose proof (a_size_antitone tas (with_hero tas hero) ta) as Ha.
    rewrite with_hero_pool in Ha. specialize (Ha ltac:(set_solver)).
    pose proof (a_size_nonneg tas ta).
    pose proof (a_size_nonneg (with_hero tas hero) ta). lia. }
  lia.
Qed.

(** A hero some faction was still waiting for costs nothing. *)
Lemma with_hero_size_awaited tas hero ta :
  ta ∈ TeamAlliances.items tas → 0 < a_size tas ta → hero ∈ a_heroes tas ta →
  TeamAlliances_size (with_hero tas hero) ≤ TeamAlliances_size tas.
Proof.
  intros Hin Hpos Hhero.
  rewrite !TeamAlliances_size_eq. simpl.
  pose proof (len_union_le (TeamAlliances.team tas) {[hero]}) as Ht.
  unfold len at 3 in Ht. rewrite size_singleton in Ht.
  pose proof (len_mono
    (TeamAlliances.mixed tas ∖ (TeamAlliances.team tas ∪ {[hero]}))
    (TeamAlliances.mixed tas) ltac:(set_solver)).
  assert (outstanding (with_hero tas hero) (TeamAlliances.items tas) + 1
          ≤ outstanding tas (TeamAlliances.items tas)).
  { unfold outstanding. apply (sum_map_le_strict _ _ _ ta Hin).
    - assert (Hsub : p_heroes tas ta ∪ {[hero]}
                     ⊆ p_heroes (with_hero tas hero) ta).
      { unfold p_heroes. rewrite with_hero_pool.
        unfold a_heroes in Hhero. set_solver. }
      apply len_mono in Hsub.
      rewrite len_union_disjoint in Hsub
        by (unfold p_heroes, a_heroes in *; set_solver).
      unfold len at 2 in Hsub. rewrite size_singleton in Hsub.
      pose proof (len_nonneg (p_heroes tas ta)).
      unfold a_size, p_size in *. lia.
    - intros ta' _.
      pose proof (a_size_antitone tas (with_hero tas hero) ta') as Ha.
      rewrite with_hero_pool in Ha. specialize (Ha ltac:(set_solver)).
      pose proof (a_size_nonneg tas ta').
      pose proof (a_size_nonneg (with_hero tas hero) ta'). lia. }
  lia.
Qed.
End add_hero_facts.


(** ** The small universe is well formed *)

Lemma Examples_wf : wf_universe Examples.hero_alliances Examples.iter_set.
Proof.
  split.
  - intros h al Hin. apply list_elem_of_In, filter_In in Hin as [_ Hin].
    by apply bool_decide_eq_true in Hin.
  - intros h al Hin. apply list_elem_of_In, filter_In in Hin as [Hin _].
    unfold Examples.alliances in Hin. simpl in Hin.
    destruct Hin as [<-|[<-|[<-|[<-|[]]]]]; done.
  - intros h. apply NoDup_ListNoDup, List.NoDup_filter, NoDup_ListNoDup.
    apply (bool_decide_unpack _). by vm_compute.
  - done.
Qed.

(** ** Where the heroes of the pool come from *)

Section pool_facts.
Implicit Types (tas : TeamAlliances.t) (ta : TeamAlliance.t) (self : Team.t).

Lemma elem_of_heroes_of_entries tas h :
  h ∈ heroes_of_entries tas ↔ ∃ al, al ∈ keys tas ∧ h ∈ Alliance.heroes al.
Proof.
  unfold heroes_of_entries. rewrite elem_of_union_list. split.
  - intros (X & HX & Hh). apply list_elem_of_fmap in HX as (al & -> & Hal).
    by exists al.
  - intros (al & Hal & Hh). exists (Alliance.heroes al).
    split; [by apply list_elem_of_fmap_2 | done].
Qed.

Lemma heroes_of_entries_mono tas tas' :
  (∀ k, k ∈ keys tas → k ∈ keys tas') →
  heroes_of_entries tas ⊆ heroes_of_entries tas'.
Proof.
  intros Hk h. rewrite !elem_of_heroes_of_entries.
  intros (al & Hal & Hh). exists al. split; [by apply Hk | done].
Qed.

(** The second loop of [_post_add_alliance] leaves the sets alone and
    drops no key, whatever it ends in. *)
Lemma _post_add_alliance_loop_sets self d self' e :
  _post_add_alliance_loop self d = (self', e) →
  TeamAlliances.team (Team.alliances self')
  = TeamAlliances.team (Team.alliances self)
  ∧ TeamAlliances.mixed (Team.alliances self')
    = TeamAlliances.mixed (Team.alliances self)
  ∧ ∀ k, k ∈ keys (Team.alliances self) → k ∈ keys (Team.alliances self').
Proof.
  revert self. induction d as [|[alliance heroes] d IH]; intros self; simpl.
  - by intros [= <- _].
  - destruct (decide _); [by intros [= <- _]|].
    destruct (decide _); [apply IH|].
    intros Hrun. apply IH in Hrun as (Ht & Hm & Hk). simpl in *.
    rewrite raise_level_team in Ht. rewrite raise_level_mixed in Hm.
    split; [done|]. split; [done|].
    intros k Hin. apply Hk, raise_level_keys. by right.
Qed.

(** The working set of [_add]: heroes of the alliance outside the pool. *)
Lemma overlap_subseteq tas alliance l reserved team :
  team ⊆ pool tas ∪ Alliance.heroes alliance →
  (foldl (λ '(reserved, team) ta,
            let al := TeamAlliance.alliance ta in
            if bool_decide (al ≠ alliance) && (a_size tas ta >? 0) then
              let heroes := Alliance.heroes al ∩ Alliance.heroes alliance in
              (reserved + Z.min (a_size tas ta) (len (heroes ∖ team)),
               team ∪ heroes)
            else (reserved, team))
         (reserved, team) l).2
  ⊆ pool tas ∪ Alliance.heroes alliance.
Proof.
  revert reserved team. induction l as [|ta l IH]; intros reserved team Hsub;
    simpl; [done|].
  destruct (_ && _); apply IH; set_solver.
Qed.

Lemma reservation_subseteq tas alliance :
  (reservation tas alliance).2 ∖ pool tas ⊆ Alliance.heroes alliance.
Proof.
  unfold reservation. destruct (contains tas alliance); simpl.
  - set_solver.
  - pose proof (overlap_subseteq tas alliance (TeamAlliances.items tas)
                  0 (pool tas) ltac:(set_solver)) as Hsub.
    fold (overlap tas alliance) in Hsub. set_solver.
Qed.

(** The convergence pass keeps the two sets disjoint, keeps the keys,
    and adds to the pool only member heroes of alliances with an
    entry. *)
Lemma _post_add_pool hero_alliances iter_set self self' e :
  _post_add hero_alliances iter_set self = (self', e) →
  (TeamAlliances.team (Team.alliances self)
     ## TeamAlliances.mixed (Team.alliances self) →
   TeamAlliances.team (Team.alliances self')
     ## TeamAlliances.mixed (Team.alliances self'))
  ∧ (∀ k, k ∈ keys (Team.alliances self) → k ∈ keys (Team.alliances self'))
  ∧ pool (Team.alliances self')
    ⊆ pool (Team.alliances self) ∪ heroes_of_entries (Team.alliances self).
Proof.
  unfold _post_add, _post_add_alliance. intros Hrun.
  apply _post_add_alliance_loop_sets in Hrun as (Ht & Hm & Hk).
  assert (Hpool : pool (Team.alliances self')
                  = pool (Team.alliances (_post_add_team (_post_add_mixed self))))
    by (unfold pool; by rewrite Ht, Hm).
  split; [|split].
  - intros Hdisj. rewrite Ht, Hm. apply _post_add_team_disjoint.
    rewrite _post_add_mixed_alliances. simpl.
    pose proof (mixed_promotion_outside (Team.alliances self)) as Hout.
    unfold pool in Hout. set_solver.
  - intros k Hin. by apply Hk.
  - rewrite Hpool, _post_add_team_pool, _post_add_mixed_alliances.
    intros h Hh. unfold pool in *. simpl in Hh.
    apply elem_of_union in Hh as [Hh|Hh]; [set_solver|].
    apply elem_of_union in Hh as [Hh|Hh]; [set_solver|].
    apply elem_of_union_r, elem_of_heroes_of_entries.
    apply mixed_promotion_heroes in Hh as (ta & Hin & Hh).
    exists (TeamAlliance.alliance ta).
    split; [by apply list_elem_of_fmap_2 | done].
Qed.
End pool_facts.

(** ** Every reachable team has disjoint sets *)

Section disjoint_facts.
Implicit Types (tas : TeamAlliances.t) (ta : TeamAlliance.t) (self : Team.t).

Lemma copy_loop_sets l tas :
  TeamAlliances.team
    (foldl (λ new value,
              with_items new
                (set_item (TeamAlliance_copy value) (TeamAlliances.items new)))
           tas l)
  = TeamAlliances.team tas
  ∧ TeamAlliances.mixed
      (foldl (λ new value,
                with_items new
                  (set_item (TeamAlliance_copy value) (TeamAlliances.items new)))
             tas l)
    = TeamAlliances.mixed tas.
Proof.
  revert tas. induction l as [|ta l IH]; intros tas; simpl; [done|].
  destruct (IH (with_items tas (set_item (TeamAlliance_copy ta)
                                         (TeamAlliances.items tas))))
    as [-> ->]. done.
Qed.

Lemma TeamAlliances_copy_disjoint tas :
  disjoint_sets tas → disjoint_sets (TeamAlliances_copy tas).
Proof.
  unfold disjoint_sets, TeamAlliances_copy.
  destruct (copy_loop_sets (TeamAlliances.items tas)
              (TeamAlliances.mk [] (TeamAlliances.team tas)
                                (TeamAlliances.mixed tas))) as [-> ->].
  done.
Qed.

Lemma getitem_disjoint tas alliance :
  disjoint_sets tas → disjoint_sets (getitem tas alliance).1.
Proof.
  unfold disjoint_sets.
  by destruct (getitem_sets tas alliance) as [-> ->].
Qed.

Lemma _post_check_disjoint self prev_tas self' e :
  disjoint_sets (Team.alliances self) → disjoint_sets prev_tas →
  _post_check self prev_tas = (self', e) →
  disjoint_sets (Team.alliances self').
Proof.
  intros Hs Hp.
  destruct (_post_check_cases self prev_tas) as [-> | ->];
    by intros [= <- _].
Qed.

(** The working set of [_add] lies outside the pool. *)
Lemma working_set_disjoint tas tas1 (team : gset Hero) :
  disjoint_sets tas →
  TeamAlliances.team tas1 = TeamAlliances.team tas →
  TeamAlliances.mixed tas1 = TeamAlliances.mixed tas →
  disjoint_sets (with_mixed tas1 (TeamAlliances.mixed tas1 ∪ team ∖ pool tas)).
Proof.
  unfold disjoint_sets, pool. simpl. intros Hd -> ->. set_solver.
Qed.

Lemma with_hero_disjoint tas hero : disjoint_sets (with_hero tas hero).
Proof. unfold disjoint_sets, with_hero. simpl. set_solver. Qed.
End disjoint_facts.

Lemma _add_disjoint hero_alliances iter_set self alliance levels self' e :
  disjoint_sets (Team.alliances self) →
  _add hero_alliances iter_set self alliance levels = (self', e) →
  disjoint_sets (Team.alliances self').
Proof.
  intros Hd. unfold _add.
  pose proof (getitem_disjoint _ alliance Hd) as Hd1.
  pose proof (getitem_sets (Team.alliances self) alliance) as [Ht Hm].
  destruct (reservation _ _) as [reserved team].
  destruct (getitem (Team.alliances self) alliance) as [tas1 ta]; simpl in *.
  destruct (level_search _ _ _ _ _ _ _) as [size level].
  pose proof (working_set_disjoint _ tas1 team Hd Ht Hm) as Hd2.
  destruct (_ >? _); [by intros [= <- _]|].
  destruct level as [level|]; [|by intros [= <- _]].
  destruct (_ >? _);
    [intros [= <- _]; by apply TeamAlliances_copy_disjoint|].
  match goal with |- context [_post_check ?s ?p] =>
    pose proof (_post_check_disjoint s p) as Hcheck;
    destruct (_post_check s p) as [self2 [e2|]] end.
  - intros [= <- _]. eapply Hcheck; [done | | done].
    by apply TeamAlliances_copy_disjoint.
  - intros Hpost. apply _post_add_pool in Hpost as (Hd' & _).
    apply Hd'. eapply Hcheck; [done | | done].
    by apply TeamAlliances_copy_disjoint.
Qed.

Lemma _add_hero_disjoint hero_alliances iter_set self hero self' e :
  disjoint_sets (Team.alliances self) →
  _add_hero hero_alliances iter_set self hero = (self', e) →
  disjoint_sets (Team.alliances self').
Proof.
  intros Hd. unfold _add_hero.
  destruct (_ && _); [by intros [= <- _]|].
  match goal with |- context [_post_check ?s ?p] =>
    pose proof (_post_check_disjoint s p) as Hcheck;
    destruct (_post_check s p) as [self2 [e2|]] end.
  - intros [= <- _]. eapply Hcheck; [ | | done].
    + apply (with_hero_disjoint (Team.alliances self) hero).
    + by apply TeamAlliances_copy_disjoint.
  - intros Hpost. apply _post_add_pool in Hpost as (Hd' & _).
    apply Hd'. eapply Hcheck; [ | | done].
    + apply (with_hero_disjoint (Team.alliances self) hero).
    + by apply TeamAlliances_copy_disjoint.
Qed.

Lemma run_disjoint hero_alliances iter_set c self self' e :
  disjoint_sets (Team.alliances self) →
  run hero_alliances iter_set c self = (self', e) →
  disjoint_sets (Team.alliances self').
Proof.
  intros Hd. destruct c as [alliance level|alliance|hero]; simpl.
  - unfold add. destruct (decide _); [by intros [= <- _]|].
    by apply _add_disjoint.
  - unfold add_max. destruct (decide _); [by intros [= <- _]|].
    by apply _add_disjoint.
  - by apply _add_hero_disjoint.
Qed.

Lemma reachable_disjoint hero_alliances iter_set self :
  reachable hero_alliances iter_set self →
  disjoint_sets (Team.alliances self).
Proof.
  induction 1 as [limit|c self self' e _ IH Hrun].
  - unfold disjoint_sets. simpl. apply disjoint_empty_l.
  - by eapply run_disjoint.
Qed.

(** ** A converged container *)

Section converged.
Variable hero_alliances : Hero → list Alliance.t.
Variable iter_set : gset Hero → list Hero.
Hypothesis Hwf : wf_universe hero_alliances iter_set.

Implicit Types (tas : TeamAlliances.t) (ta : TeamAlliance.t) (self : Team.t).

Lemma stable_sets tas tas' ta :
  TeamAlliances.team tas' = TeamAlliances.team tas →
  TeamAlliances.mixed tas' = TeamAlliances.mixed tas →
  (mixed_stable tas ta → mixed_stable tas' ta)
  ∧ (team_stable tas ta → team_stable tas' ta).
Proof.
  intros Ht Hm.
  unfold mixed_stable, team_stable, a_size, m_size, p_size, t_size,
    a_heroes, m_heroes, p_heroes, t_heroes, pool.
  by rewrite Ht, Hm.
Qed.

(** When every entry is settled for both promotion loops, they promote
    nothing. *)
Lemma mixed_promotion_stable tas :
  (∀ ta, ta ∈ TeamAlliances.items tas → mixed_stable tas ta) →
  mixed_promotion tas = ∅.
Proof.
  intros Hst. apply elem_of_equiv_empty_L. intros h Hh.
  apply elem_of_promote in Hh as (ta & Hin & Hq & Hh).
  apply Z.leb_le in Hq. rewrite (Hst ta Hin Hq) in Hh.
  by apply not_elem_of_empty in Hh.
Qed.

Lemma team_promotion_stable tas :
  (∀ ta, ta ∈ TeamAlliances.items tas → team_stable tas ta) →
  team_promotion tas = ∅.
Proof.
  intros Hst. apply elem_of_equiv_empty_L. intros h Hh.
  apply elem_of_promote in Hh as (ta & Hin & Hq & Hh).
  apply Z.leb_le in Hq. rewrite (Hst ta Hin Hq) in Hh.
  by apply not_elem_of_empty in Hh.
Qed.

Lemma _post_add_mixed_id self :
  mixed_promotion (Team.alliances self) = ∅ → _post_add_mixed self = self.
Proof.
  intros He. unfold _post_add_mixed. rewrite He.
  destruct self as [size [items team mixed] limit].
  unfold with_alliances, with_mixed. simpl. by rewrite union_empty_r_L.
Qed.

Lemma _post_add_team_id self :
  team_promotion (Team.alliances self) = ∅ → _post_add_team self = self.
Proof.
  intros He. unfold _post_add_team. rewrite He.
  destruct self as [size [items team mixed] limit].
  unfold with_alliances, with_mixed, with_team. simpl.
  by rewrite union_empty_r_L, difference_empty_L.
Qed.

(** The convergence pass, run on a team whose sets are disjoint, ends in
    a team on which it changes nothing. *)
Lemma _post_add_converges self self' :
  disjoint_sets (Team.alliances self) →
  _post_add hero_alliances iter_set self = (self', None) →
  _post_add hero_alliances iter_set self' = (self', None).
Proof using Hwf.
  intros Hdisj Hrun.
  destruct (_post_add_returns _ _ Hwf self)
    as (self1 & Hrun1 & Hadv & _ & _ & Hsettled).
  rewrite Hrun in Hrun1. injection Hrun1 as <-.
  set (self3 := _post_add_mixed self) in *.
  set (self4 := _post_add_team self3) in *.
  assert (Hdisj3 : disjoint_sets (Team.alliances self3)).
  { unfold disjoint_sets, self3. rewrite _post_add_mixed_alliances. simpl.
    pose proof (mixed_promotion_outside (Team.alliances self)) as Hout.
    unfold disjoint_sets, pool in *. set_solver. }
  pose proof (adv_team _ _ Hadv) as Ht. pose proof (adv_mixed _ _ Hadv) as Hm.
  assert (Hstable : ∀ ta, ta ∈ TeamAlliances.items (Team.alliances self') →
            mixed_stable (Team.alliances self') ta
            ∧ team_stable (Team.alliances self') ta).
  { intros ta Hin.
    destruct (stable_sets (Team.alliances self4) (Team.alliances self') ta
                Ht Hm) as [Hms Hts].
    destruct (adv_items _ _ Hadv ta Hin) as [Hin4|Hcov].
    - split.
      + apply Hms, _post_add_team_mixed_stable, _post_add_mixed_stable.
        exact Hin4.
      + apply Hts, _post_add_team_stable; [exact Hdisj3 | exact Hin4].
    - split.
      + by apply Hms, covered_mixed_stable.
      + by apply Hts, covered_team_stable. }
  unfold _post_add.
  rewrite _post_add_mixed_id
    by (apply mixed_promotion_stable; intros ta Hin; by apply Hstable).
  rewrite _post_add_team_id
    by (apply team_promotion_stable; intros ta Hin; by apply Hstable).
  unfold _post_add_alliance. rewrite Ht.
  apply _post_add_alliance_loop_settled.
  pose proof (heroes_by_alliance_counted _ _ Hwf (Team.alliances self4))
    as Hcounted.
  apply Forall_forall. intros item Hin.
  rewrite Forall_forall in Hcounted, Hsettled.
  split; [|by apply Hsettled].
  destruct (Hcounted item Hin) as [Hpos _]. lia.
Qed.
End converged.

(** ** Objects: allocation and what a value depends on *)

Section heap_facts.
Implicit Types (h : heap) (r : ref) (o : object).

Lemma alloc_spec h o h' r :
  alloc h o = (h', r) → h !! r = None ∧ h' = <[r := o]> h.
Proof.
  unfold alloc. intros [= <- <-]. split; [|done].
  apply not_elem_of_dom, is_fresh.
Qed.

Lemma alloc_subseteq h o h' r : alloc h o = (h', r) → h ⊆ h'.
Proof.
  intros [Hfresh ->]%alloc_spec. by apply insert_subseteq.
Qed.

Lemma alloc_lookup h o h' r : alloc h o = (h', r) → h' !! r = Some o.
Proof. intros [_ ->]%alloc_spec. apply lookup_insert_eq. Qed.

Lemma alloc_fresh h o h' r : alloc h o = (h', r) → r ∉ dom h.
Proof. intros [Hfresh _]%alloc_spec. by apply not_elem_of_dom. Qed.

Lemma set_value_weaken h h' s elems :
  h ⊆ h' → set_value h s = Some elems → set_value h' s = Some elems.
Proof.
  unfold set_value. intros Hsub.
  destruct (h !! s) as [o|] eqn:Hs; [|done].
  by rewrite (lookup_weaken _ _ _ _ Hs Hsub).
Qed.

Lemma entry_value_weaken h h' item ta :
  h ⊆ h' → entry_value h item = Some ta → entry_value h' item = Some ta.
Proof.
  unfold entry_value. intros Hsub.
  destruct (h !! item.2) as [o|] eqn:Hs; [|done].
  by rewrite (lookup_weaken _ _ _ _ Hs Hsub).
Qed.

Lemma entries_value_weaken h h' items tas :
  h ⊆ h' → mapM (entry_value h) items = Some tas →
  mapM (entry_value h') items = Some tas.
Proof.
  intros Hsub. rewrite !mapM_Some. intros Hall.
  eapply Forall2_impl; [exact Hall|]. intros item ta.
  by apply entry_value_weaken.
Qed.

Lemma alliances_value_weaken h h' tas v :
  h ⊆ h' → alliances_value h tas = Some v → alliances_value h' tas = Some v.
Proof.
  unfold alliances_value. intros Hsub.
  destruct (h !! tas) as [o|] eqn:Hs; [|done].
  rewrite (lookup_weaken _ _ _ _ Hs Hsub).
  destruct o as [| |items team mixed|]; try done.
  destruct (mapM (entry_value h) items) as [tas'|] eqn:Hitems; [|done].
  rewrite (entries_value_weaken _ _ _ _ Hsub Hitems). simpl.
  destruct (set_value h team) as [t|] eqn:Ht; [|done].
  rewrite (set_value_weaken _ _ _ _ Hsub Ht). simpl.
  destruct (set_value h mixed) as [m|] eqn:Hm; [|done].
  by rewrite (set_value_weaken _ _ _ _ Hsub Hm).
Qed.

(** A team stands for the same value in every larger heap. *)
Lemma team_value_weaken h h' self t :
  h ⊆ h' → team_value h self = Some t → team_value h' self = Some t.
Proof.
  unfold team_value. intros Hsub.
  destruct (h !! self) as [o|] eqn:Hs; [|done].
  rewrite (lookup_weaken _ _ _ _ Hs Hsub).
  destruct o as [| | |size alliances limit]; try done.
  destruct (alliances_value h alliances) as [v|] eqn:Hv; [|done].
  by rewrite (alliances_value_weaken _ _ _ _ Hsub Hv).
Qed.

(** The objects of a team are objects of the heap. *)
Lemma team_value_footprint h self t :
  team_value h self = Some t → footprint h self ⊆ dom h.
Proof.
  unfold team_value, footprint, alliances_value.
  destruct (h !! self) as [[| | |size alliances limit]|] eqn:Hself; try done.
  destruct (h !! alliances) as [[| |items team mixed|]|] eqn:Htas; try done.
  destruct (mapM (entry_value h) items) as [vs|] eqn:Hitems; [|done]. simpl.
  destruct (set_value h team) as [t'|] eqn:Ht; [|done]. simpl.
  destruct (set_value h mixed) as [m'|] eqn:Hm; [|done]. simpl.
  intros _ r Hr.
  apply elem_of_union in Hr as [Hr|Hr];
    [|apply elem_of_union in Hr as [Hr|Hr]].
  - apply elem_of_union in Hr as [Hr|Hr]; apply elem_of_singleton in Hr as ->;
      by apply elem_of_dom.
  - unfold set_value in Ht, Hm.
    apply elem_of_union in Hr as [Hr|Hr]; apply elem_of_singleton in Hr as ->;
      apply elem_of_dom.
    + by destruct (h !! team).
    + by destruct (h !! mixed).
  - apply elem_of_list_to_set, list_elem_of_fmap in Hr as ([k v] & -> & Hin).
    apply mapM_Some in Hitems.
    apply list_elem_of_lookup in Hin as [i Hi].
    destruct (Forall2_lookup_l _ _ _ _ _ Hitems Hi) as (ta & _ & Hta).
    unfold entry_value in Hta. simpl in *. apply elem_of_dom.
    by destruct (h !! v).
Qed.
End heap_facts.

(** ** Objects: the three [copy] methods *)

Section copy_facts.
Implicit Types (h : heap) (r : ref) (o : object)
  (items : list (Alliance.t * ref)).

Lemma dict_set_absent key value items :
  key ∉ map fst items → dict_set key value items = items ++ [(key, value)].
Proof.
  induction items as [|[k v] items IH]; simpl; [done|].
  rewrite not_elem_of_cons. intros [Hne Hni].
  rewrite decide_False by done. by rewrite IH.
Qed.

Lemma copy_items_spec items h new acc team mixed :
  h !! new = Some (TeamAlliancesObj acc team mixed) →
  (∀ key value, (key, value) ∈ items →
     value ≠ new
     ∧ ∃ level tas0, h !! value = Some (TeamAllianceObj key level tas0)) →
  NoDup (map fst acc ++ map fst items) →
  ∃ h' copied,
    copy_items h new items = Some h'
    ∧ h' !! new = Some (TeamAlliancesObj (acc ++ copied) team mixed)
    ∧ (∀ r, r ∈ dom h → r ≠ new → h' !! r = h !! r)
    ∧ Forall2 (copy_of h h' new) items copied.
Proof.
  revert h acc. induction items as [|[key value] items IH];
    intros h acc Hnew Hvalid Hnd.
  - exists h, []. rewrite app_nil_r. by repeat split.
  - destruct (Hvalid key value ltac:(apply elem_of_cons; by left))
      as (Hvn & level & tas0 & Hvalue).
    simpl. unfold TeamAlliance_copy_obj. rewrite Hvalue.
    destruct (alloc h (TeamAllianceObj key level new)) as [h1 c] eqn:Halloc.
    pose proof (alloc_fresh _ _ _ _ Halloc) as Hfresh.
    apply alloc_spec in Halloc as [Hc ->].
    assert (Hcn : c ≠ new) by (intros ->; by rewrite Hnew in Hc).
    rewrite lookup_insert_ne by done. rewrite Hnew.
    assert (Hkey : key ∉ map fst acc).
    { simpl in Hnd. apply NoDup_app in Hnd as (_ & Hd & _).
      intros Hin. apply (Hd _ Hin), elem_of_cons. by left. }
    rewrite dict_set_absent by done.
    set (h2 := <[new := _]> _).
    destruct (IH h2 (acc ++ [(key, c)])) as (h' & copied & Hrun & Hnew' & Hframe & Hall).
    + apply lookup_insert_eq.
    + intros k v Hin.
      destruct (Hvalid k v ltac:(apply elem_of_cons; by right))
        as (Hvn' & level' & tas0' & Hv).
      split; [done|]. exists level', tas0'.
      unfold h2. rewrite lookup_insert_ne by done.
      rewrite lookup_insert_ne; [done|]. intros ->. by rewrite Hv in Hc.
    + rewrite map_app, <- app_assoc. done.
    + exists h', ((key, c) :: copied). split; [done|].
      split; [by rewrite <- app_assoc in Hnew'|].
      assert (Hdom : ∀ r, r ∈ dom h → r ∈ dom h2).
      { intros r Hr. unfold h2. rewrite !dom_insert. set_solver. }
      split.
      * intros r Hr Hrn. rewrite Hframe by auto.
        unfold h2. rewrite lookup_insert_ne by done.
        rewrite lookup_insert_ne; [done|]. by intros ->.
      * apply Forall2_cons. split.
        -- split; [done|]. split; [done|]. exists level, tas0.
           split; [done|]. simpl.
           rewrite Hframe; [| |done].
           ++ unfold h2. rewrite lookup_insert_ne by done.
              apply lookup_insert_eq.
           ++ unfold h2. rewrite !dom_insert. set_solver.
        -- eapply Forall2_same_length_lookup_2; [by eapply Forall2_length|].
           intros i [k v] [k' c'] Hi Hi'.
           destruct (Forall2_lookup_lr _ _ _ _ _ _ Hall Hi Hi')
             as (Hk & Hfr & lv & t0 & Hv & Hc').
           destruct (Hvalid k v) as (Hvn' & level' & tas0' & Hv0).
           { apply elem_of_cons. right. by eapply list_elem_of_lookup_2. }
           simpl in *. split; [done|]. split; [by intros ?%Hdom|].
           exists lv, t0. split; [|done].
           unfold h2 in Hv. rewrite lookup_insert_ne in Hv by done.
           rewrite lookup_insert_ne in Hv; [done|].
           intros ->. by rewrite Hv0 in Hc.
Qed.

Lemma mapM_ext_in {A B} (f g : A → option B) (l : list A) :
  (∀ x, x ∈ l → f x = g x) → mapM f l = mapM g l.
Proof.
  induction l as [|x l IH]; intros Hsame; [done|]. simpl.
  rewrite (Hsame x ltac:(apply elem_of_cons; by left)).
  rewrite IH; [done|]. intros y Hin. apply Hsame, elem_of_cons. by right.
Qed.

Lemma mapM_entry_value_ext h h' items :
  (∀ item, item ∈ items → h' !! item.2 = h !! item.2) →
  mapM (entry_value h') items = mapM (entry_value h) items.
Proof.
  intros Hsame. apply mapM_ext_in. intros item Hin.
  unfold entry_value. by rewrite Hsame.
Qed.

(** The value and the shape of a container depend on its own objects
    only. *)
Lemma alliances_value_local h h' tas items team mixed :
  h !! tas = Some (TeamAlliancesObj items team mixed) →
  (∀ r, r ∈ ({[tas; team; mixed]} : gset ref) ∪ list_to_set (map snd items) →
        h' !! r = h !! r) →
  alliances_value h' tas = alliances_value h tas.
Proof.
  intros Htas Hsame. unfold alliances_value.
  rewrite (Hsame tas) by set_solver. rewrite Htas.
  rewrite (mapM_entry_value_ext h h').
  - unfold set_value.
    rewrite (Hsame team) by set_solver. by rewrite (Hsame mixed) by set_solver.
  - intros item Hin. apply Hsame, elem_of_union_r, elem_of_list_to_set.
    by apply list_elem_of_fmap_2.
Qed.

Lemma parented_local h h' tas items team mixed :
  h !! tas = Some (TeamAlliancesObj items team mixed) →
  (∀ r, r ∈ ({[tas; team; mixed]} : gset ref) ∪ list_to_set (map snd items) →
        h' !! r = h !! r) →
  parented h tas → parented h' tas.
Proof.
  intros Htas Hsame (items' & team' & mixed' & Htas' & Hnd & Hentries).
  rewrite Htas in Htas'. injection Htas' as <- <- <-.
  exists items, team, mixed. split; [|split; [done|]].
  - rewrite (Hsame tas) by set_solver. done.
  - intros key value Hin. destruct (Hentries key value Hin) as [level Hv].
    exists level. rewrite Hsame; [done|].
    apply elem_of_union_r, elem_of_list_to_set.
    by apply (list_elem_of_fmap_2 snd _ (key, value)).
Qed.

Lemma parented_weaken h h' tas : h ⊆ h' → parented h tas → parented h' tas.
Proof.
  intros Hsub (items & team & mixed & Htas & Hnd & Hentries).
  exists items, team, mixed.
  split; [by apply (lookup_weaken h)|]. split; [done|].
  intros key value Hin. destruct (Hentries key value Hin) as [level Hv].
  exists level. by apply (lookup_weaken h).
Qed.

(** [TeamAlliances.copy] returns a new container that stands for the
    same value, made of new objects only, with new entries that refer
    back to it; no object that was there is assigned to. *)
Lemma TeamAlliances_copy_obj_spec h self v :
  alliances_value h self = Some v → parented h self →
  ∃ h' new items' team' mixed',
    TeamAlliances_copy_obj h self = Some (h', new)
    ∧ h ⊆ h'
    ∧ h' !! new = Some (TeamAlliancesObj items' team' mixed')
    ∧ ({[new; team'; mixed']} : gset ref) ∪ list_to_set (map snd items')
      ## dom h
    ∧ alliances_value h' new = Some v
    ∧ parented h' new.
Proof.
  intros Hvalue (items & team & mixed & Hself & Hnd & Hentries).
  unfold alliances_value in Hvalue. rewrite Hself in Hvalue.
  destruct (mapM (entry_value h) items) as [vs|] eqn:Hitems; [|done].
  simpl in Hvalue.
  destruct (set_value h team) as [tv|] eqn:Hteam; [|done]. simpl in Hvalue.
  destruct (set_value h mixed) as [mv|] eqn:Hmixed; [|done]. simpl in Hvalue.
  injection Hvalue as <-.
  unfold TeamAlliances_copy_obj. rewrite Hself.
  unfold set_copy.
  unfold set_value in Hteam.
  destruct (h !! team) as [[tv'| | |]|] eqn:Hteam'; try done.
  injection Hteam as ->.
  destruct (alloc h (SetObj tv)) as [h1 team'] eqn:Ha1.
  pose proof (alloc_subseteq _ _ _ _ Ha1) as Hsub1.
  pose proof (alloc_fresh _ _ _ _ Ha1) as Hfresh1.
  pose proof (alloc_lookup _ _ _ _ Ha1) as Hlook1.
  unfold set_value in Hmixed.
  destruct (h !! mixed) as [[mv'| | |]|] eqn:Hmixed'; try done.
  injection Hmixed as ->.
  rewrite (lookup_weaken _ _ _ _ Hmixed' Hsub1).
  destruct (alloc h1 (SetObj mv)) as [h2 mixed'] eqn:Ha2.
  pose proof (alloc_subseteq _ _ _ _ Ha2) as Hsub2.
  pose proof (alloc_fresh _ _ _ _ Ha2) as Hfresh2.
  pose proof (alloc_lookup _ _ _ _ Ha2) as Hlook2.
  destruct (alloc h2 (TeamAlliancesObj [] team' mixed')) as [h3 new] eqn:Ha3.
  pose proof (alloc_subseteq _ _ _ _ Ha3) as Hsub3.
  pose proof (alloc_fresh _ _ _ _ Ha3) as Hfresh3.
  pose proof (alloc_lookup _ _ _ _ Ha3) as Hlook3.
  assert (Hsub : h ⊆ h3) by (etrans; [exact Hsub1|]; etrans; done).
  pose proof (subseteq_dom _ _ Hsub1) as Hdom1.
  pose proof (subseteq_dom _ _ Hsub2) as Hdom2.
  pose proof (subseteq_dom _ _ Hsub3) as Hdom3.
  destruct (copy_items_spec items h3 new [] team' mixed' Hlook3)
    as (h4 & copied & Hrun & Hnew & Hframe & Hall).
  { intros key value Hin. destruct (Hentries key value Hin) as [level Hv].
    split.
    - intros ->. apply Hfresh3, Hdom2, Hdom1. by apply elem_of_dom.
    - exists level, self. by apply (lookup_weaken h). }
  { done. }
  rewrite Hrun. simpl in Hnew.
  assert (Hsub4 : h ⊆ h4).
  { apply map_subseteq_spec. intros r o Hr.
    rewrite Hframe.
    - by apply (lookup_weaken h).
    - apply Hdom3, Hdom2, Hdom1. by apply elem_of_dom.
    - intros ->. apply Hfresh3, Hdom2, Hdom1. by apply elem_of_dom. }
  assert (Hentries' : ∀ key value, (key, value) ∈ copied →
            (value ∉ dom h)
            ∧ ∃ level, h4 !! value = Some (TeamAllianceObj key level new)).
  { intros key value Hin. apply list_elem_of_lookup in Hin as [i Hi].
    destruct (Forall2_lookup_r _ _ _ _ _ Hall Hi)
      as ([k v] & Hi' & Hk & Hfr & level & tas0 & _ & Hv). simpl in *.
    subst k. split; [|by exists level].
    intros Hd. by apply Hfr, Hdom3, Hdom2, Hdom1. }
  exists h4, new, copied, team', mixed'.
  split; [done|]. split; [done|]. split; [done|]. split; [|split].
  - intros r Hr Hd.
    apply elem_of_union in Hr as [Hr|Hr].
    + apply elem_of_union in Hr as [Hr|Hr];
        [apply elem_of_union in Hr as [Hr|Hr]|];
        apply elem_of_singleton in Hr as ->.
      * by apply Hfresh3, Hdom2, Hdom1.
      * done.
      * by apply Hfresh2, Hdom1.
    + apply elem_of_list_to_set, list_elem_of_fmap in Hr as ([k v] & -> & Hin).
      by destruct (Hentries' k v Hin) as [Hfr _].
  - unfold alliances_value. rewrite Hnew.
    assert (mapM (entry_value h4) copied = Some vs) as ->.
    { apply mapM_Some. apply mapM_Some in Hitems.
      eapply Forall2_same_length_lookup_2.
      - rewrite <- (Forall2_length _ _ _ Hall). by eapply Forall2_length.
      - intros i [k c] ta Hi Hta.
        destruct (Forall2_lookup_r _ _ _ _ _ Hall Hi)
          as ([k0 v] & Hi' & Hk & _ & level & tas0 & Hv & Hc). simpl in *.
        pose proof (Forall2_lookup_lr _ _ _ _ _ _ Hitems Hi' Hta) as Hentry.
        unfold entry_value in *. simpl in *. rewrite Hc.
        destruct (Hentries k0 v ltac:(by eapply list_elem_of_lookup_2))
          as [level0 Hv0].
        rewrite (lookup_weaken _ _ _ _ Hv0 Hsub) in Hv.
        injection Hv as <-. by rewrite Hv0 in Hentry. }
    simpl. unfold set_value.
    rewrite (Hframe team'), (lookup_weaken _ _ _ _ Hlook1 (transitivity Hsub2 Hsub3)).
    + simpl. rewrite (Hframe mixed'), (lookup_weaken _ _ _ _ Hlook2 Hsub3).
      * done.
      * apply Hdom3. apply elem_of_dom. by rewrite Hlook2.
      * intros ->. apply Hfresh3. apply elem_of_dom. by rewrite Hlook2.
    + apply Hdom3, Hdom2. apply elem_of_dom. by rewrite Hlook1.
    + intros ->. apply Hfresh3, Hdom2. apply elem_of_dom. by rewrite Hlook1.
  - exists copied, team', mixed'. split; [done|]. split.
    + assert (map fst copied = map fst items) as ->; [|done].
      apply list_eq_same_length with (length items).
      * by rewrite length_map.
      * rewrite length_map. symmetry. by eapply Forall2_length.
      * intros i k k' Hlt Hk Hk'.
        rewrite list_lookup_fmap in Hk, Hk'.
        destruct (copied !! i) as [c|] eqn:Hc; [|done].
        destruct (items !! i) as [item|] eqn:Hitem; [|done].
        simpl in *. injection Hk as <-. injection Hk' as <-.
        by destruct (Forall2_lookup_lr _ _ _ _ _ _ Hall Hitem Hc) as [? _].
    + intros key value Hin. by destruct (Hentries' key value Hin) as [_ ?].
Qed.
End copy_facts.

Section team_copy_facts.
Implicit Types (h : heap) (r : ref) (o : object).

(** [Team.__init__] creates four objects. *)
Lemma Team_init_obj_spec h limit :
  ∃ h' new alliances,
    Team_init_obj h limit = (h', new)
    ∧ h ⊆ h'
    ∧ (new ∉ dom h)
    ∧ h' !! new = Some (TeamObj 0 alliances limit).
Proof.
  unfold Team_init_obj.
  destruct (alloc h (SetObj ∅)) as [h1 team] eqn:Ha1.
  destruct (alloc h1 (SetObj ∅)) as [h2 mixed] eqn:Ha2.
  destruct (alloc h2 (TeamAlliancesObj [] team mixed)) as [h3 tas] eqn:Ha3.
  destruct (alloc h3 (TeamObj 0 tas limit)) as [h4 new] eqn:Ha4.
  pose proof (alloc_subseteq _ _ _ _ Ha1) as Hsub1.
  pose proof (alloc_subseteq _ _ _ _ Ha2) as Hsub2.
  pose proof (alloc_subseteq _ _ _ _ Ha3) as Hsub3.
  pose proof (alloc_subseteq _ _ _ _ Ha4) as Hsub4.
  assert (Hsub : h ⊆ h3) by (etrans; [exact Hsub1|]; etrans; done).
  exists h4, new, tas. split; [done|].
  split; [by etrans|]. split; [|by eapply alloc_lookup].
  intros Hd. apply (alloc_fresh _ _ _ _ Ha4).
  by apply (subseteq_dom _ _ Hsub).
Qed.

(** [Team.copy] returns a new team that stands for the same value and is
    made of new objects only; the team it copied stands for the value
    it stood for, and goes on doing so whatever is assigned to the
    objects of the copy. *)
Lemma Team_copy_obj_spec h self t :
  team_value h self = Some t → team_parented h self →
  ∃ h' new,
    Team_copy_obj h self = Some (h', new)
    ∧ team_value h' new = Some t
    ∧ team_value h' self = Some t
    ∧ footprint h' new ## dom h
    ∧ team_parented h' new
    ∧ ∀ h'', writes_within (footprint h' new) h' h'' →
             team_value h'' self = Some t.
Proof.
  intros Hvalue (size & alliances & limit & Hself & Hpar).
  pose proof Hvalue as Hvalue0.
  unfold team_value in Hvalue. rewrite Hself in Hvalue.
  destruct (alliances_value h alliances) as [v|] eqn:Hv; [|done].
  simpl in Hvalue. injection Hvalue as <-.
  unfold Team_copy_obj. rewrite Hself.
  destruct (Team_init_obj_spec h limit)
    as (ha & new & al0 & Hinit & Hsuba & Hnew & Hlooka).
  rewrite Hinit, Hlooka.
  set (hb := <[new := TeamObj size al0 limit]> ha).
  assert (Hsubb : h ⊆ hb).
  { apply map_subseteq_spec. intros r o Hr. unfold hb.
    rewrite lookup_insert_ne; [by apply (lookup_weaken h)|].
    intros ->. apply Hnew. by apply elem_of_dom. }
  destruct (TeamAlliances_copy_obj_spec hb alliances v)
    as (hc & copied & items' & team' & mixed' & Hcopy & Hsubc & Hcopied
        & Hfresh & Hvalc & Hparc).
  { by apply (alliances_value_weaken h). }
  { by apply (parented_weaken h). }
  fold hb. rewrite Hcopy.
  set (hd := <[new := TeamObj size copied limit]> hc).
  assert (Hnewb : new ∈ dom hb) by (unfold hb; rewrite dom_insert; set_solver).
  assert (Hother : ∀ r, r ∈ ({[copied; team'; mixed']} : gset ref)
                            ∪ list_to_set (map snd items') →
                        hd !! r = hc !! r).
  { intros r Hr. unfold hd. rewrite lookup_insert_ne; [done|].
    intros Heq. subst r. by apply (Hfresh new). }
  assert (Hsubd : h ⊆ hd).
  { apply map_subseteq_spec. intros r o Hr. unfold hd.
    rewrite lookup_insert_ne.
    - apply (lookup_weaken hb); [|done]. by apply (lookup_weaken h).
    - intros ->. apply Hnew. by apply elem_of_dom. }
  assert (Hfoot : footprint hd new
                  = {[new; copied]}
                    ∪ ({[team'; mixed']} ∪ list_to_set (map snd items'))).
  { unfold footprint. unfold hd at 1. rewrite lookup_insert_eq.
    rewrite (Hother copied) by set_solver. by rewrite Hcopied. }
  assert (Hdisj : footprint hd new ## dom h).
  { rewrite Hfoot. intros r Hr Hd.
    pose proof (subseteq_dom _ _ Hsubb) as Hdomb.
    apply elem_of_union in Hr as [Hr|Hr].
    - apply elem_of_union in Hr as [Hr|Hr]; apply elem_of_singleton in Hr as ->.
      + done.
      + apply (Hfresh copied); [set_solver | by apply Hdomb].
    - apply (Hfresh r); [set_solver | by apply Hdomb]. }
  exists hd, new. split; [done|]. split; [|split; [|split; [|split]]].
  - unfold team_value. unfold hd at 1. rewrite lookup_insert_eq.
    rewrite (alliances_value_local hc hd copied items' team' mixed')
      by done.
    by rewrite Hvalc.
  - by apply (team_value_weaken h).
  - done.
  - exists size, copied, limit. split; [apply lookup_insert_eq|].
    by apply (parented_local hc hd copied items' team' mixed').
  - intros h'' Hwrites. apply (team_value_weaken h); [|done].
    apply map_subseteq_spec. intros r o Hr.
    rewrite Hwrites.
    + by apply (lookup_weaken h).
    + apply (subseteq_dom _ _ Hsubd). by apply elem_of_dom.
    + intros Hin. apply (Hdisj r Hin). by apply elem_of_dom.
Qed.

(** The value of a well-formed container is a dictionary. *)
Lemma parented_NoDup h tas v :
  alliances_value h tas = Some v → parented h tas → NoDup (keys v).
Proof.
  intros Hvalue (items & team & mixed & Htas & Hnd & Hentries).
  unfold alliances_value in Hvalue. rewrite Htas in Hvalue.
  destruct (mapM (entry_value h) items) as [vs|] eqn:Hitems; [|done].
  simpl in Hvalue.
  destruct (set_value h team) as [tv|]; [|done]. simpl in Hvalue.
  destruct (set_value h mixed) as [mv|]; [|done]. simpl in Hvalue.
  injection Hvalue as <-. unfold keys. simpl.
  assert (map TeamAlliance.alliance vs = map fst items) as ->; [|done].
  apply mapM_Some in Hitems.
  apply list_eq_same_length with (length items).
  - by rewrite length_map.
  - rewrite length_map. symmetry. by eapply Forall2_length.
  - intros i k k' Hlt Hk Hk'.
    rewrite list_lookup_fmap in Hk. rewrite list_lookup_fmap in Hk'.
    destruct (vs !! i) as [ta|] eqn:Hta; [|done].
    destruct (items !! i) as [[key value]|] eqn:Hitem; [|done].
    simpl in *. injection Hk as <-. injection Hk' as <-.
    pose proof (Forall2_lookup_lr _ _ _ _ _ _ Hitems Hitem Hta) as Hentry.
    destruct (Hentries key value ltac:(by eapply list_elem_of_lookup_2))
      as [level Hv].
    unfold entry_value in Hentry. simpl in Hentry. rewrite Hv in Hentry.
    by injection Hentry as <-.
Qed.
End team_copy_facts.

(** ** What the standard rules raise *)

Section rule_facts.
Variable hero_alliances : Hero → list Alliance.t.
Variable iter_set : gset Hero → list Hero.
Hypothesis Hwf : wf_universe hero_alliances iter_set.

Lemma level_search_bound tas ta reserved limit levels size level0 :
  levels ≠ [] ∨ level0 ≠ None →
  (level_search tas ta reserved limit levels size level0).2 ≠ None.
Proof.
  revert level0. induction levels as [|l levels IH]; intros level0; simpl.
  - by intros [?|?].
  - intros _. destruct (_ && _); [done|]. apply IH. by right.
Qed.

(** With a candidate to try, [_add] ends in a return or in a
    [ValueError]. *)
Lemma _add_raises self alliance levels self' e :
  levels ≠ [] →
  _add hero_alliances iter_set self alliance levels = (self', Some e) →
  ∃ kind, e = ValueError kind.
Proof using Hwf.
  intros Hlevels. unfold _add.
  destruct (reservation _ _) as [reserved team].
  destruct (getitem (Team.alliances self) alliance) as [tas ta]; simpl.
  pose proof (level_search_bound tas ta reserved (Team.limit self) levels
                (TeamAlliances_size tas) None (or_introl Hlevels)) as Hbound.
  destruct (level_search _ _ _ _ _ _ _) as [size level]. simpl in Hbound.
  destruct (_ >? _); [intros [= _ <-]; eauto|].
  destruct level as [level|]; [|done].
  destruct (_ >? _); [intros [= _ <-]; eauto|].
  match goal with |- context [_post_check ?s ?p] =>
    destruct (_post_check_cases s p) as [-> | ->] end.
  - match goal with |- _post_add _ _ ?s = _ → _ =>
      destruct (_post_add_returns _ _ Hwf s) as (s' & -> & _) end.
    done.
  - intros [= _ <-]. eauto.
Qed.

Lemma range_down_nonempty n : 1 ≤ n → range_down n ≠ [].
Proof.
  intros Hn. unfold range_down.
  destruct (Z.to_nat n) as [|k] eqn:Hk; [lia|].
  rewrite seq_S, map_app, rev_app_distr. done.
Qed.

(** On an alliance with a positive step and room for one tier, the rules
    [team_add], [team_inc] and [team_max] raise nothing but
    [ValueError]. *)
Lemma standard_rule_raises (fn : rule) team alliance e :
  (fn = team_inc hero_alliances iter_set
   ∨ fn = team_max hero_alliances iter_set
   ∨ ∃ amount, fn = team_add hero_alliances iter_set amount) →
  0 < Alliance.level alliance →
  Alliance.level alliance ≤ Alliance.total alliance →
  fn team alliance = inl e →
  ∃ kind, e = ValueError kind.
Proof using Hwf.
  intros Hfn Hpos Htotal.
  assert (Hadd : ∀ level o,
            add hero_alliances iter_set team alliance level = o →
            returning_self o = inl e → ∃ kind, e = ValueError kind).
  { intros level [self' [e'|]] Hrun; simpl; [|done]. intros [= ->].
    unfold add in Hrun. rewrite decide_False in Hrun by lia.
    by apply _add_raises in Hrun. }
  destruct Hfn as [->|[->|[amount ->]]].
  - unfold team_inc. by eapply Hadd.
  - unfold team_max.
    destruct (add_max hero_alliances iter_set team alliance)
      as [self' [e'|]] eqn:Hrun; simpl; [|done]. intros [= ->].
    unfold add_max in Hrun. rewrite decide_False in Hrun by lia.
    apply _add_raises in Hrun; [done|]. apply range_down_nonempty.
    apply Z.div_le_lower_bound; lia.
  - unfold team_add. by eapply Hadd.
Qed.
End rule_facts.

(** * The properties of the specification *)

(** ** C1: what a failed call leaves behind *)

(** What a failed call does restore.  When [add], [add_max] or [add_hero]
    raises a capacity or composition error, the container is the one of
    before the call, except that a failed [add] or [add_max] has read the
    entry of its alliance before it took the snapshot, which inserts the
    alliance at level 0 when it had no entry.  So the team set, the mixed
    set, the limit and every stored level (an absent faction reads as
    level 0) are as before, the keys are those of before and the alliance
    of the call, and a failed [add_hero] leaves the whole team as it was.
    The cached size after a failed [add] or [add_max] is whatever the level
    loop left in [size]. *)
Lemma failed_call_restores hero_alliances iter_set c self self' kind :
  NoDup (keys (Team.alliances self)) →
  run hero_alliances iter_set c self = (self', Some (ValueError kind)) →
  Team.alliances self' = materialised c (Team.alliances self)
  ∧ Team.limit self' = Team.limit self
  ∧ TeamAlliances.team (Team.alliances self')
    = TeamAlliances.team (Team.alliances self)
  ∧ TeamAlliances.mixed (Team.alliances self')
    = TeamAlliances.mixed (Team.alliances self)
  ∧ (∀ k, stored_level (Team.alliances self') k
          = stored_level (Team.alliances self) k)
  ∧ (∀ k, k ∈ keys (Team.alliances self')
          ↔ call_alliance c = Some k ∨ k ∈ keys (Team.alliances self))
  ∧ (call_alliance c = None → self' = self).
Proof.
  intros Hnd Hrun.
  assert (Hadd : ∀ alliance levels,
            call_alliance c = Some alliance →
            materialised c (Team.alliances self)
            = (getitem (Team.alliances self) alliance).1 →
            _add hero_alliances iter_set self alliance levels
            = (self', Some (ValueError kind)) →
            Team.alliances self' = materialised c (Team.alliances self)
            ∧ Team.limit self' = Team.limit self
            ∧ TeamAlliances.team (Team.alliances self')
              = TeamAlliances.team (Team.alliances self)
            ∧ TeamAlliances.mixed (Team.alliances self')
              = TeamAlliances.mixed (Team.alliances self)
            ∧ (∀ k, stored_level (Team.alliances self') k
                    = stored_level (Team.alliances self) k)
            ∧ (∀ k, k ∈ keys (Team.alliances self')
                    ↔ call_alliance c = Some k ∨ k ∈ keys (Team.alliances self))
            ∧ (call_alliance c = None → self' = self)).
  { intros alliance levels Hc Hmat Hfail.
    apply (_add_failed _ _ _ _ _ _ _ Hnd) in Hfail as [Htas Hlimit].
    rewrite Hmat, Htas.
    pose proof (getitem_sets (Team.alliances self) alliance) as [Ht Hm].
    split; [done|]. split; [done|]. split; [done|]. split; [done|].
    split; [apply getitem_stored_level|]. split; [|by rewrite Hc].
    intros k. rewrite getitem_keys, Hc. naive_solver. }
  destruct c as [alliance level|alliance|hero]; simpl in Hrun.
  - unfold add in Hrun. destruct (decide _); [done|]. by eapply Hadd.
  - unfold add_max in Hrun. destruct (decide _); [done|]. by eapply Hadd.
  - apply (_add_hero_failed _ _ _ _ _ _ Hnd) in Hrun as ->. simpl.
    do 5 (split; [done|]). split; [|done]. naive_solver.
Qed.

Lemma failed_call_restores_example :
  Examples.run (call_add Examples.G 2) (Team_init 10)
  = (Examples.team_G_failed, Some (ValueError Composition))
  ∧ Team.alliances Examples.team_G_failed
    = materialised (call_add Examples.G 2) (Team.alliances (Team_init 10))
  ∧ ∀ k, stored_level (Team.alliances Examples.team_G_failed) k
         = stored_level (Team.alliances (Team_init 10)) k.
Proof.
  split; [by vm_compute|].
  destruct (failed_call_restores Examples.hero_alliances Examples.iter_set
              (call_add Examples.G 2) (Team_init 10) Examples.team_G_failed
              Composition)
    as (Htas & _ & _ & _ & Hlevels & _).
  - apply NoDup_nil_2.
  - by vm_compute.
  - split; [exact Htas | exact Hlevels].
Defined.

(** C1.  A failed [add] is not rolled back in full.  [G] has four members
    and tiers of three heroes: on [Team(limit=10)], [add(G, 2)] passes the
    capacity check (six heroes), fails the post-check (six needed, four
    there are) and raises the composition error; the team it leaves has
    the cached size 6 instead of 0 and the key [G], which the team had
    not.  [add_hero] takes its snapshot first and assigns nothing before
    it, and is rolled back in full ([_add_hero_failed]). *)
Theorem failed_add_changes_state :
  Examples.run (call_add Examples.G 2) (Team_init 10)
  = (Examples.team_G_failed, Some (ValueError Composition))
  ∧ Team.size (Team_init 10) = 0
  ∧ Team.size Examples.team_G_failed = 6
  ∧ keys (Team.alliances (Team_init 10)) = []
  ∧ keys (Team.alliances Examples.team_G_failed) = [Examples.G]
  ∧ ¬ same_state Examples.team_G_failed (Team_init 10).
Proof.
  split; [by vm_compute|]. do 4 (split; [by vm_compute|]).
  intros (Hsize & _). by vm_compute in Hsize.
Qed.
(** ** C2: [recursive_increase] *)

Lemma recursive_increase_S fuel self alliances fn :
  recursive_increase (S fuel) self alliances fn
  = let '(teams, e) := _increase self alliances fn in
    iter_or
      (yield_from_each (λ team, recursive_increase fuel team alliances fn)
                       teams e)
      self.
Proof. done. Qed.

Lemma iter_or_end {A} (iter : generated A) (default : A) :
  (iter_or iter default).2 = iter.2.
Proof. by destruct iter as [[|? ?] [?|]]. Qed.

(** What does hold.  When [recursive_increase] ends without an exception
    it has yielded a team; a run that did not reach the depth the
    interpreter allows is the same at every greater depth; and the depth
    is not reached when the alternatives of a team are smaller than the
    team in some measure, which is how the depth would be bounded if
    every step raised a level.  The rule [team_max] has no such
    measure. *)
Lemma recursive_increase_yields fuel self alliances fn teams :
  recursive_increase fuel self alliances fn = (teams, None) →
  teams ≠ [].
Proof.
  destruct fuel as [|fuel]; [done|]. rewrite recursive_increase_S.
  destruct (_increase self alliances fn) as [alternatives e].
  destruct (yield_from_each _ alternatives e) as [[|team rest] [e'|]];
    simpl; try done; by intros [= <-].
Qed.

Lemma yield_from_each_ext sub sub' (teams : list Team.t) e :
  (yield_from_each sub teams e).2 ≠ Some RecursionError →
  (∀ team, team ∈ teams → (sub team).2 ≠ Some RecursionError →
           sub' team = sub team) →
  yield_from_each sub' teams e = yield_from_each sub teams e.
Proof.
  induction teams as [|team teams IH]; intros Hend Hsub; [done|].
  simpl in *.
  assert (Hrest : (yield_from_each sub teams e).2 ≠ Some RecursionError →
                  yield_from_each sub' teams e = yield_from_each sub teams e).
  { intros Hend'. apply IH; [done|]. intros team' Hin.
    apply Hsub. by apply list_elem_of_further. }
  pose proof (Hsub team (list_elem_of_here _ _)) as Hteam.
  destruct (sub team) as [values [e'|]] eqn:Hsubteam; simpl in *.
  - by rewrite Hteam.
  - rewrite Hteam by done.
    destruct (yield_from_each sub teams e) as [rest e'] eqn:Hyield.
    simpl in *. by rewrite Hrest.
Qed.

Lemma recursive_increase_more_fuel fuel self alliances fn :
  (recursive_increase fuel self alliances fn).2 ≠ Some RecursionError →
  recursive_increase (S fuel) self alliances fn
  = recursive_increase fuel self alliances fn.
Proof.
  revert self. induction fuel as [|fuel IH]; intros self Hend; [done|].
  rewrite (recursive_increase_S (S fuel)).
  rewrite recursive_increase_S in Hend |- *.
  destruct (_increase self alliances fn) as [teams e].
  rewrite iter_or_end in Hend.
  rewrite (yield_from_each_ext
             (λ team, recursive_increase fuel team alliances fn)); [done..|].
  intros team _. apply IH.
Qed.

Lemma yield_from_each_finishes sub (teams : list Team.t) e :
  e ≠ Some RecursionError →
  (∀ team, team ∈ teams → (sub team).2 ≠ Some RecursionError) →
  (yield_from_each sub teams e).2 ≠ Some RecursionError.
Proof.
  intros He. induction teams as [|team teams IH]; intros Hsub; simpl; [done|].
  pose proof (Hsub team (list_elem_of_here _ _)) as Hteam.
  destruct (sub team) as [values [e'|]]; simpl in *; [done|].
  destruct (yield_from_each sub teams e) as [rest e'] eqn:Hyield. simpl in *.
  apply IH. intros team' Hin. apply Hsub. by apply list_elem_of_further.
Qed.

Lemma _increase_end self alliances fn e :
  (_increase self alliances fn).2 = Some e →
  ∃ alliance, alliance ∈ alliances ∧ fn (Team_copy self) alliance = inl e.
Proof.
  induction alliances as [|alliance alliances IH]; simpl; [done|].
  assert (Hrest : (_increase self alliances fn).2 = Some e →
            ∃ alliance', alliance' ∈ alliance :: alliances
                         ∧ fn (Team_copy self) alliance' = inl e).
  { intros (alliance' & Hin & Hfn)%IH. exists alliance'.
    split; [by apply list_elem_of_further|done]. }
  destruct (fn (Team_copy self) alliance) as [[kind| | |]|value] eqn:Hfn;
    try done.
  - intros [= <-]. exists alliance. split; [apply list_elem_of_here|done].
  - intros [= <-]. exists alliance. split; [apply list_elem_of_here|done].
  - intros [= <-]. exists alliance. split; [apply list_elem_of_here|done].
  - destruct (negb _); [|done].
    destruct (_increase self alliances fn) as [rest e']. done.
Qed.

Lemma recursive_increase_finishes (measure : Team.t → nat) alliances fn :
  (∀ team alliance, fn team alliance ≠ inl RecursionError) →
  (∀ self team, team ∈ (_increase self alliances fn).1 →
                (measure team < measure self)%nat) →
  ∀ self,
    (recursive_increase (S (measure self)) self alliances fn).2
    ≠ Some RecursionError.
Proof.
  intros Hfn Hmeasure.
  assert (Hfuel : ∀ fuel self, (measure self < fuel)%nat →
            (recursive_increase fuel self alliances fn).2
            ≠ Some RecursionError).
  { induction fuel as [|fuel IH]; intros self Hlt; [lia|].
    rewrite recursive_increase_S.
    pose proof (Hmeasure self) as Hself.
    pose proof (_increase_end self alliances fn RecursionError) as Hend.
    destruct (_increase self alliances fn) as [teams e]. simpl in Hself, Hend.
    rewrite iter_or_end. apply yield_from_each_finishes.
    - intros ->. destruct Hend as (alliance & _ & Hraise); [done|].
      by apply Hfn in Hraise.
    - intros team Hin. apply IH. specialize (Hself team Hin). lia. }
  intros self. apply Hfuel. lia.
Qed.

Lemma increase_team_F1 :
  _increase Examples.team_F1 [Examples.F] Examples.team_max
  = ([Examples.team_A], None).
Proof. by vm_compute. Qed.

Lemma increase_team_A :
  _increase Examples.team_A [Examples.F] Examples.team_max
  = ([Examples.team_B], None).
Proof. by vm_compute. Qed.

Lemma increase_team_B :
  _increase Examples.team_B [Examples.F] Examples.team_max
  = ([Examples.team_A], None).
Proof. by vm_compute. Qed.

Lemma recursive_increase_cycle fuel :
  recursive_increase fuel Examples.team_A [Examples.F] Examples.team_max
  = ([], Some RecursionError)
  ∧ recursive_increase fuel Examples.team_B [Examples.F] Examples.team_max
    = ([], Some RecursionError).
Proof.
  induction fuel as [|fuel [IHA IHB]]; [done|].
  rewrite !recursive_increase_S, increase_team_A, increase_team_B.
  cbn [yield_from_each]. by rewrite IHA, IHB.
Qed.

(** C2.  [recursive_increase] need not terminate.  From the team
    [Team(limit=10).add(F, 1)], with the candidates [[F]] and the rule
    [team_max], the only alternative is a team at level 2 with cached size
    9, whose only alternative is a team at level 1 with cached size 6,
    whose only alternative is the team at level 2 again: no depth of
    calls is enough.  Whatever depth the interpreter allows, the call
    ends in [RecursionError], and nothing has been yielded. *)
Theorem recursive_increase_diverges :
  Examples.run (call_add Examples.F 1) (Team_init 10) = (Examples.team_F1, None)
  ∧ ∀ fuel,
      recursive_increase fuel Examples.team_F1 [Examples.F] Examples.team_max
      = ([], Some RecursionError).
Proof.
  split; [by vm_compute|].
  intros [|fuel]; [done|].
  rewrite recursive_increase_S, increase_team_F1. cbn [yield_from_each].
  by rewrite (proj1 (recursive_increase_cycle fuel)).
Qed.

(** ** C3: monotonic levels *)

(** C3.  Levels are not monotonic.  On [Team(limit=10)], [add(F, 2)]
    returns and stores level 2; [add(F, 1)] then returns as well and stores
    level 1: the loop of [_add] skips the candidate 1, but [_add] goes on
    to [self.alliances.set(alliance, level)] with the loop variable. *)
Theorem add_lower_level_lowers :
  Examples.run (call_add Examples.F 2) (Team_init 10) = (Examples.team_F2, None)
  ∧ stored_level (Team.alliances Examples.team_F2) Examples.F = 2
  ∧ ∃ self',
      Examples.run (call_add Examples.F 1) Examples.team_F2 = (self', None)
      ∧ stored_level (Team.alliances self') Examples.F = 1
      ∧ TeamAlliances_size (Team.alliances Examples.team_F2) = 6
      ∧ TeamAlliances_size (Team.alliances self') = 3.
Proof.
  split; [by vm_compute|]. split; [by vm_compute|].
  eexists. split; [by vm_compute|]. by vm_compute.
Qed.


(** ** C4: the capacity invariant *)

(** C4, as the code has it.  In a well-formed universe (a hero lists an
    alliance once, and only alliances it is a member of and that have a
    positive level), a team whose [alliances.size] is within its [limit]
    is still within it after any [add], [add_max] or [add_hero] that
    returns: [_add] commits only after it has checked the size of the
    changed container against the limit, [_add_hero] admits a hero only if
    a faction was waiting for it or a place is free, and the convergence
    pass never raises the size. *)
Theorem capacity_invariant hero_alliances iter_set c self self' :
  wf_universe hero_alliances iter_set →
  TeamAlliances_size (Team.alliances self) ≤ Team.limit self →
  run hero_alliances iter_set c self = (self', None) →
  TeamAlliances_size (Team.alliances self') ≤ Team.limit self'.
Proof.
  intros Hwf Hpre Hrun.
  assert (Hadd : ∀ alliance levels,
            _add hero_alliances iter_set self alliance levels = (self', None) →
            TeamAlliances_size (Team.alliances self') ≤ Team.limit self').
  { intros alliance levels Hadd.
    apply _add_returns in Hadd as (size & level & _ & _ & Hfit & Hpost).
    apply (_post_add_size _ _ Hwf) in Hpost as (_ & Hle & _ & Hl).
    simpl in *. lia. }
  destruct c as [alliance level|alliance|hero]; simpl in Hrun.
  - unfold add in Hrun. destruct (decide _); [done|]. by eapply Hadd.
  - unfold add_max in Hrun. destruct (decide _); [done|]. by eapply Hadd.
  - apply _add_hero_returns in Hrun as [Hguard Hpost].
    apply (_post_add_size _ _ Hwf) in Hpost as (_ & Hle & _ & Hl).
    simpl in *. rewrite Hl.
    change (TeamAlliances.mk _ _ _) with (with_hero (Team.alliances self) hero)
      in Hle.
    destruct Hguard as [(ta & Hin & Hpos & Hh)|Hroom].
    + pose proof (with_hero_size_awaited _ _ _ Hin Hpos Hh). lia.
    + pose proof (with_hero_size (Team.alliances self) hero). lia.
Qed.

Lemma capacity_invariant_witness :
  TeamAlliances_size (Team.alliances Examples.team_F2)
  ≤ Team.limit Examples.team_F2.
Proof.
  apply (capacity_invariant Examples.hero_alliances Examples.iter_set
           (call_add Examples.F 2) (Team_init 10)).
  - apply Examples_wf.
  - by vm_compute.
  - by vm_compute.
Defined.

(** The universe of [DoubleListing] is one [load] builds: it accepts the
    data of a hero that names an alliance twice. *)
Lemma double_listing_loads :
  load LoaderExample.lower DoubleListing.heroes DoubleListing.alliances ∅
  = inr ([Linked (HeroData.mk "h1" 1 None ["P"; "P"]) [0; 0]%nat None;
          Linked (HeroData.mk "h2" 1 None ["P"]) [0%nat] None],
         [DoubleListing.P]).
Proof. by vm_compute. Qed.

(** The claim as stated, for every team, fails: the condition on the
    universe is needed.  When the hero h1 lists the alliance P twice,
    [Team(limit=1).add_hero(h1)] returns: the last step of the
    convergence pass counts h1 twice and stores level 2 for P, of which
    the team holds one hero, so that [alliances.size] is 2, over the
    limit 1. *)
Lemma capacity_lost_with_double_listing :
  let self := Team_init 1 in
  TeamAlliances_size (Team.alliances self) ≤ Team.limit self
  ∧ ∃ self',
      DoubleListing.run (call_add_hero "h1") self = (self', None)
      ∧ TeamAlliances.team (Team.alliances self') = {["h1"]}
      ∧ TeamAlliances.mixed (Team.alliances self') = ∅
      ∧ stored_level (Team.alliances self') DoubleListing.P = 2
      ∧ TeamAlliances_size (Team.alliances self') = 2
      ∧ Team.limit self' = 1.
Proof.
  split; [by vm_compute|]. eexists. split; [by vm_compute|]. by vm_compute.
Qed.

(** ** C5: the disjointness invariant *)

(** C5.  The pool can hold heroes of no engaged faction.  After
    [Team(limit=10).add(P, 1).add(Q, 1).add(P, 0)], calls that all
    return, the sets are disjoint, Q is at level 1, P at level 0, and
    the pool, the three heroes P and Q share, is within the heroes of Q.
    Then [add(Q, 0)] returns as well: [_add] stores the level 0 it was
    asked for (the defect of C3), every entry is now at level 0, no
    hero was added by [add_hero], and the three heroes are still in the
    pool. *)
Theorem pool_outside_engaged_factions :
  ∃ self1 self2 self3 self4,
    Examples.run (call_add Examples.P 1) (Team_init 10) = (self1, None)
    ∧ Examples.run (call_add Examples.Q 1) self1 = (self2, None)
    ∧ Examples.run (call_add Examples.P 0) self2 = (self3, None)
    ∧ Examples.run (call_add Examples.Q 0) self3 = (self4, None)
    ∧ (TeamAlliances.team (Team.alliances self3)
         ## TeamAlliances.mixed (Team.alliances self3)
       ∧ stored_level (Team.alliances self3) Examples.Q = 1
       ∧ pool (Team.alliances self3) ⊆ Alliance.heroes Examples.Q)
    ∧ TeamAlliances.team (Team.alliances self4)
        ## TeamAlliances.mixed (Team.alliances self4)
    ∧ keys (Team.alliances self4) = [Examples.P; Examples.Q]
    ∧ (∀ ta, ta ∈ TeamAlliances.items (Team.alliances self4) →
             TeamAlliance.level ta = 0)
    ∧ pool (Team.alliances self4) = list_to_set ["h1"; "h2"; "h3"].
Proof.
  do 4 eexists. do 4 (split; [by vm_compute|]).
  split_and!.
  - apply (bool_decide_unpack _). by vm_compute.
  - by vm_compute.
  - apply (bool_decide_unpack _). by vm_compute.
  - apply (bool_decide_unpack _). by vm_compute.
  - by vm_compute.
  - apply Forall_forall. apply (bool_decide_unpack _). by vm_compute.
  - by vm_compute.
Qed.

(** ** C6: no candidate level fits *)

(** C6.  A call in which no candidate fits can return and commit a level.
    On the team [Team(limit=10).add(F, 2)], of size 6, [add(F, 3)] has the
    one candidate 3, above the stored level 2, whose amount 9 does not fit
    (6 + 9 > 10); the call returns all the same, with level 3 stored and
    nine heroes in the team. *)
Theorem add_commits_without_fit :
  let self := Examples.team_F2 in
  let tas := Team.alliances self in
  let ta := (getitem tas Examples.F).2 in
  TeamAlliance.level ta = 2
  ∧ Z.min 3 (Alliance.total Examples.F `div` Alliance.level Examples.F) = 3
  ∧ Team.limit self
    < TeamAlliances_size tas
      + level_up_amount tas ta 3 (reservation tas Examples.F).1
  ∧ ∃ self',
      Examples.run (call_add Examples.F 3) self = (self', None)
      ∧ stored_level (Team.alliances self') Examples.F = 3
      ∧ len (TeamAlliances.team (Team.alliances self')) = 9.
Proof.
  split; [by vm_compute|]. split; [by vm_compute|]. split; [by vm_compute|].
  eexists. split; [by vm_compute|]. by vm_compute.
Qed.


(** ** C7: [increase] *)

Lemma _increase_alternatives self alliances fn :
  (∀ alliance e, alliance ∈ alliances →
                 fn (Team_copy self) alliance = inl e →
                 ∃ kind, e = ValueError kind) →
  _increase self alliances fn = (omap (alternative self fn) alliances, None).
Proof.
  induction alliances as [|alliance alliances IH]; intros Hraise; [done|].
  assert (IH' : _increase self alliances fn
                = (omap (alternative self fn) alliances, None)).
  { apply IH. intros al e Hin. apply Hraise, elem_of_cons. by right. }
  simpl. unfold alternative at 1.
  destruct (fn (Team_copy self) alliance) as [e|value] eqn:Hfn.
  - destruct (Hraise alliance e ltac:(apply elem_of_cons; by left) Hfn)
      as [kind ->]. exact IH'.
  - destruct (Team_eq value self); simpl; [exact IH'|]. by rewrite IH'.
Qed.

(** The standard rules meet the condition of C7 on the alliances of a
    well-formed universe that have a positive step and room for one tier:
    there [_increase] yields the alternatives and ends normally. *)
Lemma _increase_standard_rule hero_alliances iter_set (fn : rule) self alliances :
  wf_universe hero_alliances iter_set →
  (fn = team_inc hero_alliances iter_set
   ∨ fn = team_max hero_alliances iter_set
   ∨ ∃ amount, fn = team_add hero_alliances iter_set amount) →
  (∀ alliance, alliance ∈ alliances →
     0 < Alliance.level alliance ≤ Alliance.total alliance) →
  _increase self alliances fn = (omap (alternative self fn) alliances, None).
Proof.
  intros Hwf Hfn Hall. apply _increase_alternatives.
  intros alliance e Hin Hraise. destruct (Hall alliance Hin) as [Hpos Htotal].
  by eapply standard_rule_raises.
Qed.



(** ** C8: equality and [copy] *)

Lemma Team_eq_true self other :
  Team_eq self other = true
  ↔ Team.size self = Team.size other
    ∧ Team.limit self = Team.limit other
    ∧ TeamAlliances.team (Team.alliances self)
      = TeamAlliances.team (Team.alliances other)
    ∧ TeamAlliances.mixed (Team.alliances self)
      = TeamAlliances.mixed (Team.alliances other)
    ∧ ∀ k, k ∈ keys (Team.alliances self) ↔ k ∈ keys (Team.alliances other).
Proof.
  unfold Team_eq, TeamAlliances_eq.
  rewrite !andb_true_iff, !bool_decide_eq_true, !Forall_forall.
  naive_solver.
Qed.

(** C8, as the code has it.  Two teams are equal exactly when they agree
    on size, limit, team set, mixed set and the set of factions that have
    an entry; the stored levels are not compared.  For a team [t] held in
    a well-formed object [self], [t.copy()] returns a team that is equal
    to [t], with the same entries and levels, and that is made of new
    objects only: a new team, a new container, new sets and new entries
    that refer back to the new container.  So whatever is then assigned
    to the objects of the copy, [self] still stands for [t]. *)
Theorem equality_and_copy h self t :
  team_value h self = Some t →
  team_parented h self →
  (∀ other,
     Team_eq t other = true
     ↔ Team.size t = Team.size other
       ∧ Team.limit t = Team.limit other
       ∧ TeamAlliances.team (Team.alliances t)
         = TeamAlliances.team (Team.alliances other)
       ∧ TeamAlliances.mixed (Team.alliances t)
         = TeamAlliances.mixed (Team.alliances other)
       ∧ ∀ k, k ∈ keys (Team.alliances t) ↔ k ∈ keys (Team.alliances other))
  ∧ Team_copy t = t
  ∧ Team_eq (Team_copy t) t = true
  ∧ ∃ h' new,
      Team_copy_obj h self = Some (h', new)
      ∧ team_value h' new = Some (Team_copy t)
      ∧ team_value h' self = Some t
      ∧ footprint h' new ## dom h
      ∧ team_parented h' new
      ∧ ∀ h'', writes_within (footprint h' new) h' h'' →
               team_value h'' self = Some t.
Proof.
  intros Hvalue Hpar.
  assert (Hcopy : Team_copy t = t).
  { destruct Hpar as (size & alliances & limit & Hself & Hpar).
    unfold team_value in Hvalue. rewrite Hself in Hvalue.
    destruct (alliances_value h alliances) as [v|] eqn:Hv; [|done].
    simpl in Hvalue. injection Hvalue as <-.
    unfold Team_copy, with_alliances, with_size. simpl.
    by rewrite (TeamAlliances_copy_id v (parented_NoDup _ _ _ Hv Hpar)). }
  split; [intros other; apply Team_eq_true|]. split; [done|].
  rewrite Hcopy. split; [by apply Team_eq_true|].
  destruct (Team_copy_obj_spec h self t Hvalue Hpar) as (h' & new & Hspec).
  by exists h', new.
Qed.

Lemma example_heap_parented : team_parented example_heap 4%positive.
Proof.
  exists 6, 3%positive, 10. split; [done|].
  exists [(Examples.F, 5%positive)], 1%positive, 2%positive.
  split; [done|]. split; [apply NoDup_singleton|].
  intros key value Hin. apply list_elem_of_singleton in Hin as [= -> ->].
  by exists 2.
Qed.

Lemma equality_and_copy_witness :
  Team_copy Examples.team_F2 = Examples.team_F2
  ∧ ∃ h' new,
      Team_copy_obj example_heap 4%positive = Some (h', new)
      ∧ team_value h' new = Some (Team_copy Examples.team_F2)
      ∧ footprint h' new ## dom example_heap.
Proof.
  destruct (equality_and_copy example_heap 4%positive Examples.team_F2)
    as (_ & Hcopy & _ & h' & new & Hrun & Hnew & _ & Hfresh & _).
  - by vm_compute.
  - apply example_heap_parented.
  - split; [exact Hcopy|]. exists h', new. by repeat split.
Defined.

(** The claim as stated fails: [Team(limit=10).add(F, 2)] and the team
    [add(F, 1)] makes of it are equal, and store different levels for
    [F]. *)
Lemma equal_teams_different_levels :
  Examples.run (call_add Examples.F 1) Examples.team_F2
  = (Examples.team_F2_lowered, None)
  ∧ Team_eq Examples.team_F2 Examples.team_F2_lowered = true
  ∧ stored_level (Team.alliances Examples.team_F2) Examples.F = 2
  ∧ stored_level (Team.alliances Examples.team_F2_lowered) Examples.F = 1.
Proof. by vm_compute. Qed.

(** ** C9: idempotent convergence *)

(** C9, as the code has it.  In a well-formed universe (a hero lists an
    alliance once, and only alliances it is a member of and that have a
    positive level), on the team that an [add], [add_max] or [add_hero]
    that returned has left of a reachable team, the convergence pass
    [_post_add] returns and changes nothing: not the team set, the mixed
    set, a stored level, nor anything else of the team. *)
Theorem convergence_idempotent hero_alliances iter_set c self self' :
  wf_universe hero_alliances iter_set →
  reachable hero_alliances iter_set self →
  run hero_alliances iter_set c self = (self', None) →
  _post_add hero_alliances iter_set self' = (self', None).
Proof.
  intros Hwf Hreach Hrun.
  apply reachable_disjoint in Hreach.
  assert (Hadd : ∀ alliance levels,
            _add hero_alliances iter_set self alliance levels = (self', None) →
            _post_add hero_alliances iter_set self' = (self', None)).
  { intros alliance levels Hadd.
    apply _add_returns in Hadd as (size & level & _ & _ & _ & Hpost).
    apply (_post_add_converges _ _ Hwf) in Hpost; [done|]. simpl.
    pose proof (getitem_sets (Team.alliances self) alliance) as [Ht Hm].
    apply (working_set_disjoint (Team.alliances self)); done. }
  destruct c as [alliance level|alliance|hero]; simpl in Hrun.
  - unfold add in Hrun. destruct (decide _); [done|]. by eapply Hadd.
  - unfold add_max in Hrun. destruct (decide _); [done|]. by eapply Hadd.
  - apply _add_hero_returns in Hrun as [_ Hpost].
    apply (_post_add_converges _ _ Hwf) in Hpost; [done|].
    apply (with_hero_disjoint (Team.alliances self) hero).
Qed.

Lemma convergence_idempotent_witness :
  _post_add Examples.hero_alliances Examples.iter_set Examples.team_F3
  = (Examples.team_F3, None).
Proof.
  apply (convergence_idempotent Examples.hero_alliances Examples.iter_set
           (call_add Examples.F 3) (Team_init 10) Examples.team_F3).
  - apply Examples_wf.
  - apply reachable_init.
  - by vm_compute.
Defined.

(** The claim as stated, for every state a successful mutation leaves,
    fails: the condition on the universe is needed.  When the hero h1
    lists the alliance P twice, [Team(limit=10).add_hero(h1)] returns
    with h1 in the team set and level 2 stored for P, and running
    [_post_add] on that team again promotes h2, the other member of P,
    into the team set and raises the level of P to 3. *)
Lemma convergence_repeats_with_double_listing :
  ∃ self' self'',
    DoubleListing.run (call_add_hero "h1") (Team_init 10) = (self', None)
    ∧ _post_add DoubleListing.hero_alliances Examples.iter_set self'
      = (self'', None)
    ∧ TeamAlliances.team (Team.alliances self') = {["h1"]}
    ∧ stored_level (Team.alliances self') DoubleListing.P = 2
    ∧ TeamAlliances.team (Team.alliances self'') = {["h1"; "h2"]}
    ∧ stored_level (Team.alliances self'') DoubleListing.P = 3
    ∧ self'' ≠ self'.
Proof.
  do 2 eexists. do 2 (split; [by vm_compute|]).
  split_and!; by vm_compute.
Qed.

(** ** C10: the cached size *)

(** The convergence pass and the post-check leave the cached size alone. *)
Lemma _post_add_alliance_loop_fields self d self' e :
  _post_add_alliance_loop self d = (self', e) →
  Team.size self' = Team.size self ∧ Team.limit self' = Team.limit self.
Proof.
  revert self. induction d as [|[alliance heroes] d IH]; intros self; simpl.
  - by intros [= <- _].
  - destruct (decide _); [by intros [= <- _]|].
    destruct (decide _); [apply IH|].
    intros Hrun. by apply IH in Hrun.
Qed.

Lemma _post_add_fields hero_alliances iter_set self self' e :
  _post_add hero_alliances iter_set self = (self', e) →
  Team.size self' = Team.size self ∧ Team.limit self' = Team.limit self.
Proof. intros Hrun. by apply _post_add_alliance_loop_fields in Hrun. Qed.

Lemma level_up_amount_entry tas tas' ta ta' level reserved :
  pool tas = pool tas' →
  TeamAlliance.alliance ta = TeamAlliance.alliance ta' →
  level_up_amount tas ta level reserved
  = level_up_amount tas' ta' level reserved.
Proof. intros Hp Ha. unfold level_up_amount, p_heroes. by rewrite Hp, Ha. Qed.

(** C10, as the code has it.  After an [add] or [add_max] that returns,
    the cached [Team.size] is the size the level loop of that call
    predicted: the [alliances.size] before the call, when no candidate
    above the stored level fits, or that size plus [level_up_amount] of
    one of the candidate levels of the call that is above the stored
    level; either way it is within the limit.  It is not read back from
    [alliances.size] after the commit and the convergence pass. *)
Theorem cached_size_is_predicted hero_alliances iter_set c alliance self self' :
  call_alliance c = Some alliance →
  run hero_alliances iter_set c self = (self', None) →
  let tas := Team.alliances self in
  let ta := TeamAlliance.mk alliance (stored_level tas alliance) in
  let amount level :=
    level_up_amount tas ta level (reservation tas alliance).1 in
  Team.size self' ≤ Team.limit self
  ∧ ((Team.size self' = TeamAlliances_size tas
      ∧ ∀ level, level ∈ call_levels c →
                 stored_level tas alliance < level →
                 Team.limit self < TeamAlliances_size tas + amount level)
     ∨ ∃ level,
         level ∈ call_levels c
         ∧ stored_level tas alliance < level
         ∧ Team.size self' = TeamAlliances_size tas + amount level).
Proof.
  intros Hc Hrun tas ta amount.
  assert (_add hero_alliances iter_set self alliance (call_levels c)
          = (self', None)) as Hadd.
  { destruct c as [al level|al|hero]; simpl in Hc, Hrun; [| |done];
      injection Hc as ->; [unfold add in Hrun|unfold add_max in Hrun];
      destruct (decide _); done. }
  apply _add_returns in Hadd as (size & level & Hsearch & Hsize & _ & Hpost).
  apply _post_add_fields in Hpost as [-> _]. simpl. split; [done|].
  pose proof (getitem_found (Team.alliances self) alliance) as [Hfound Hkey].
  assert (Hlevel : TeamAlliance.level (getitem (Team.alliances self) alliance).2
                   = stored_level tas alliance).
  { rewrite <- (getitem_stored_level tas alliance alliance).
    unfold stored_level. fold tas in Hfound. by rewrite Hfound. }
  assert (Hamount : ∀ l,
            level_up_amount (getitem (Team.alliances self) alliance).1
              (getitem (Team.alliances self) alliance).2 l
              (reservation (Team.alliances self) alliance).1
            = amount l).
  { intros l. apply level_up_amount_entry; [apply getitem_pool | done]. }
  apply level_search_cases in Hsearch
    as [(-> & _ & Hno)|(l & Hin & _ & Hgt & -> & _)];
    rewrite getitem_size.
  - left. split; [done|]. intros l Hin Hgt.
    specialize (Hno l Hin). rewrite Hlevel, getitem_size, Hamount in Hno.
    by apply Hno.
  - right. exists l. split; [done|]. split; [by rewrite <- Hlevel|].
    by rewrite Hamount.
Qed.

Lemma cached_size_is_predicted_witness :
  let tas := Team.alliances (Team_init 10) in
  let amount level := level_up_amount tas (TeamAlliance.mk Examples.F 0) level 0 in
  Team.size Examples.team_F2 ≤ 10
  ∧ ((Team.size Examples.team_F2 = 0
      ∧ ∀ level, level ∈ [2] → 0 < level → 10 < 0 + amount level)
     ∨ ∃ level,
         level ∈ [2] ∧ 0 < level
         ∧ Team.size Examples.team_F2 = 0 + amount level).
Proof.
  apply (cached_size_is_predicted Examples.hero_alliances Examples.iter_set
           (call_add Examples.F 2) Examples.F (Team_init 10) Examples.team_F2).
  - reflexivity.
  - by vm_compute.
Defined.

(** The claim as stated fails: [Team(limit=10).add(P, 1)] returns, and
    [add(Q, 1)] on it returns a team whose cached size is 2 while its
    [alliances.size] is 3 (the three heroes P and Q share are all merged
    into [mixed], one of them was reserved). *)
Lemma cached_size_differs :
  Examples.run (call_add Examples.P 1) (Team_init 10) = (Examples.team_P1, None)
  ∧ ∃ self',
      Examples.run (call_add Examples.Q 1) Examples.team_P1 = (self', None)
      ∧ Team.size self' = 2
      ∧ TeamAlliances_size (Team.alliances self') = 3.
Proof.
  split; [by vm_compute|]. eexists. split; [by vm_compute|]. by vm_compute.
Qed.

(** * Further properties of the code *)

(** ** The sizes of an entry *)

Section entry_sizes.
Implicit Types (tas : TeamAlliances.t) (ta : TeamAlliance.t)
  (l : list TeamAlliance.t) (alliance : Alliance.t).

Lemma a_size_max tas ta :
  a_size tas ta = Z.max 0 (total_size ta - len (p_heroes tas ta)).
Proof. unfold a_size, p_size. lia. Qed.

Lemma outstanding_sum tas l : outstanding tas l = sum (map (a_size tas) l).
Proof.
  unfold outstanding. apply sum_map_ext. intros ta _.
  pose proof (a_size_nonneg tas ta). lia.
Qed.

(** X1.  The outstanding size of an entry is never negative, whatever the
    stored level: it is [max(0, total_size - len(p_heroes))].  So the guard
    [max(0, ta.a_size)] in [TeamAlliances.size] never applies, and
    [alliances.size] is the number of heroes in [team] and [mixed] plus
    the outstanding sizes of the entries. *)
Theorem size_guard_never_applies tas :
  (∀ ta, a_size tas ta = Z.max 0 (total_size ta - len (p_heroes tas ta)))
  ∧ TeamAlliances_size tas
    = len (TeamAlliances.team tas) + len (TeamAlliances.mixed tas)
      + sum (map (a_size tas) (TeamAlliances.items tas)).
Proof.
  split; [intros ta; apply a_size_max|].
  unfold TeamAlliances_size. by rewrite outstanding_sum.
Qed.

Lemma level_up_amount_own tas ta :
  level_up_amount tas ta (TeamAlliance.level ta) 0 = a_size tas ta.
Proof. rewrite a_size_max. unfold level_up_amount, total_size. lia. Qed.

(** What [set_item] does to the sum of the outstanding sizes: the entry
    it replaces, or none, gives way to the new one. *)
Lemma outstanding_set_item_eq tas new l :
  outstanding tas (set_item new l)
  = outstanding tas l
    - match find_item (TeamAlliance.alliance new) l with
      | Some old => a_size tas old
      | None => 0
      end
    + a_size tas new.
Proof.
  rewrite !outstanding_sum.
  induction l as [|ta l IH]; simpl.
  - lia.
  - destruct (decide _) as [Heq|Hne]; simpl; lia.
Qed.

(** X2.  [level_up_amount] agrees with [a_size]: what an entry needs to
    reach the level it has already is its outstanding size.  And
    [set(alliance, level)] moves [alliances.size] by the amount of the new
    level less the outstanding size of the entry it replaces (an alliance
    without an entry counting as an entry at level 0). *)
Theorem set_changes_size_by_amount tas alliance level :
  let old := (getitem tas alliance).2 in
  level_up_amount tas old (TeamAlliance.level old) 0 = a_size tas old
  ∧ TeamAlliances_size (TeamAlliances_set tas alliance level)
    = TeamAlliances_size tas - a_size tas old
      + level_up_amount tas old level 0.
Proof.
  intros old. split; [apply level_up_amount_own|].
  assert (Hal : TeamAlliance.alliance old = alliance)
    by apply getitem_found.
  assert (Hnew : a_size (TeamAlliances_set tas alliance level)
                        (TeamAlliance.mk alliance level)
                 = level_up_amount tas old level 0).
  { rewrite a_size_max.
    unfold level_up_amount, total_size, p_heroes, pool, TeamAlliances_set.
    rewrite Hal. simpl. lia. }
  unfold TeamAlliances_size at 1 2. simpl.
  rewrite <- Hnew.
  assert (Hout : ∀ l, outstanding (TeamAlliances_set tas alliance level) l
                      = outstanding tas l).
  { intros l. unfold outstanding. apply sum_map_ext. intros ta _.
    unfold TeamAlliances_set. by rewrite a_size_with_items. }
  rewrite Hout, outstanding_set_item_eq. simpl.
  unfold TeamAlliances_set. rewrite (a_size_with_items tas).
  subst old. unfold getitem.
  destruct (find_item alliance (TeamAlliances.items tas)) as [ta|] eqn:Hfind;
    simpl.
  - lia.
  - rewrite a_size_from_empty. lia.
Qed.
End entry_sizes.

(** ** The heroes of an entry *)

Section entry_heroes.
Implicit Types (tas : TeamAlliances.t) (ta : TeamAlliance.t)
  (l : list TeamAlliance.t) (alliance : Alliance.t) (self : Team.t).

Lemma len_heroes_split tas ta :
  len (Alliance.heroes (TeamAlliance.alliance ta))
  = len (p_heroes tas ta) + len (a_heroes tas ta).
Proof.
  rewrite <- len_union_disjoint by (unfold p_heroes, a_heroes; set_solver).
  f_equal. unfold p_heroes, a_heroes. apply set_eq. intros x.
  destruct (decide (x ∈ pool tas)); set_solver.
Qed.

Lemma len_p_heroes_split tas ta :
  disjoint_sets tas →
  len (p_heroes tas ta) = len (t_heroes tas ta) + len (m_heroes tas ta).
Proof.
  intros Hdis. unfold disjoint_sets in Hdis.
  rewrite <- len_union_disjoint by (unfold t_heroes, m_heroes; set_solver).
  f_equal. unfold p_heroes, t_heroes, m_heroes, pool. set_solver.
Qed.

(** X3.  When [team] and [mixed] are disjoint, the two sets and the rest
    divide the heroes of an alliance in three: [t_heroes], [m_heroes] and
    [a_heroes] are disjoint and make up [alliance.heroes], and the three
    sizes [t_size], [m_size] and [a_size] add up to [total_size], with
    [m_size] between 0 and the number of mixed heroes of the alliance. *)
Theorem heroes_in_three tas ta :
  disjoint_sets tas →
  let heroes := Alliance.heroes (TeamAlliance.alliance ta) in
  heroes = t_heroes tas ta ∪ m_heroes tas ta ∪ a_heroes tas ta
  ∧ p_heroes tas ta = t_heroes tas ta ∪ m_heroes tas ta
  ∧ t_heroes tas ta ## m_heroes tas ta
  ∧ p_heroes tas ta ## a_heroes tas ta
  ∧ len heroes
    = len (t_heroes tas ta) + len (m_heroes tas ta) + len (a_heroes tas ta)
  ∧ t_size tas ta + m_size tas ta + a_size tas ta = total_size ta
  ∧ 0 ≤ m_size tas ta ≤ len (m_heroes tas ta)
  ∧ 0 ≤ a_size tas ta.
Proof.
  intros Hdis heroes.
  pose proof (len_heroes_split tas ta) as Hsplit.
  pose proof (len_p_heroes_split tas ta Hdis) as Hp.
  pose proof (len_nonneg (m_heroes tas ta)).
  pose proof (len_nonneg (t_heroes tas ta)).
  unfold disjoint_sets in Hdis.
  split_and!.
  - subst heroes. unfold t_heroes, m_heroes, a_heroes, pool. apply set_eq.
    intros x.
    destruct (decide (x ∈ TeamAlliances.team tas));
      destruct (decide (x ∈ TeamAlliances.mixed tas)); set_solver.
  - unfold p_heroes, t_heroes, m_heroes, pool. set_solver.
  - unfold t_heroes, m_heroes. set_solver.
  - unfold p_heroes, a_heroes. set_solver.
  - subst heroes. lia.
  - unfold m_size, a_size. lia.
  - apply m_size_nonneg.
  - unfold m_size, p_size, t_size. lia.
  - apply a_size_nonneg.
Qed.

Lemma heroes_in_three_witness :
  let tas := Team.alliances Examples.team_F2 in
  let ta := TeamAlliance.mk Examples.F 2 in
  let heroes := Alliance.heroes (TeamAlliance.alliance ta) in
  heroes = t_heroes tas ta ∪ m_heroes tas ta ∪ a_heroes tas ta
  ∧ p_heroes tas ta = t_heroes tas ta ∪ m_heroes tas ta
  ∧ t_heroes tas ta ## m_heroes tas ta
  ∧ p_heroes tas ta ## a_heroes tas ta
  ∧ len heroes
    = len (t_heroes tas ta) + len (m_heroes tas ta) + len (a_heroes tas ta)
  ∧ t_size tas ta + m_size tas ta + a_size tas ta = total_size ta
  ∧ 0 ≤ m_size tas ta ≤ len (m_heroes tas ta)
  ∧ 0 ≤ a_size tas ta.
Proof.
  apply (heroes_in_three (Team.alliances Examples.team_F2)
           (TeamAlliance.mk Examples.F 2)).
  apply (bool_decide_unpack _). by vm_compute.
Defined.

(** The two tests of [_post_check] on one entry. *)
Lemma a_check_iff tas ta :
  len (a_heroes tas ta) < a_size tas ta
  ↔ len (Alliance.heroes (TeamAlliance.alliance ta)) < total_size ta.
Proof.
  rewrite a_size_max, (len_heroes_split tas ta).
  pose proof (len_nonneg (a_heroes tas ta)). lia.
Qed.

Lemma m_check_never tas ta :
  disjoint_sets tas → m_size tas ta ≤ len (m_heroes tas ta).
Proof.
  intros Hdis. pose proof (len_p_heroes_split tas ta Hdis).
  pose proof (len_nonneg (m_heroes tas ta)).
  unfold m_size, p_size, t_size. lia.
Qed.

Lemma _post_check_loop_staffed self prev_tas l :
  disjoint_sets (Team.alliances self) →
  _post_check_loop self prev_tas l = (self, None)
  ↔ ∀ ta, ta ∈ l →
          total_size ta ≤ len (Alliance.heroes (TeamAlliance.alliance ta)).
Proof.
  intros Hdis. induction l as [|ta l IH]; simpl.
  - split; [|done]. intros _ ta Hin. by apply elem_of_nil in Hin.
  - pose proof (a_check_iff (Team.alliances self) ta) as Ha.
    pose proof (m_check_never (Team.alliances self) ta Hdis) as Hm.
    destruct (Z.ltb_spec (len (a_heroes (Team.alliances self) ta))
                         (a_size (Team.alliances self) ta)) as [Hlt|Hge].
    + split; [done|]. intros Hall.
      specialize (Hall ta (list_elem_of_here _ _)). lia.
    + destruct (Z.ltb_spec (len (m_heroes (Team.alliances self) ta))
                           (m_size (Team.alliances self) ta)) as [Hlt|_];
        [lia|].
      rewrite IH. split.
      * intros Hall ta' [->|Hin]%elem_of_cons; [lia|by apply Hall].
      * intros Hall ta' Hin. apply Hall. by apply list_elem_of_further.
Qed.

Lemma _post_check_staffed self prev_tas :
  disjoint_sets (Team.alliances self) →
  _post_check self prev_tas = (self, None) →
  staffed (Team.alliances self).
Proof.
  intros Hdis Hcheck.
  destruct (_post_check_loop_staffed self prev_tas
              (TeamAlliances.items (Team.alliances self)) Hdis) as [Hall _].
  exact (Hall Hcheck).
Qed.

(** X4.  On a team whose [team] and [mixed] are disjoint, [_post_check]
    passes exactly when no entry asks for more heroes than its alliance
    has: the test on the mixed heroes cannot fail there, and the test on
    the alliance heroes does not depend on which heroes are in the pool.
    When it does not pass, it has put [prev_tas] back and raises the
    composition error. *)
Theorem post_check_passes_iff_staffed self prev_tas :
  disjoint_sets (Team.alliances self) →
  (_post_check self prev_tas = (self, None) ↔ staffed (Team.alliances self))
  ∧ (¬ staffed (Team.alliances self) →
     _post_check self prev_tas
     = (with_alliances self prev_tas, Some (ValueError Composition))).
Proof.
  intros Hdis.
  pose proof (_post_check_loop_staffed self prev_tas
                (TeamAlliances.items (Team.alliances self)) Hdis) as Hiff.
  split; [exact Hiff|].
  intros Hnot. destruct (_post_check_cases self prev_tas) as [Hok|Hko]; [|done].
  destruct Hnot. destruct Hiff as [Hstaffed _]. exact (Hstaffed Hok).
Qed.

Lemma post_check_passes_iff_staffed_witness :
  (_post_check Examples.team_F2 (Team.alliances (Team_init 10))
   = (Examples.team_F2, None)
   ↔ staffed (Team.alliances Examples.team_F2))
  ∧ (¬ staffed (Team.alliances Examples.team_F2) →
     _post_check Examples.team_F2 (Team.alliances (Team_init 10))
     = (with_alliances Examples.team_F2 (Team.alliances (Team_init 10)),
        Some (ValueError Composition))).
Proof.
  apply (post_check_passes_iff_staffed Examples.team_F2
           (Team.alliances (Team_init 10))).
  apply (bool_decide_unpack _). by vm_compute.
Defined.
End entry_heroes.

(** ** What a call that returns has done *)

Section key_facts.
Variable hero_alliances : Hero → list Alliance.t.
Variable iter_set : gset Hero → list Hero.
Implicit Types (tas : TeamAlliances.t) (ta : TeamAlliance.t)
  (l : list TeamAlliance.t) (alliance : Alliance.t) (self : Team.t).

Lemma raise_level_NoDup tas alliance level :
  NoDup (keys tas) → NoDup (keys (raise_level tas alliance level)).
Proof.
  intros Hnd. unfold raise_level.
  pose proof (getitem_NoDup tas alliance Hnd) as Hnd1.
  destruct (getitem tas alliance) as [tas1 ta]. simpl in Hnd1.
  destruct (_ >? _); [|done].
  unfold set_level, keys. simpl. by apply set_item_NoDup.
Qed.

Lemma _post_add_alliance_loop_NoDup self d self' e :
  NoDup (keys (Team.alliances self)) →
  _post_add_alliance_loop self d = (self', e) →
  NoDup (keys (Team.alliances self')).
Proof.
  revert self. induction d as [|[alliance heroes] d IH]; intros self Hnd; simpl.
  - by intros [= <- _].
  - destruct (decide (Alliance.level alliance = 0)); [by intros [= <- _]|].
    destruct (decide (_ = 0)); [by apply IH|].
    apply IH. simpl. by apply raise_level_NoDup.
Qed.

Lemma _post_add_NoDup self self' e :
  NoDup (keys (Team.alliances self)) →
  _post_add hero_alliances iter_set self = (self', e) →
  NoDup (keys (Team.alliances self')).
Proof.
  intros Hnd. unfold _post_add, _post_add_alliance.
  apply _post_add_alliance_loop_NoDup.
  by rewrite _post_add_team_alliances, _post_add_mixed_alliances.
Qed.

Lemma _post_check_NoDup self prev_tas self' e :
  NoDup (keys (Team.alliances self)) → NoDup (keys prev_tas) →
  _post_check self prev_tas = (self', e) →
  NoDup (keys (Team.alliances self')).
Proof.
  intros Hnd Hprev.
  destruct (_post_check_cases self prev_tas) as [-> | ->];
    by intros [= <- _].
Qed.

Lemma _add_NoDup self alliance levels self' e :
  NoDup (keys (Team.alliances self)) →
  _add hero_alliances iter_set self alliance levels = (self', e) →
  NoDup (keys (Team.alliances self')).
Proof.
  intros Hnd. unfold _add.
  destruct (reservation _ _) as [reserved team].
  pose proof (getitem_NoDup (Team.alliances self) alliance Hnd) as Hnd1.
  destruct (getitem (Team.alliances self) alliance) as [tas1 ta]; simpl in *.
  destruct (level_search _ _ _ _ _ _ _) as [size level].
  destruct (size >? Team.limit self); [by intros [= <- _]|].
  rewrite (TeamAlliances_copy_id tas1 Hnd1).
  destruct level as [level|]; [|by intros [= <- _]].
  destruct (_ >? Team.limit self); [by intros [= <- _]|].
  assert (Hnd2 : NoDup (keys (TeamAlliances_set
            (with_mixed tas1 (TeamAlliances.mixed tas1 ∪ team ∖ pool (Team.alliances self)))
            alliance level))).
  { unfold TeamAlliances_set, keys. simpl. by apply set_item_NoDup. }
  match goal with |- context [_post_check ?s ?p] =>
    destruct (_post_check_cases s p) as [-> | ->] end.
  - by apply _post_add_NoDup.
  - by intros [= <- _].
Qed.

Lemma _add_hero_NoDup self hero self' e :
  NoDup (keys (Team.alliances self)) →
  _add_hero hero_alliances iter_set self hero = (self', e) →
  NoDup (keys (Team.alliances self')).
Proof.
  intros Hnd. unfold _add_hero.
  destruct (negb _ && _); [by intros [= <- _]|].
  rewrite (TeamAlliances_copy_id _ Hnd).
  match goal with |- context [_post_check ?s ?p] =>
    destruct (_post_check_cases s p) as [-> | ->] end.
  - by apply _post_add_NoDup.
  - by intros [= <- _].
Qed.

Lemma run_NoDup c self self' e :
  NoDup (keys (Team.alliances self)) →
  run hero_alliances iter_set c self = (self', e) →
  NoDup (keys (Team.alliances self')).
Proof.
  intros Hnd. destruct c as [alliance level|alliance|hero]; simpl.
  - unfold add. destruct (decide _); [by intros [= <- _]|].
    by apply _add_NoDup.
  - unfold add_max. destruct (decide _); [by intros [= <- _]|].
    by apply _add_NoDup.
  - by apply _add_hero_NoDup.
Qed.

(** A dictionary holds a key once. *)
Lemma reachable_NoDup self :
  reachable hero_alliances iter_set self → NoDup (keys (Team.alliances self)).
Proof.
  induction 1 as [limit|c self self' e _ IH Hrun].
  - apply NoDup_nil_2.
  - by eapply run_NoDup.
Qed.
End key_facts.

Section growth.
Variable hero_alliances : Hero → list Alliance.t.
Variable iter_set : gset Hero → list Hero.
Implicit Types (tas : TeamAlliances.t) (ta : TeamAlliance.t)
  (l : list TeamAlliance.t) (alliance : Alliance.t) (self : Team.t).

Lemma _post_add_alliance_loop_levels self d self' e :
  _post_add_alliance_loop self d = (self', e) →
  ∀ k, stored_level (Team.alliances self) k
       ≤ stored_level (Team.alliances self') k.
Proof.
  revert self. induction d as [|[alliance heroes] d IH]; intros self; simpl.
  - intros [= <- _] k. lia.
  - destruct (decide (Alliance.level alliance = 0));
      [intros [= <- _] k; lia|].
    destruct (decide (_ = 0)); [apply IH|].
    intros Hloop k. pose proof (IH _ Hloop k) as Hk. simpl in Hk.
    rewrite raise_level_stored in Hk.
    destruct (decide (k = alliance)); subst; lia.
Qed.

Lemma _post_add_grown self self' e :
  _post_add hero_alliances iter_set self = (self', e) →
  grown (Team.alliances self) (Team.alliances self').
Proof.
  unfold _post_add, _post_add_alliance. intros Hloop.
  pose proof (_post_add_alliance_loop_sets _ _ _ _ Hloop) as (Ht & Hm & Hk).
  pose proof (_post_add_alliance_loop_levels _ _ _ _ Hloop) as Hl.
  assert (Hitems : TeamAlliances.items
            (Team.alliances (_post_add_team (_post_add_mixed self)))
          = TeamAlliances.items (Team.alliances self)).
  { by rewrite _post_add_team_alliances, _post_add_mixed_alliances. }
  revert Hk Hl. unfold stored_level, keys. rewrite Hitems. intros Hk Hl.
  rewrite _post_add_team_alliances, _post_add_mixed_alliances in Ht, Hm.
  simpl in Ht, Hm.
  unfold grown, pool. rewrite Ht, Hm. split_and!.
  - set_solver.
  - intros x Hx.
    destruct (decide (x ∈ team_promotion
                (with_mixed (Team.alliances self)
                   (TeamAlliances.mixed (Team.alliances self)
                    ∪ mixed_promotion (Team.alliances self)))));
      set_solver.
  - intros k Hin. by apply Hk.
  - intros k. apply Hl.
Qed.
End growth.

Section level_facts.
Implicit Types (tas : TeamAlliances.t) (ta : TeamAlliance.t)
  (alliance : Alliance.t).

Lemma stored_level_set tas alliance level k :
  stored_level (TeamAlliances_set tas alliance level) k
  = if decide (k = alliance) then level else stored_level tas k.
Proof.
  unfold stored_level, TeamAlliances_set. simpl. rewrite find_set_item. simpl.
  destruct (decide (k = alliance)) as [->|Hne].
  - by rewrite decide_True.
  - by rewrite decide_False.
Qed.

Lemma level_search_elem tas ta reserved limit levels size0 level0 size level :
  level_search tas ta reserved limit levels size0 level0 = (size, Some level) →
  level ∈ levels ∨ level0 = Some level.
Proof.
  revert level0. induction levels as [|x xs IH]; intros level0; simpl.
  - intros [= _ ->]. by right.
  - destruct (_ && _).
    + intros [= _ ->]. left. apply list_elem_of_here.
    + intros [Hin|[= ->]]%IH; left.
      * by apply list_elem_of_further.
      * apply list_elem_of_here.
Qed.

End level_facts.

Section call_facts.
Variable hero_alliances : Hero → list Alliance.t.
Variable iter_set : gset Hero → list Hero.
Implicit Types (tas : TeamAlliances.t) (ta : TeamAlliance.t)
  (l : list TeamAlliance.t) (alliance : Alliance.t) (self : Team.t).

(** The convergence pass keeps the entries staffed: the entries it adds
    and the levels it raises are covered by heroes of the team. *)
Lemma _post_add_staffed self self' :
  wf_universe hero_alliances iter_set →
  staffed (Team.alliances self) →
  _post_add hero_alliances iter_set self = (self', None) →
  staffed (Team.alliances self').
Proof.
  intros Hwf Hstaffed Hpost.
  destruct (_post_add_returns _ _ Hwf self) as (self'' & Hrun & Hadv & _).
  rewrite Hrun in Hpost. injection Hpost as <-.
  intros ta' Hin. apply (adv_items _ _ Hadv) in Hin as [Hin|Hcov].
  - apply Hstaffed.
    by rewrite _post_add_team_alliances, _post_add_mixed_alliances in Hin.
  - unfold covered in Hcov. etrans; [exact Hcov|].
    apply len_mono. unfold t_heroes. set_solver.
Qed.

(** What [_add] has checked and committed when it returns. *)
Lemma _add_returns_checked self alliance levels self' :
  _add hero_alliances iter_set self alliance levels = (self', None) →
  let tas := Team.alliances self in
  let team := (reservation tas alliance).2 ∖ pool tas in
  let tas1 := (getitem tas alliance).1 in
  ∃ size level,
    level ∈ levels
    ∧ let tas2 :=
        TeamAlliances_set
          (with_mixed tas1 (TeamAlliances.mixed tas1 ∪ team)) alliance level in
      let checked := Team.mk size tas2 (Team.limit self) in
      _post_check checked (TeamAlliances_copy tas1) = (checked, None)
      ∧ _post_add hero_alliances iter_set checked = (self', None).
Proof.
  unfold _add.
  destruct (reservation _ _) as [reserved team].
  destruct (getitem (Team.alliances self) alliance) as [tas1 ta]; simpl.
  destruct (level_search _ _ _ _ _ _ _) as [size level] eqn:Hsearch.
  destruct (size >? Team.limit self); [done|].
  destruct level as [level|]; [|done].
  destruct (_ >? Team.limit self); [done|].
  match goal with |- context [_post_check ?s ?p] =>
    destruct (_post_check_cases s p) as [Hcheck | Hcheck]; rewrite Hcheck end;
    [|done].
  intros Hpost. exists size, level. split; [|done].
  by apply level_search_elem in Hsearch as [Hin|?].
Qed.

Lemma _add_grown self alliance levels self' :
  _add hero_alliances iter_set self alliance levels = (self', None) →
  alliance ∈ keys (Team.alliances self')
  ∧ TeamAlliances.team (Team.alliances self)
    ⊆ TeamAlliances.team (Team.alliances self')
  ∧ pool (Team.alliances self) ⊆ pool (Team.alliances self')
  ∧ (∀ k, k ∈ keys (Team.alliances self) → k ∈ keys (Team.alliances self'))
  ∧ (∀ k, k ≠ alliance →
          stored_level (Team.alliances self) k
          ≤ stored_level (Team.alliances self') k)
  ∧ ∃ level, level ∈ levels
             ∧ level ≤ stored_level (Team.alliances self') alliance.
Proof.
  intros Hadd.
  apply _add_returns_checked in Hadd as (size & level & Hin & _ & Hpost).
  apply _post_add_grown in Hpost as (Ht & Hp & Hk & Hl). simpl in *.
  pose proof (getitem_sets (Team.alliances self) alliance) as [Hteam Hmixed].
  assert (Hkey : ∀ k, k = alliance ∨ k ∈ keys (Team.alliances self) →
                      k ∈ keys (Team.alliances self')).
  { intros k Hk'. apply Hk. unfold keys, TeamAlliances_set. simpl.
    apply set_item_keys. simpl.
    destruct Hk' as [->|Hk']; [by left|right].
    apply (getitem_keys (Team.alliances self) alliance). by right. }
  split_and!.
  - apply Hkey. by left.
  - by rewrite <- Hteam.
  - etrans; [|exact Hp]. unfold pool. simpl. rewrite Hteam, Hmixed.
    set_solver.
  - intros k Hk'. apply Hkey. by right.
  - intros k Hne. specialize (Hl k). rewrite stored_level_set in Hl.
    rewrite decide_False in Hl by done.
    unfold stored_level in Hl at 1. simpl in Hl.
    fold (stored_level (getitem (Team.alliances self) alliance).1 k) in Hl.
    by rewrite getitem_stored_level in Hl.
  - exists level. split; [done|]. specialize (Hl alliance).
    rewrite stored_level_set in Hl. by rewrite decide_True in Hl.
Qed.

Lemma _add_hero_grown self hero self' :
  _add_hero hero_alliances iter_set self hero = (self', None) →
  hero ∈ TeamAlliances.team (Team.alliances self')
  ∧ grown (Team.alliances self) (Team.alliances self')
  ∧ Team.size self' = Team.size self
  ∧ Team.limit self' = Team.limit self.
Proof.
  intros Hadd. apply _add_hero_returns in Hadd as [_ Hpost].
  pose proof (_post_add_fields _ _ _ _ _ Hpost) as [Hsize Hlimit].
  apply _post_add_grown in Hpost as (Ht & Hp & Hk & Hl). simpl in *.
  split_and!; [clear -Ht; set_solver| |done|done].
  unfold grown. split_and!.
  - clear -Ht. set_solver.
  - etrans; [|exact Hp]. unfold pool. simpl. clear.
    intros x Hx. apply elem_of_union in Hx.
    rewrite elem_of_union, elem_of_difference, !elem_of_union,
      elem_of_singleton.
    destruct (decide (x ∈ TeamAlliances.team (Team.alliances self))),
      (decide (x = hero)); tauto.
  - done.
  - done.
Qed.

Lemma run_staffed c self self' :
  wf_universe hero_alliances iter_set →
  disjoint_sets (Team.alliances self) →
  run hero_alliances iter_set c self = (self', None) →
  staffed (Team.alliances self').
Proof.
  intros Hwf Hdis Hrun.
  assert (Hadd : ∀ alliance levels,
            _add hero_alliances iter_set self alliance levels = (self', None) →
            staffed (Team.alliances self')).
  { intros alliance levels Hadd.
    apply _add_returns_checked in Hadd as (size & level & _ & Hcheck & Hpost).
    apply (_post_add_staffed _ _ Hwf) in Hpost; [done|].
    apply _post_check_staffed in Hcheck; [done|]. simpl.
    pose proof (getitem_sets (Team.alliances self) alliance) as [Ht Hm].
    apply (working_set_disjoint (Team.alliances self)); done. }
  destruct c as [alliance level|alliance|hero]; simpl in Hrun.
  - unfold add in Hrun. destruct (decide _); [done|]. by eapply Hadd.
  - unfold add_max in Hrun. destruct (decide _); [done|]. by eapply Hadd.
  - unfold add_hero, _add_hero in Hrun.
    destruct (negb _ && _); [done|].
    match type of Hrun with context [_post_check ?s ?p] =>
      destruct (_post_check_cases s p) as [Hcheck | Hcheck];
      rewrite Hcheck in Hrun end; [|done].
    apply (_post_add_staffed _ _ Hwf) in Hrun; [done|].
    apply _post_check_staffed in Hcheck; [done|].
    apply (with_hero_disjoint (Team.alliances self) hero).
Qed.

(** The team a call that returned has left of a team with disjoint sets
    is converged. *)
Lemma run_converged c self self' :
  wf_universe hero_alliances iter_set →
  disjoint_sets (Team.alliances self) →
  run hero_alliances iter_set c self = (self', None) →
  _post_add hero_alliances iter_set self' = (self', None).
Proof.
  intros Hwf Hdis Hrun.
  assert (Hadd : ∀ alliance levels,
            _add hero_alliances iter_set self alliance levels = (self', None) →
            _post_add hero_alliances iter_set self' = (self', None)).
  { intros alliance levels Hadd.
    apply _add_returns in Hadd as (size & level & _ & _ & _ & Hpost).
    apply (_post_add_converges _ _ Hwf) in Hpost; [done|]. simpl.
    pose proof (getitem_sets (Team.alliances self) alliance) as [Ht Hm].
    apply (working_set_disjoint (Team.alliances self)); done. }
  destruct c as [alliance level|alliance|hero]; simpl in Hrun.
  - unfold add in Hrun. destruct (decide _); [done|]. by eapply Hadd.
  - unfold add_max in Hrun. destruct (decide _); [done|]. by eapply Hadd.
  - apply _add_hero_returns in Hrun as [_ Hpost].
    apply (_post_add_converges _ _ Hwf) in Hpost; [done|].
    apply (with_hero_disjoint (Team.alliances self) hero).
Qed.
End call_facts.

(** X5.  In a well-formed universe, after an [add], [add_max] or
    [add_hero] that returns on a team with disjoint sets, no entry asks
    for more heroes than its alliance has: [alliance.level * level] is at
    most [len(alliance.heroes)] for every entry, the ones the convergence
    pass has added or raised included. *)
Theorem returning_call_leaves_entries_staffed hero_alliances iter_set c
    self self' :
  wf_universe hero_alliances iter_set →
  disjoint_sets (Team.alliances self) →
  run hero_alliances iter_set c self = (self', None) →
  staffed (Team.alliances self').
Proof. intros Hwf Hdis Hrun. by eapply run_staffed. Qed.

Lemma returning_call_leaves_entries_staffed_witness :
  staffed (Team.alliances Examples.team_F2).
Proof.
  apply (returning_call_leaves_entries_staffed
           Examples.hero_alliances Examples.iter_set
           (call_add Examples.F 2) (Team_init 10)).
  - apply Examples_wf.
  - apply (bool_decide_unpack _). by vm_compute.
  - by vm_compute.
Defined.

(** X6.  In a well-formed universe the convergence pass [_post_add]
    returns on every team, and it only adds: the team set, the pool, the
    keys and the stored levels after it hold at least what they held,
    [alliances.size] has not grown, the heroes that are new in the pool
    are members of alliances that had an entry, and the cached size and
    the limit are as they were. *)
Theorem convergence_pass_only_adds hero_alliances iter_set self :
  wf_universe hero_alliances iter_set →
  ∃ self',
    _post_add hero_alliances iter_set self = (self', None)
    ∧ grown (Team.alliances self) (Team.alliances self')
    ∧ TeamAlliances_size (Team.alliances self')
      ≤ TeamAlliances_size (Team.alliances self)
    ∧ pool (Team.alliances self')
      ⊆ pool (Team.alliances self) ∪ heroes_of_entries (Team.alliances self)
    ∧ Team.size self' = Team.size self
    ∧ Team.limit self' = Team.limit self.
Proof.
  intros Hwf.
  destruct (_post_add_returns _ _ Hwf self) as (self' & Hrun & _).
  exists self'. split; [done|].
  pose proof (_post_add_grown _ _ _ _ _ Hrun) as Hgrown.
  pose proof (_post_add_size _ _ Hwf _ _ _ Hrun) as (_ & Hsize & Hs & Hl).
  pose proof (_post_add_pool _ _ _ _ _ Hrun) as (_ & _ & Hpool).
  done.
Qed.

Lemma convergence_pass_only_adds_witness :
  ∃ self',
    _post_add Examples.hero_alliances Examples.iter_set Examples.team_G_failed
    = (self', None)
    ∧ grown (Team.alliances Examples.team_G_failed) (Team.alliances self')
    ∧ TeamAlliances_size (Team.alliances self')
      ≤ TeamAlliances_size (Team.alliances Examples.team_G_failed)
    ∧ pool (Team.alliances self')
      ⊆ pool (Team.alliances Examples.team_G_failed)
        ∪ heroes_of_entries (Team.alliances Examples.team_G_failed)
    ∧ Team.size self' = Team.size Examples.team_G_failed
    ∧ Team.limit self' = Team.limit Examples.team_G_failed.
Proof.
  apply (convergence_pass_only_adds Examples.hero_alliances Examples.iter_set
           Examples.team_G_failed).
  apply Examples_wf.
Defined.

Lemma elem_of_range_down n l : l ∈ range_down n ↔ 1 ≤ l ≤ n.
Proof.
  unfold range_down.
  rewrite list_elem_of_In, <- in_rev, <- list_elem_of_In, list_elem_of_fmap.
  setoid_rewrite elem_of_seq. split.
  - intros (k & -> & Hk). lia.
  - intros Hl. exists (Z.to_nat l). lia.
Qed.

(** X7.  An [add] or [add_max] that returns has kept what was there and
    reached the level it was asked for: the alliance has an entry; the
    team set, the pool and the keys hold at least what they held; no
    other alliance has a lower stored level than before; and the stored
    level of the alliance is at least the level asked for, clamped to the
    highest level of the alliance, after [add], and at least 1 after
    [add_max]. *)
Theorem add_keeps_and_reaches hero_alliances iter_set c alliance self self' :
  call_alliance c = Some alliance →
  run hero_alliances iter_set c self = (self', None) →
  alliance ∈ keys (Team.alliances self')
  ∧ TeamAlliances.team (Team.alliances self)
    ⊆ TeamAlliances.team (Team.alliances self')
  ∧ pool (Team.alliances self) ⊆ pool (Team.alliances self')
  ∧ (∀ k, k ∈ keys (Team.alliances self) → k ∈ keys (Team.alliances self'))
  ∧ (∀ k, k ≠ alliance →
          stored_level (Team.alliances self) k
          ≤ stored_level (Team.alliances self') k)
  ∧ (∀ level, c = call_add alliance level →
       Z.min level (Alliance.total alliance `div` Alliance.level alliance)
       ≤ stored_level (Team.alliances self') alliance)
  ∧ (c = call_add_max alliance →
     1 ≤ stored_level (Team.alliances self') alliance).
Proof.
  intros Hc Hrun.
  destruct c as [alliance' level|alliance'|hero]; simpl in Hc, Hrun;
    [injection Hc as -> ..|done].
  - unfold add in Hrun. destruct (decide _); [done|].
    apply _add_grown in Hrun as (Hkey & Ht & Hp & Hk & Hl & l & Hin & Hle).
    apply list_elem_of_singleton in Hin as ->.
    split_and!; [done..| |done].
    by intros level' [= ->].
  - unfold add_max in Hrun. destruct (decide _); [done|].
    apply _add_grown in Hrun as (Hkey & Ht & Hp & Hk & Hl & l & Hin & Hle).
    apply elem_of_range_down in Hin.
    split_and!; [done..| |intros _; lia].
    by intros level' [=].
Qed.

Lemma add_keeps_and_reaches_witness :
  Examples.Q ∈ keys (Team.alliances (Examples.run (call_add Examples.Q 1)
                                        Examples.team_P1).1)
  ∧ 1 ≤ stored_level (Team.alliances (Examples.run (call_add Examples.Q 1)
                                         Examples.team_P1).1) Examples.Q.
Proof.
  destruct (add_keeps_and_reaches Examples.hero_alliances Examples.iter_set
              (call_add Examples.Q 1) Examples.Q Examples.team_P1
              (Examples.run (call_add Examples.Q 1) Examples.team_P1).1)
    as (Hkey & _ & _ & _ & _ & Hlevel & _).
  - done.
  - by vm_compute.
  - split; [exact Hkey|]. exact (Hlevel 1 eq_refl).
Defined.

(** X8.  An [add_hero] that returns has put the hero in the team set and
    has only added: the team set, the pool, the keys and every stored
    level hold at least what they held.  It has not touched the cached
    size nor the limit. *)
Theorem add_hero_keeps_and_adds hero_alliances iter_set self hero self' :
  add_hero hero_alliances iter_set self hero = (self', None) →
  hero ∈ TeamAlliances.team (Team.alliances self')
  ∧ grown (Team.alliances self) (Team.alliances self')
  ∧ Team.size self' = Team.size self
  ∧ Team.limit self' = Team.limit self.
Proof. apply _add_hero_grown. Qed.

Lemma add_hero_keeps_and_adds_witness :
  let self' := (Examples.run (call_add_hero "h4") Examples.team_P1).1 in
  "h4" ∈ TeamAlliances.team (Team.alliances self')
  ∧ grown (Team.alliances Examples.team_P1) (Team.alliances self')
  ∧ Team.size self' = Team.size Examples.team_P1
  ∧ Team.limit self' = Team.limit Examples.team_P1.
Proof.
  apply (add_hero_keeps_and_adds Examples.hero_alliances Examples.iter_set
           Examples.team_P1 "h4").
  by vm_compute.
Defined.

(** X9.  In a well-formed universe an [add_hero] that returns costs one
    place at most: [alliances.size] grows by 1 at most, and not at all
    when an entry with outstanding heroes had the hero among its
    [a_heroes]. *)
Theorem add_hero_costs_one_place_at_most hero_alliances iter_set self hero
    self' :
  wf_universe hero_alliances iter_set →
  add_hero hero_alliances iter_set self hero = (self', None) →
  TeamAlliances_size (Team.alliances self')
  ≤ TeamAlliances_size (Team.alliances self) + 1
  ∧ ((∃ ta, ta ∈ TeamAlliances.items (Team.alliances self)
            ∧ 0 < a_size (Team.alliances self) ta
            ∧ hero ∈ a_heroes (Team.alliances self) ta) →
     TeamAlliances_size (Team.alliances self')
     ≤ TeamAlliances_size (Team.alliances self)).
Proof.
  intros Hwf Hrun. apply _add_hero_returns in Hrun as [_ Hpost].
  apply (_post_add_size _ _ Hwf) in Hpost as (_ & Hle & _).
  simpl in Hle.
  change (TeamAlliances.mk _ _ _) with (with_hero (Team.alliances self) hero)
    in Hle.
  split.
  - pose proof (with_hero_size (Team.alliances self) hero). lia.
  - intros (ta & Hin & Hpos & Hh).
    pose proof (with_hero_size_awaited _ _ _ Hin Hpos Hh). lia.
Qed.

Lemma add_hero_costs_one_place_at_most_witness :
  let self' := (Examples.run (call_add_hero "h1") Examples.team_F1).1 in
  TeamAlliances_size (Team.alliances self')
  ≤ TeamAlliances_size (Team.alliances Examples.team_F1) + 1
  ∧ ((∃ ta, ta ∈ TeamAlliances.items (Team.alliances Examples.team_F1)
            ∧ 0 < a_size (Team.alliances Examples.team_F1) ta
            ∧ "h1" ∈ a_heroes (Team.alliances Examples.team_F1) ta) →
     TeamAlliances_size (Team.alliances self')
     ≤ TeamAlliances_size (Team.alliances Examples.team_F1)).
Proof.
  apply (add_hero_costs_one_place_at_most
           Examples.hero_alliances Examples.iter_set Examples.team_F1 "h1").
  - apply Examples_wf.
  - by vm_compute.
Defined.

(** X10.  In a well-formed universe [add_hero] is all or nothing on the
    teams a program can hold: when it raises, it raises a capacity or a
    composition error and the team is as it was before the call, cached
    size, keys and levels included. *)
Theorem failed_add_hero_changes_nothing hero_alliances iter_set self hero
    self' e :
  wf_universe hero_alliances iter_set →
  reachable hero_alliances iter_set self →
  add_hero hero_alliances iter_set self hero = (self', Some e) →
  self' = self ∧ ∃ kind, e = ValueError kind.
Proof.
  intros Hwf Hreach Hrun.
  assert (Hkind : ∃ kind, e = ValueError kind).
  { unfold add_hero, _add_hero in Hrun.
    destruct (negb _ && _); [injection Hrun as _ <-; by eexists|].
    match type of Hrun with context [_post_check ?s ?p] =>
      destruct (_post_check_cases s p) as [Hcheck | Hcheck];
      rewrite Hcheck in Hrun end.
    - by apply (_post_add_size _ _ Hwf) in Hrun as [? _].
    - injection Hrun as _ <-. by eexists. }
  split; [|done]. destruct Hkind as [kind ->].
  apply reachable_NoDup in Hreach.
  by eapply _add_hero_failed.
Qed.

Lemma failed_add_hero_changes_nothing_witness :
  ∃ self' e,
    add_hero Examples.hero_alliances Examples.iter_set team_P3_full "h5"
    = (self', Some e)
    ∧ Team.size team_P3_full = 3
    ∧ TeamAlliances.team (Team.alliances team_P3_full)
      = {["h1"; "h2"; "h3"]}
    ∧ stored_level (Team.alliances team_P3_full) Examples.P = 3
    ∧ (self' = team_P3_full ∧ ∃ kind, e = ValueError kind).
Proof.
  do 2 eexists. do 4 (split; [by vm_compute|]).
  apply (failed_add_hero_changes_nothing
           Examples.hero_alliances Examples.iter_set team_P3_full "h5").
  - apply Examples_wf.
  - apply (reachable_call _ _ (call_add Examples.P 3) (Team_init 3) _ None).
    + apply reachable_init.
    + by vm_compute.
  - by vm_compute.
Defined.

(** X11.  Adding a hero that is in the team set already.  On the team a
    call that returned has left (of a team with disjoint sets, in a
    well-formed universe), [add_hero] of a hero of the team set returns
    and changes nothing when a place is free, and raises the capacity
    error, changing nothing either, when [alliances.size] has reached the
    limit. *)
Theorem add_hero_again hero_alliances iter_set c self0 self hero :
  wf_universe hero_alliances iter_set →
  disjoint_sets (Team.alliances self0) →
  run hero_alliances iter_set c self0 = (self, None) →
  hero ∈ TeamAlliances.team (Team.alliances self) →
  (TeamAlliances_size (Team.alliances self) + 1 ≤ Team.limit self →
   add_hero hero_alliances iter_set self hero = (self, None))
  ∧ (Team.limit self < TeamAlliances_size (Team.alliances self) + 1 →
     add_hero hero_alliances iter_set self hero
     = (self, Some (ValueError Capacity))).
Proof.
  intros Hwf Hdis0 Hrun Hin.
  pose proof (run_disjoint _ _ _ _ _ _ Hdis0 Hrun) as Hdis.
  pose proof (run_staffed _ _ _ _ _ Hwf Hdis0 Hrun) as Hstaffed.
  pose proof (run_converged _ _ _ _ _ Hwf Hdis0 Hrun) as Hconv.
  unfold add_hero, _add_hero. split.
  - intros Hroom.
    assert (Hgt : (TeamAlliances_size (Team.alliances self) + 1
                   >? Team.limit self) = false).
    { rewrite Z.gtb_ltb. by apply Z.ltb_ge. }
    rewrite Hgt, andb_false_r.
    assert (Hsame : with_alliances self
              (with_mixed
                 (with_team (Team.alliances self)
                    (TeamAlliances.team (Team.alliances self) ∪ {[hero]}))
                 (TeamAlliances.mixed
                    (with_team (Team.alliances self)
                       (TeamAlliances.team (Team.alliances self) ∪ {[hero]}))
                  ∖ TeamAlliances.team
                      (with_team (Team.alliances self)
                         (TeamAlliances.team (Team.alliances self) ∪ {[hero]}))))
            = self).
    { destruct self as [size [items team mixed] limit].
      unfold with_alliances, with_mixed, with_team, disjoint_sets in *.
      simpl in *. f_equal. f_equal; clear -Hin Hdis; set_solver. }
    rewrite Hsame.
    destruct (_post_check_loop_staffed self
                (TeamAlliances_copy (Team.alliances self))
                (TeamAlliances.items (Team.alliances self)) Hdis) as [_ Hpass].
    unfold _post_check. by rewrite (Hpass Hstaffed).
  - intros Hfull.
    assert (Hgt : (TeamAlliances_size (Team.alliances self) + 1
                   >? Team.limit self) = true).
    { rewrite Z.gtb_ltb. by apply Z.ltb_lt. }
    rewrite Hgt, andb_true_r.
    assert (Hnone : existsb
              (λ ta, (a_size (Team.alliances self) ta >? 0)
                     && bool_decide (hero ∈ a_heroes (Team.alliances self) ta))
              (TeamAlliances.items (Team.alliances self)) = false).
    { apply not_true_is_false. intros (ta & _ & Hta)%existsb_exists.
      apply andb_true_iff in Hta as [_ Hh]. apply bool_decide_eq_true in Hh.
      unfold a_heroes, pool in Hh. clear -Hh Hin. set_solver. }
    by rewrite Hnone.
Qed.

Lemma add_hero_again_witness :
  (TeamAlliances_size (Team.alliances Examples.team_F3) + 1
   ≤ Team.limit Examples.team_F3 →
   add_hero Examples.hero_alliances Examples.iter_set Examples.team_F3 "h1"
   = (Examples.team_F3, None))
  ∧ (Team.limit Examples.team_F3
     < TeamAlliances_size (Team.alliances Examples.team_F3) + 1 →
     add_hero Examples.hero_alliances Examples.iter_set Examples.team_F3 "h1"
     = (Examples.team_F3, Some (ValueError Capacity))).
Proof.
  apply (add_hero_again Examples.hero_alliances Examples.iter_set
           (call_add Examples.F 3) (Team_init 10)).
  - apply Examples_wf.
  - apply (bool_decide_unpack _). by vm_compute.
  - by vm_compute.
  - apply (bool_decide_unpack _). by vm_compute.
Defined.

(** ** The level loop of [add_max] *)

Section level_loop.
Implicit Types (tas : TeamAlliances.t) (ta : TeamAlliance.t).

Lemma range_down_cons n : 1 ≤ n → range_down n = n :: range_down (n - 1).
Proof.
  intros Hn. unfold range_down.
  replace (Z.to_nat n) with (S (Z.to_nat (n - 1))) by lia.
  rewrite seq_S, map_app, rev_app_distr. simpl. f_equal. lia.
Qed.

Lemma range_down_nil n : n < 1 → range_down n = [].
Proof.
  intros Hn. unfold range_down. by replace (Z.to_nat n) with O by lia.
Qed.

Lemma level_search_range_down tas ta reserved limit size (m : nat) level0 :
  let n := Z.of_nat m in
  let amount l := level_up_amount tas ta l reserved in
  let result := level_search tas ta reserved limit (range_down n) size level0 in
  (∃ l, result = (size + amount l, Some l)
        ∧ 1 ≤ l ≤ n ∧ TeamAlliance.level ta < l
        ∧ size + amount l ≤ limit
        ∧ ∀ l', l < l' ≤ n → TeamAlliance.level ta < l' →
                limit < size + amount l')
  ∨ (result = (size, if decide (1 ≤ n) then Some 1 else level0)
     ∧ ∀ l', 1 ≤ l' ≤ n → TeamAlliance.level ta < l' →
             limit < size + amount l').
Proof.
  revert level0. induction m as [|m IH]; intros level0 n amount result.
  - right. subst result. rewrite range_down_nil by lia. cbn [level_search].
    split; [by rewrite decide_False by lia|]. intros; lia.
  - subst result. rewrite range_down_cons by lia. cbn [level_search].
    replace (n - 1) with (Z.of_nat m) by lia.
    destruct (n >? TeamAlliance.level ta) eqn:Habove;
      rewrite Z.gtb_ltb in Habove;
      [apply Z.ltb_lt in Habove|apply Z.ltb_ge in Habove]; cbn [andb].
    + destruct (Z.leb_spec (size + level_up_amount tas ta n reserved) limit)
        as [Hfit|Hnofit].
      * left. exists n. split_and!; [done|lia|lia|done|done|intros; lia].
      * destruct (IH (Some n)) as [(l & Hres & Hl & Hab & Hfit & Hmax)|[Hres Hnone]].
        -- left. exists l. split_and!; [done|lia|lia|done|done|].
           intros l' Hl' Hab'. destruct (decide (l' = n)) as [->|?]; [done|].
           apply Hmax; [lia|done].
        -- right. split.
           ++ rewrite Hres. rewrite (decide_True (P := 1 ≤ n)) by lia.
              destruct (decide (1 ≤ Z.of_nat m)) as [?|Hm]; [done|].
              f_equal. f_equal. lia.
           ++ intros l' Hl' Hab'. destruct (decide (l' = n)) as [->|?]; [done|].
              apply Hnone; [lia|done].
    + destruct (IH (Some n)) as [(l & Hres & Hl & Hab & Hfit & Hmax)|[Hres Hnone]].
      * left. exists l. split_and!; [done|lia|lia|done|done|].
        intros l' Hl' Hab'. destruct (decide (l' = n)) as [->|?]; [lia|].
        apply Hmax; [lia|done].
      * right. split.
        -- rewrite Hres. rewrite (decide_True (P := 1 ≤ n)) by lia.
           destruct (decide (1 ≤ Z.of_nat m)) as [?|Hm]; [done|].
           f_equal. f_equal. lia.
        -- intros l' Hl' Hab'. destruct (decide (l' = n)) as [->|?]; [lia|].
           apply Hnone; [lia|done].
Qed.

(** X12.  The level loop of [_add] on the candidates of [add_max], the
    levels from [n] down to 1.  Either it stops at the highest candidate
    above the stored level whose amount fits in the limit, and [size] is
    the size with that amount; or no candidate above the stored level
    fits, [size] is unchanged, and the loop variable is left at the last
    candidate, level 1, which [_add] then commits. *)
Theorem add_max_takes_highest_level_that_fits tas ta reserved limit size n :
  let amount l := level_up_amount tas ta l reserved in
  let result := level_search tas ta reserved limit (range_down n) size None in
  (∃ l, result = (size + amount l, Some l)
        ∧ 1 ≤ l ≤ n ∧ TeamAlliance.level ta < l
        ∧ size + amount l ≤ limit
        ∧ ∀ l', l < l' ≤ n → limit < size + amount l')
  ∨ (result = (size, if decide (1 ≤ n) then Some 1 else None)
     ∧ ∀ l', 1 ≤ l' ≤ n → TeamAlliance.level ta < l' →
             limit < size + amount l').
Proof.
  intros amount result.
  destruct (decide (0 ≤ n)) as [Hn|Hn].
  - pose proof (level_search_range_down tas ta reserved limit size
                  (Z.to_nat n) None) as Hloop.
    simpl in Hloop. rewrite Z2Nat.id in Hloop by done.
    destruct Hloop as [(l & Hres & Hl & Hab & Hfit & Hmax)|Hnone]; [|by right].
    left. exists l. split_and!; [done|lia|lia|done|done|].
    intros l' Hl'. apply Hmax; [done|lia].
  - right. subst result. rewrite range_down_nil by lia. cbn [level_search].
    split; [by rewrite decide_False by lia|]. intros; lia.
Qed.
End level_loop.

(** ** An alliance without a level *)

(** X13.  [add_max] of an alliance whose [total] is below its [level]
    has no candidate: on a team within its limit it ends in
    [UnboundLocalError], at [self.alliances.set(alliance, level)], and not
    in a [ValueError].  [_increase] does not catch it: with the rule
    [team_max], [increase] on a team a program can hold yields nothing and
    ends in that exception as soon as such an alliance is the first
    candidate. *)
Theorem add_max_without_candidate hero_alliances iter_set self alliance :
  reachable hero_alliances iter_set self →
  Alliance.level alliance ≠ 0 →
  Alliance.total alliance `div` Alliance.level alliance < 1 →
  TeamAlliances_size (Team.alliances self) ≤ Team.limit self →
  (add_max hero_alliances iter_set self alliance).2 = Some UnboundLocalError
  ∧ ∀ alliances,
      increase self (alliance :: alliances) (team_max hero_alliances iter_set)
      = ([], Some UnboundLocalError).
Proof.
  intros Hreach Hlevel Htotal Hsize.
  assert (Hadd : (add_max hero_alliances iter_set self alliance).2
                 = Some UnboundLocalError).
  { unfold add_max. rewrite decide_False by done.
    rewrite range_down_nil by done. unfold _add.
    destruct (reservation _ _) as [reserved team].
    pose proof (getitem_size (Team.alliances self) alliance) as Hsize1.
    destruct (getitem (Team.alliances self) alliance) as [tas1 ta].
    simpl in *.
    destruct (Z.gtb_spec (TeamAlliances_size tas1) (Team.limit self)); [lia|].
    done. }
  split; [done|]. intros alliances.
  unfold increase. simpl.
  assert (Hcopy : Team_copy self = self).
  { unfold Team_copy. rewrite TeamAlliances_copy_id
      by by eapply reachable_NoDup.
    by destruct self. }
  rewrite Hcopy. unfold team_max at 1.
  destruct (add_max hero_alliances iter_set self alliance) as [self' e].
  simpl in Hadd. by subst e.
Qed.

Lemma add_max_without_candidate_witness :
  let alliance := Alliance.mk "lone" 3 2 "no tier" ∅ in
  (add_max Examples.hero_alliances Examples.iter_set (Team_init 10) alliance).2
  = Some UnboundLocalError
  ∧ ∀ alliances,
      increase (Team_init 10) (alliance :: alliances)
        (team_max Examples.hero_alliances Examples.iter_set)
      = ([], Some UnboundLocalError).
Proof.
  apply (add_max_without_candidate Examples.hero_alliances Examples.iter_set
           (Team_init 10) (Alliance.mk "lone" 3 2 "no tier" ∅)).
  - apply reachable_init.
  - simpl. lia.
  - by vm_compute.
  - by vm_compute.
Defined.

(** ** What [recursive_increase] yields *)

Section exploration_facts.
Variable alliances : list Alliance.t.
Variable fn : rule.

Lemma _increase_elem self candidates value :
  value ∈ (_increase self candidates fn).1 →
  ∃ alliance, alliance ∈ candidates
              ∧ alternative self fn alliance = Some value.
Proof.
  induction candidates as [|alliance candidates IH]; simpl.
  - by intros ?%elem_of_nil.
  - assert (Hrest : value ∈ (_increase self candidates fn).1 →
              ∃ alliance', alliance' ∈ alliance :: candidates
                           ∧ alternative self fn alliance' = Some value).
    { intros (alliance' & Hin & Halt)%IH. exists alliance'.
      split; [by apply list_elem_of_further|done]. }
    destruct (fn (Team_copy self) alliance) as [[kind| | |]|value'] eqn:Hfn;
      try done.
    + by intros ?%elem_of_nil.
    + by intros ?%elem_of_nil.
    + by intros ?%elem_of_nil.
    + destruct (Team_eq value' self) eqn:Heq; simpl; [done|].
      destruct (_increase self candidates fn) as [rest e]. simpl in *.
      intros [->|Hin]%elem_of_cons; [|by apply Hrest].
      exists alliance. split; [apply list_elem_of_here|].
      unfold alternative. by rewrite Hfn, Heq.
Qed.

Lemma yield_from_each_elem (P : Team.t → Prop) sub teams e :
  (∀ team, team ∈ teams → Forall P (sub team).1) →
  Forall P (yield_from_each sub teams e).1.
Proof.
  induction teams as [|team teams IH]; intros Hsub; simpl; [done|].
  pose proof (Hsub team (list_elem_of_here _ _)) as Hteam.
  destruct (sub team) as [vs [ev|]]; simpl in *; [done|].
  destruct (yield_from_each sub teams e) as [rest e'] eqn:Hrest. simpl in *.
  apply Forall_app. split; [done|].
  apply IH. intros team' Hin. apply Hsub. by apply list_elem_of_further.
Qed.

Lemma yield_from_each_nil sub teams e :
  (∀ team vs, team ∈ teams → sub team = (vs, None) → vs ≠ []) →
  yield_from_each sub teams e = ([], None) →
  teams = [] ∧ e = None.
Proof.
  destruct teams as [|team teams]; simpl.
  - by intros _ [= ->].
  - intros Hsub. destruct (sub team) as [vs [ev|]] eqn:Hteam; [done|].
    destruct (yield_from_each sub teams e) as [rest e''].
    intros [= Happ _]. apply app_eq_nil in Happ as [-> _].
    by destruct (Hsub team [] (list_elem_of_here _ _) Hteam).
Qed.

Lemma recursive_increase_elem fuel self :
  Forall (λ team, rtc (explores alliances fn) self team
                  ∧ _increase team alliances fn = ([], None))
         (recursive_increase fuel self alliances fn).1.
Proof.
  revert self. induction fuel as [|fuel IH]; intros self;
    [apply Forall_nil_2|].
  rewrite recursive_increase_S.
  destruct (_increase self alliances fn) as [ts e0] eqn:Hinc.
  pose proof (yield_from_each_elem
    (λ team, rtc (explores alliances fn) self team
             ∧ _increase team alliances fn = ([], None))
    (λ team, recursive_increase fuel team alliances fn) ts e0) as Hvalues.
  destruct (yield_from_each _ ts e0) as [values e1] eqn:Hyield.
  simpl in Hvalues.
  assert (Hcase : (values = [] ∧ e1 = None) ∨ iter_or (values, e1) self = (values, e1)).
  { destruct values as [|v vs]; [destruct e1|]; auto. }
  destruct Hcase as [[-> ->]| ->].
  - simpl. apply Forall_singleton. split; [done|].
    apply yield_from_each_nil in Hyield as [-> ->]; [done|].
    intros team vs _ Hsub. by eapply recursive_increase_yields.
  - simpl. apply Hvalues. intros team Hin.
    eapply Forall_impl; [apply IH|]. intros value [Hrtc Hdead].
    split; [|done]. eapply rtc_l; [|exact Hrtc].
    apply _increase_elem. by rewrite Hinc.
Qed.
End exploration_facts.

(** X14.  Every team [recursive_increase] yields is a dead end reached
    from [self], however the generator ends: normally, in an exception
    of the rule, or in the [RecursionError] of a branch that goes deeper
    than the interpreter allows, after teams of earlier branches have
    been yielded.  The team comes from [self] by steps of the rule,
    each the team the rule returned on a copy for one of the candidates
    and not equal to the team it was copied from, and on it [_increase]
    yields nothing, so that [increase] yields the team itself. *)
Theorem recursive_increase_yields_dead_ends fuel self alliances fn team :
  team ∈ (recursive_increase fuel self alliances fn).1 →
  rtc (explores alliances fn) self team
  ∧ _increase team alliances fn = ([], None)
  ∧ increase team alliances fn = ([team], None).
Proof.
  intros Hin.
  pose proof (recursive_increase_elem alliances fn fuel self) as Hrun.
  rewrite Forall_forall in Hrun. destruct (Hrun team Hin) as [Hrtc Hdead].
  split_and!; [done..|]. unfold increase. by rewrite Hdead.
Qed.

Lemma recursive_increase_yields_dead_ends_witness :
  ∃ team rest,
    recursive_increase 3 Examples.team_F1 [Examples.P; Examples.F]
      Examples.team_max
    = (team :: rest, Some RecursionError)
    ∧ TeamAlliances_size (Team.alliances team) = 9
    ∧ rtc (explores [Examples.P; Examples.F] Examples.team_max)
          Examples.team_F1 team
    ∧ _increase team [Examples.P; Examples.F] Examples.team_max = ([], None)
    ∧ increase team [Examples.P; Examples.F] Examples.team_max
      = ([team], None).
Proof.
  do 2 eexists. do 2 (split; [by vm_compute|]).
  apply (recursive_increase_yields_dead_ends 3 Examples.team_F1
           [Examples.P; Examples.F] Examples.team_max).
  vm_compute. apply list_elem_of_here.
Defined.

(** ** The dictionary *)

Section dictionary.
Implicit Types (tas : TeamAlliances.t) (ta : TeamAlliance.t)
  (l : list TeamAlliance.t) (alliance : Alliance.t).

Lemma set_item_present new l :
  TeamAlliance.alliance new ∈ map TeamAlliance.alliance l →
  map TeamAlliance.alliance (set_item new l) = map TeamAlliance.alliance l.
Proof.
  induction l as [|ta l IH]; simpl.
  - by intros ?%elem_of_nil.
  - destruct (decide _) as [Heq|Hne]; simpl; [by rewrite Heq|].
    intros [Heq|Hin]%elem_of_cons; [done|]. by rewrite IH.
Qed.

Lemma set_item_twice new l : set_item new (set_item new l) = set_item new l.
Proof.
  induction l as [|ta l IH]; simpl.
  - by rewrite decide_True.
  - destruct (decide _) as [Heq|Hne]; simpl.
    + by rewrite decide_True.
    + rewrite decide_False by done. by rewrite IH.
Qed.

Lemma TeamAlliances_eq_true tas other :
  TeamAlliances_eq tas other = true
  ↔ TeamAlliances.team tas = TeamAlliances.team other
    ∧ TeamAlliances.mixed tas = TeamAlliances.mixed other
    ∧ ∀ k, k ∈ keys tas ↔ k ∈ keys other.
Proof.
  unfold TeamAlliances_eq.
  rewrite !andb_true_iff, !bool_decide_eq_true, !Forall_forall.
  naive_solver.
Qed.

(** X15.  Reading [self[alliance]].  The entry read is the entry of the
    alliance, at the level the alliance has on read, and reading again
    gives the same; the sets, [size] and every stored level are as
    before.  A container that has the key is left as it is; one that has
    not gets it as its last key, at level 0, and is then not equal
    ([__eq__]) to what it was. *)
Theorem reading_inserts_missing_key tas alliance :
  let tas' := (getitem tas alliance).1 in
  let ta := (getitem tas alliance).2 in
  TeamAlliance.alliance ta = alliance
  ∧ TeamAlliance.level ta = stored_level tas alliance
  ∧ getitem tas' alliance = (tas', ta)
  ∧ TeamAlliances.team tas' = TeamAlliances.team tas
  ∧ TeamAlliances.mixed tas' = TeamAlliances.mixed tas
  ∧ TeamAlliances_size tas' = TeamAlliances_size tas
  ∧ (∀ k, stored_level tas' k = stored_level tas k)
  ∧ (alliance ∈ keys tas → tas' = tas)
  ∧ (alliance ∉ keys tas →
     keys tas' = keys tas ++ [alliance]
     ∧ TeamAlliance.level ta = 0
     ∧ TeamAlliances_eq tas' tas = false).
Proof.
  intros tas' ta.
  pose proof (getitem_found tas alliance) as [Hfound Hal].
  pose proof (getitem_sets tas alliance) as [Hteam Hmixed].
  split_and!; try done.
  - subst ta. unfold getitem, stored_level.
    by destruct (find_item alliance (TeamAlliances.items tas)).
  - subst tas' ta. set (read := getitem tas alliance) in *.
    unfold getitem. by rewrite Hfound.
  - apply getitem_size.
  - apply getitem_stored_level.
  - intros Hin. subst tas'. unfold getitem.
    destruct (find_item alliance (TeamAlliances.items tas)) eqn:Hfind; [done|].
    by apply find_item_None in Hfind.
  - intros Hnotin. subst tas' ta. unfold getitem.
    pose proof Hnotin as Hfind. apply find_item_None in Hfind.
    rewrite Hfind. simpl. split_and!.
    + unfold keys. simpl. rewrite set_item_absent by done.
      by rewrite map_app.
    + done.
    + apply not_true_is_false. intros (_ & _ & Hkeys)%TeamAlliances_eq_true.
      apply Hnotin, Hkeys. unfold keys. simpl.
      apply set_item_keys. by left.
Qed.

(** X16.  [set(alliance, level)] and reading.  After [set], reading the
    alliance gives the entry at that level and changes nothing; the
    other alliances read as before; a key that was there keeps its place
    and a new key becomes the last; the sets are untouched; and setting
    the same level again changes nothing. *)
Theorem set_then_read tas alliance level :
  let tas' := TeamAlliances_set tas alliance level in
  getitem tas' alliance = (tas', TeamAlliance.mk alliance level)
  ∧ stored_level tas' alliance = level
  ∧ (∀ k, k ≠ alliance → stored_level tas' k = stored_level tas k)
  ∧ (alliance ∈ keys tas → keys tas' = keys tas)
  ∧ (alliance ∉ keys tas → keys tas' = keys tas ++ [alliance])
  ∧ TeamAlliances.team tas' = TeamAlliances.team tas
  ∧ TeamAlliances.mixed tas' = TeamAlliances.mixed tas
  ∧ TeamAlliances_set tas' alliance level = tas'.
Proof.
  intros tas'. split_and!; try done.
  - unfold getitem. subst tas'. unfold TeamAlliances_set. simpl.
    rewrite find_set_item. simpl. by rewrite decide_True.
  - subst tas'. rewrite stored_level_set. by rewrite decide_True.
  - intros k Hne. subst tas'. rewrite stored_level_set.
    by rewrite decide_False.
  - intros Hin. unfold keys. simpl. by apply set_item_present.
  - intros Hnotin. unfold keys. simpl. rewrite set_item_absent by done.
    by rewrite map_app.
  - subst tas'. unfold TeamAlliances_set, with_items. simpl.
    by rewrite set_item_twice.
Qed.

(** X17.  [Team.__eq__] is an equivalence: every team is equal to
    itself, equality does not depend on the side, and two teams equal to
    a third are equal.  It does not depend on the order in which the
    alliances were inserted either: teams with the same cached size,
    limit and sets whose keys are a permutation of each other are
    equal. *)
Theorem team_equality_is_an_equivalence :
  (∀ self, Team_eq self self = true)
  ∧ (∀ self other, Team_eq self other = Team_eq other self)
  ∧ (∀ self other third,
       Team_eq self other = true → Team_eq other third = true →
       Team_eq self third = true)
  ∧ (∀ self other,
       Team.size self = Team.size other →
       Team.limit self = Team.limit other →
       TeamAlliances.team (Team.alliances self)
       = TeamAlliances.team (Team.alliances other) →
       TeamAlliances.mixed (Team.alliances self)
       = TeamAlliances.mixed (Team.alliances other) →
       keys (Team.alliances self) ≡ₚ keys (Team.alliances other) →
       Team_eq self other = true).
Proof.
  assert (Heq : ∀ self other,
    Team_eq self other = true
    ↔ Team.size self = Team.size other
      ∧ TeamAlliances_eq (Team.alliances self) (Team.alliances other) = true
      ∧ Team.limit self = Team.limit other).
  { intros self other. unfold Team_eq.
    rewrite !andb_true_iff, !bool_decide_eq_true. tauto. }
  assert (Hsym : ∀ self other,
            Team_eq self other = true → Team_eq other self = true).
  { intros self other. rewrite !Heq, !TeamAlliances_eq_true. naive_solver. }
  split_and!.
  - intros self. apply Heq. rewrite TeamAlliances_eq_true. done.
  - intros self other.
    destruct (Team_eq self other) eqn:H1, (Team_eq other self) eqn:H2;
      try done.
    + apply Hsym in H1. congruence.
    + apply Hsym in H2. congruence.
  - intros self other third. rewrite !Heq, !TeamAlliances_eq_true.
    intros (-> & (-> & -> & Hk) & ->) (-> & (-> & -> & Hk') & ->).
    split_and!; try done. intros k. by rewrite Hk.
  - intros self other Hs Hl Ht Hm Hk. apply Heq.
    rewrite TeamAlliances_eq_true. split_and!; try done.
    intros k. by rewrite Hk.
Qed.
End dictionary.

(** ** [Alliance.sizes] *)

Section sizes.
Implicit Types (alliance : Alliance.t).

Lemma range_down_count (m : nat) :
  map (λ i, Z.of_nat m + Z.of_nat i * -1) (seq 0 m) = range_down (Z.of_nat m).
Proof.
  induction m as [|m IH].
  - by rewrite range_down_nil by lia.
  - rewrite range_down_cons by lia. cbn [seq map]. f_equal; try lia.
    replace (Z.of_nat (S m) - 1) with (Z.of_nat m) by lia.
    rewrite <- IH, <- seq_shift, map_map.
    apply map_ext. intros i. lia.
Qed.

Lemma py_range_down n : py_range n 0 (-1) = Some (range_down n).
Proof.
  unfold py_range. rewrite decide_False by done.
  rewrite decide_False by lia. f_equal.
  replace ((n - 0 - (-1) - 1) `div` (- (-1))) with n
    by (change (- (-1)) with 1; rewrite Z.div_1_r; lia).
  destruct (decide (0 ≤ n)) as [Hn|Hn].
  - pose proof (range_down_count (Z.to_nat n)) as Hcount.
    by rewrite Z2Nat.id in Hcount.
  - rewrite range_down_nil by lia. by replace (Z.to_nat n) with O by lia.
Qed.

(** X18.  [Alliance.sizes] raises (the [ValueError] of [range]) exactly
    when [alliance.level] is 0, the case in which [add] and [add_max]
    raise [ZeroDivisionError].  For a positive [level] it lists, in
    increasing order, the [total_size] of the candidate levels of
    [add_max], which are the levels of [range(total // level, 0, -1)],
    from the highest down to 1. *)
Theorem sizes_of_the_candidate_levels alliance :
  let highest := Alliance.total alliance `div` Alliance.level alliance in
  (Alliance_sizes alliance = None ↔ Alliance.level alliance = 0)
  ∧ py_range highest 0 (-1) = Some (range_down highest)
  ∧ (0 < Alliance.level alliance →
     Alliance_sizes alliance
     = Some (map (λ level, total_size (TeamAlliance.mk alliance level))
                 (rev (range_down highest)))).
Proof.
  intros highest. split_and!.
  - unfold Alliance_sizes, py_range. by destruct (decide _).
  - apply py_range_down.
  - intros Hlevel. unfold Alliance_sizes, py_range.
    rewrite decide_False by lia. rewrite decide_True by done. f_equal.
    replace ((Alliance.total alliance + 1 - Alliance.level alliance
              + Alliance.level alliance - 1) `div` Alliance.level alliance)
      with highest by (subst highest; f_equal; lia).
    unfold range_down. rewrite rev_involutive, map_map.
    rewrite <- seq_shift, map_map. apply map_ext. intros i.
    unfold total_size. simpl. lia.
Qed.
End sizes.

(** ** [Underlord] *)

Section underlord.
Implicit Types (alliances : list Alliance.t) (heroes : list Hero).

Lemma name_index_snoc alliances a :
  foldl (λ d a, <[Alliance.name a := a]> d) (∅ : gmap string Alliance.t)
        (alliances ++ [a])
  = <[Alliance.name a := a]>
      (foldl (λ d a, <[Alliance.name a := a]> d) ∅ alliances).
Proof. by rewrite foldl_app. Qed.

Lemma name_index_Some alliances name a :
  foldl (λ d a, <[Alliance.name a := a]> d) (∅ : gmap string Alliance.t)
        alliances !! name = Some a →
  a ∈ alliances ∧ Alliance.name a = name.
Proof.
  induction alliances as [|b alliances IH] using rev_ind; [done|].
  rewrite name_index_snoc.
  destruct (decide (Alliance.name b = name)) as [<-|Hne].
  - rewrite lookup_insert_eq. intros [= ->]. split; [|done].
    apply elem_of_app. right. apply list_elem_of_here.
  - rewrite lookup_insert_ne by done. intros [Hin Hname]%IH.
    split; [|done]. apply elem_of_app. by left.
Qed.

Lemma name_index_None alliances name :
  name ∉ map Alliance.name alliances →
  foldl (λ d a, <[Alliance.name a := a]> d) (∅ : gmap string Alliance.t)
        alliances !! name = None.
Proof.
  intros Hnotin.
  destruct (foldl _ _ _ !! name) as [a|] eqn:Hlookup; [|done].
  apply name_index_Some in Hlookup as [Hin <-].
  destruct Hnotin. apply list_elem_of_fmap. by exists a.
Qed.

Lemma name_index_last before a after :
  Alliance.name a ∉ map Alliance.name after →
  foldl (λ d a, <[Alliance.name a := a]> d) (∅ : gmap string Alliance.t)
        (before ++ a :: after) !! Alliance.name a = Some a.
Proof.
  induction after as [|b after IH] using rev_ind; intros Hnotin.
  - rewrite name_index_snoc. apply lookup_insert_eq.
  - rewrite map_app in Hnotin.
    apply not_elem_of_app in Hnotin as [Hafter Hb].
    apply not_elem_of_cons in Hb as [Hb _].
    replace (before ++ a :: after ++ [b]) with ((before ++ a :: after) ++ [b])
      by by rewrite <- app_assoc.
    rewrite name_index_snoc, lookup_insert_ne by done. by apply IH.
Qed.

Lemma hero_index_lookup heroes (name h : Hero) :
  foldl (λ d h, <[h := h]> d) (∅ : gmap string Hero) heroes !! name = Some h
  ↔ h = name ∧ name ∈ heroes.
Proof.
  induction heroes as [|x heroes IH] using rev_ind.
  - simpl. rewrite lookup_empty. split; [done|].
    intros [_ Hin]. by apply elem_of_nil in Hin.
  - rewrite foldl_app. simpl. rewrite elem_of_app, list_elem_of_singleton.
    destruct (decide (x = name)) as [->|Hne].
    + rewrite lookup_insert_eq. naive_solver.
    + rewrite lookup_insert_ne by done. rewrite IH. naive_solver.
Qed.

(** X19.  The index [Underlord.alliance].  Looking a name up gives an
    alliance of the list that has this name, and nothing for a name no
    alliance of the list has.  When several alliances have the same name,
    the index holds the last of them; when the names are all different,
    every alliance of the list is found under its name.  The index
    [Underlord.hero] holds the heroes of the list, each under its
    name. *)
Theorem alliance_index_finds_by_name heroes alliances :
  let index := Underlord.alliance (Underlord_init heroes alliances) in
  (∀ name a, index !! name = Some a →
             a ∈ alliances ∧ Alliance.name a = name)
  ∧ (∀ name, name ∉ map Alliance.name alliances → index !! name = None)
  ∧ (∀ before a after,
       alliances = before ++ a :: after →
       Alliance.name a ∉ map Alliance.name after →
       index !! Alliance.name a = Some a)
  ∧ (NoDup (map Alliance.name alliances) →
     ∀ a, a ∈ alliances → index !! Alliance.name a = Some a)
  ∧ (∀ name h,
       Underlord.hero (Underlord_init heroes alliances) !! name = Some h
       ↔ h = name ∧ name ∈ heroes).
Proof.
  intros index. subst index. simpl. split_and!.
  - apply name_index_Some.
  - apply name_index_None.
  - intros before a after ->. apply name_index_last.
  - intros Hnodup a (before & after & ->)%list_elem_of_split.
    apply name_index_last.
    rewrite map_app in Hnodup. apply NoDup_app in Hnodup as (_ & _ & Hnodup).
    simpl in Hnodup. by apply NoDup_cons in Hnodup as [Hnotin _].
  - apply hero_index_lookup.
Qed.

Lemma dict_get_setitem {K V} `{EqDecision K} (key key' : K) (value : V)
    (d : list (K * V)) :
  dict_get key (dict_setitem key' value d)
  = if decide (key' = key) then Some value else dict_get key d.
Proof.
  induction d as [|[k v] d IH]; simpl.
  - done.
  - destruct (decide (k = key')) as [->|Hne]; simpl.
    + by destruct (decide (key' = key)).
    + destruct (decide (k = key)) as [->|Hne'].
      * by rewrite decide_False.
      * done.
Qed.

Lemma overlap_table_lookup (pairs : list (Alliance.t * Alliance.t))
    (d : list ((Alliance.t * Alliance.t) * gset Hero)) a1 a2 :
  dict_get (a1, a2)
    (foldl (λ d '(a1, a2),
              dict_setitem (a1, a2)
                (Alliance.heroes a1 ∩ Alliance.heroes a2) d) d pairs)
  = if decide ((a1, a2) ∈ pairs)
    then Some (Alliance.heroes a1 ∩ Alliance.heroes a2)
    else dict_get (a1, a2) d.
Proof.
  revert d. induction pairs as [|[b1 b2] pairs IH]; intros d; cbn [foldl].
  - destruct (decide _) as [Hin|_]; [by apply elem_of_nil in Hin|done].
  - rewrite IH, dict_get_setitem.
    destruct (decide ((a1, a2) ∈ pairs)) as [Hin|Hnotin].
    + rewrite decide_True; [done|]. by apply list_elem_of_further.
    + destruct (decide ((b1, b2) = (a1, a2))) as [[= -> ->]|Hne].
      * rewrite decide_True; [done|]. apply list_elem_of_here.
      * rewrite decide_False; [done|].
        intros [?|?]%elem_of_cons; congruence.
Qed.

(** X20.  The table [Underlord.alliances_overlap].  For two alliances of
    the list it holds the heroes they share, the same set whichever of
    the two comes first, and for an alliance paired with itself the
    heroes of the alliance; it has no item for a pair with an alliance
    that is not in the list. *)
Theorem overlap_table_is_total_and_symmetric heroes alliances a1 a2 :
  let table :=
    Underlord.alliances_overlap (Underlord_init heroes alliances) in
  (a1 ∈ alliances → a2 ∈ alliances →
   dict_get (a1, a2) table
   = Some (Alliance.heroes a1 ∩ Alliance.heroes a2))
  ∧ dict_get (a1, a2) table = dict_get (a2, a1) table
  ∧ (a1 ∈ alliances → dict_get (a1, a1) table = Some (Alliance.heroes a1))
  ∧ (¬ (a1 ∈ alliances ∧ a2 ∈ alliances) → dict_get (a1, a2) table = None).
Proof.
  intros table. subst table. simpl.
  assert (Hin : ∀ b1 b2,
            (b1, b2) ∈ list_prod alliances alliances
            ↔ b1 ∈ alliances ∧ b2 ∈ alliances).
  { intros b1 b2. by rewrite list_elem_of_In, in_prod_iff, !list_elem_of_In. }
  split_and!.
  - intros H1 H2. rewrite overlap_table_lookup.
    rewrite decide_True; [done|]. by apply Hin.
  - rewrite !overlap_table_lookup. simpl.
    destruct (decide ((a1, a2) ∈ _)) as [H12|H12],
      (decide ((a2, a1) ∈ _)) as [H21|H21]; try done.
    + f_equal. set_solver.
    + destruct H21. apply Hin. apply Hin in H12. tauto.
    + destruct H12. apply Hin. apply Hin in H21. tauto.
  - intros H1. rewrite overlap_table_lookup.
    rewrite decide_True by by apply Hin. f_equal. set_solver.
  - intros Hnot. rewrite overlap_table_lookup.
    rewrite decide_False; [done|]. by rewrite Hin.
Qed.
End underlord.

Section with_alliances.
Variable hero_alliances : Hero → list Alliance.t.
Variable iter_set : gset Hero → list Hero.
Hypothesis Hwf : wf_universe hero_alliances iter_set.

Lemma add_within_limit self alliance level self' :
  add hero_alliances iter_set self alliance level = (self', None) →
  Team.limit self' = Team.limit self
  ∧ TeamAlliances_size (Team.alliances self') ≤ Team.limit self.
Proof.
  unfold add. destruct (decide _); [done|].
  intros Hadd.
  apply _add_returns in Hadd as (size & l & _ & _ & Hfit & Hpost).
  apply (_post_add_size _ _ Hwf) in Hpost as (_ & Hle & _ & Hlimit).
  simpl in *. split; [done|lia].
Qed.

Lemma with_alliances_loop_built self candidates limit team pairs team' :
  built hero_alliances iter_set candidates limit team →
  with_alliances_loop hero_alliances iter_set self team pairs = inr team' →
  built hero_alliances iter_set candidates limit team'
  ∧ (∀ k, k ∈ keys (Team.alliances (GlobalTeam.base team)) →
          k ∈ keys (Team.alliances (GlobalTeam.base team')))
  ∧ ∀ name level, (name, level) ∈ pairs →
      ∃ alliance, Underlord.alliance self !! name = Some alliance
                  ∧ alliance ∈ keys (Team.alliances (GlobalTeam.base team')).
Proof.
  revert team. induction pairs as [|[name level] pairs IH]; intros team Hbuilt;
    simpl.
  - intros [= <-]. split_and!; [done..|].
    intros name level Hin. by apply elem_of_nil in Hin.
  - destruct (Underlord.alliance self !! name) as [alliance|] eqn:Hname;
      [|done].
    destruct (add _ _ _ _ _) as [base [e|]] eqn:Hadd; [done|].
    destruct Hbuilt as (Hcand & Hlimit & Hsize & Hdis & _ & Hreach).
    assert (Hrun : run hero_alliances iter_set (call_add alliance level)
                     (GlobalTeam.base team) = (base, None)) by done.
    pose proof (add_within_limit _ _ _ _ Hadd) as [Hlimit' Hsize'].
    pose proof Hadd as Hgrown. unfold add in Hgrown.
    destruct (decide _); [done|].
    apply _add_grown in Hgrown as (Hkey & _ & _ & Hkeys & _).
    intros Hloop. apply IH in Hloop as (Hbuilt' & Hkeys' & Hpairs).
    + split_and!; [done|by auto|].
      intros name' level' [[= -> ->]|Hin]%elem_of_cons.
      * exists alliance. split; [done|]. by apply Hkeys'.
      * by eapply Hpairs.
    + unfold built. simpl. split_and!.
      * done.
      * congruence.
      * lia.
      * by eapply run_disjoint.
      * by eapply run_staffed.
      * by eapply reachable_call.
Qed.
End with_alliances.

(** X21.  [Underlord.with_alliances] adds the alliances in turn to a new
    [GlobalTeam] with limit 10.  In a well-formed universe, the team it
    returns explores the alliances of the [Underlord], is within the
    limit 10, has disjoint sets and staffed entries, is a team a program
    can hold, and has an entry for the alliance of every name it was
    given, which is an alliance of the list with that name.  Without
    names it returns the new team. *)
Theorem with_alliances_builds_a_team hero_alliances iter_set heroes alliances
    pairs team :
  wf_universe hero_alliances iter_set →
  Underlord_with_alliances hero_alliances iter_set
    (Underlord_init heroes alliances) pairs = inr team →
  built hero_alliances iter_set alliances 10 team
  ∧ (∀ name level, (name, level) ∈ pairs →
       ∃ alliance, alliance ∈ alliances ∧ Alliance.name alliance = name
                   ∧ alliance ∈ keys (Team.alliances (GlobalTeam.base team)))
  ∧ (pairs = [] → team = GlobalTeam_init alliances 10)
  ∧ GlobalTeam_increase hero_alliances iter_set team None None
    = increase (GlobalTeam.base team) alliances
        (team_max hero_alliances iter_set).
Proof.
  intros Hwf Hrun. unfold Underlord_with_alliances in Hrun.
  pose proof Hrun as Hloop.
  apply (with_alliances_loop_built _ _ Hwf _ alliances 10) in Hloop
    as (Hbuilt & _ & Hpairs).
  - split_and!.
    + done.
    + intros name level Hin.
      destruct (Hpairs name level Hin) as (alliance & Hname & Hkey).
      apply name_index_Some in Hname as [Hal Hname].
      by exists alliance.
    + intros ->. simpl in Hrun. by injection Hrun as <-.
    + unfold GlobalTeam_increase, increase. simpl.
      by destruct Hbuilt as (-> & _).
  - unfold built. simpl. split_and!.
    + done.
    + done.
    + by vm_compute.
    + apply disjoint_empty_l.
    + intros ta Hin. by apply elem_of_nil in Hin.
    + apply reachable_init.
Qed.

Lemma with_alliances_builds_a_team_witness :
  ∃ team,
    Underlord_with_alliances Examples.hero_alliances Examples.iter_set
      (Underlord_init [] Examples.alliances) [("P", 1); ("Q", 1)] = inr team
    ∧ built Examples.hero_alliances Examples.iter_set Examples.alliances 10
            team.
Proof.
  eexists. split; [by vm_compute|].
  eapply (with_alliances_builds_a_team Examples.hero_alliances
            Examples.iter_set [] Examples.alliances [("P", 1); ("Q", 1)]).
  - apply Examples_wf.
  - by vm_compute.
Defined.

(** ** The loader *)

Section loader_facts.
Implicit Types (alliances : list Alliance.t) (heroes : list HeroData.t)
  (index : gmap string nat) (jailbirds : gset string).

Lemma position_index_snoc alliances a :
  position_index (alliances ++ [a])
  = <[Alliance.name a := length alliances]> (position_index alliances).
Proof.
  unfold position_index. rewrite imap_app, foldl_app. simpl.
  by rewrite Nat.add_0_r.
Qed.

Lemma position_index_Some alliances a r :
  position_index alliances !! a = Some r →
  ∃ al, alliances !! r = Some al ∧ Alliance.name al = a.
Proof.
  induction alliances as [|b alliances IH] using rev_ind; [done|].
  rewrite position_index_snoc.
  destruct (decide (Alliance.name b = a)) as [<-|Hne].
  - rewrite lookup_insert_eq. intros [= <-]. exists b.
    split; [|done]. by rewrite lookup_app_r, Nat.sub_diag.
  - rewrite lookup_insert_ne by done. intros (al & Hal & Hname)%IH.
    exists al. split; [|done]. by apply lookup_app_l_Some.
Qed.

Lemma position_index_is_Some alliances a :
  is_Some (position_index alliances !! a) ↔ a ∈ map Alliance.name alliances.
Proof.
  induction alliances as [|b alliances IH] using rev_ind.
  - unfold position_index. simpl. rewrite lookup_empty.
    split; [by intros [? ?]|by intros ?%elem_of_nil].
  - rewrite position_index_snoc, map_app, elem_of_app. simpl.
    rewrite list_elem_of_singleton.
    destruct (decide (Alliance.name b = a)) as [<-|Hne].
    + rewrite lookup_insert_eq. split; [by right|by eexists].
    + rewrite lookup_insert_ne by done. rewrite IH. naive_solver.
Qed.

Lemma add_member_twice x al : add_member x (add_member x al) = add_member x al.
Proof. unfold add_member. simpl. f_equal. set_solver. Qed.

Lemma add_members_lookup x refs alliances r :
  foldl (λ alliances r, alter (add_member x) r alliances) alliances refs !! r
  = if decide (r ∈ refs) then add_member x <$> alliances !! r
    else alliances !! r.
Proof.
  revert alliances. induction refs as [|r0 refs IH]; intros alliances;
    cbn [foldl].
  - destruct (decide _) as [Hin|_]; [by apply elem_of_nil in Hin|done].
  - rewrite IH, list_lookup_alter.
    destruct (decide (r0 = r)) as [->|Hne].
    + rewrite (decide_True (P := r ∈ r :: refs)) by apply list_elem_of_here.
      destruct (decide (r ∈ refs)); [|done].
      destruct (alliances !! r); simpl; [|done]. by rewrite add_member_twice.
    + destruct (decide (r ∈ refs)) as [Hin|Hnotin].
      * rewrite decide_True; [done|]. by apply list_elem_of_further.
      * rewrite decide_False; [done|].
        intros [?|?]%elem_of_cons; congruence.
Qed.

Lemma add_members_length x refs alliances :
  length (foldl (λ alliances r, alter (add_member x) r alliances)
                alliances refs)
  = length alliances.
Proof.
  revert alliances. induction refs as [|r0 refs IH]; intros alliances;
    cbn [foldl]; [done|].
  by rewrite IH, length_alter.
Qed.


Lemma with_members_empty al : with_members ∅ al = al.
Proof.
  unfold with_members. destruct al as [name level total effect members].
  simpl. f_equal. set_solver.
Qed.

Lemma with_members_add x members al :
  with_members members (add_member x al) = with_members ({[x]} ∪ members) al.
Proof. unfold with_members, add_member. simpl. f_equal. set_solver. Qed.

Lemma link_heroes_spec lower index jailbirds alliances heroes
    (heroes' : list loaded_hero) alliances' :
  link_heroes lower index jailbirds alliances heroes = inr (heroes', alliances') →
  map loaded_data heroes' = heroes
  ∧ Forall (dealt_with lower index jailbirds) heroes'
  ∧ length alliances' = length alliances
  ∧ ∀ r, alliances' !! r
         = with_members (members_at heroes' r) <$> alliances !! r.
Proof.
  revert alliances heroes' alliances'.
  induction heroes as [|hero heroes IH]; intros alliances heroes' alliances';
    cbn [link_heroes].
  - intros [= <- <-]. split_and!; [done..|].
    intros r. unfold members_at. simpl.
    destruct (alliances !! r); simpl; [|done]. by rewrite with_members_empty.
  - destruct (decide (lower (HeroData.name hero) ∈ jailbirds)) as [Hjail|Hfree].
    + destruct (link_heroes _ _ _ _ heroes) as [e|[rest als]] eqn:Hrest;
        [done|].
      intros [= <- <-].
      destruct (IH _ _ _ Hrest) as (Hdata & Hdealt & Hlen & Hlookup).
      split_and!.
      * simpl. by rewrite Hdata.
      * by apply Forall_cons.
      * done.
      * intros r. rewrite Hlookup. unfold members_at. simpl.
        by rewrite (left_id_L ∅ (∪)).
    + unfold link_hero.
      destruct (mapM _ (HeroData.alliances hero)) as [refs|] eqn:Hrefs;
        [|done]. simpl.
      destruct (resolve_ace index (HeroData.ace hero)) as [ace|] eqn:Hace;
        [|done]. simpl.
      destruct (link_heroes _ _ _ _ heroes) as [e|[rest als]] eqn:Hrest;
        [done|].
      intros [= <- <-].
      destruct (IH _ _ _ Hrest) as (Hdata & Hdealt & Hlen & Hlookup).
      split_and!.
      * simpl. by rewrite Hdata.
      * by apply Forall_cons.
      * by rewrite Hlen, add_members_length.
      * intros r. rewrite Hlookup, add_members_lookup.
        unfold members_at. simpl.
        destruct (decide (r ∈ refs)).
        -- destruct (alliances !! r); simpl; [|done].
           by rewrite with_members_add.
        -- by rewrite (left_id_L ∅ (∪)).
Qed.

Lemma elem_of_members_at (heroes' : list loaded_hero) r x :
  x ∈ members_at heroes' r
  ↔ ∃ hero refs ace, Linked hero refs ace ∈ heroes'
                     ∧ HeroData.name hero = x ∧ r ∈ refs.
Proof.
  unfold members_at. rewrite elem_of_union_list. split.
  - intros (X & HX & Hx). apply list_elem_of_fmap in HX as (h & -> & Hin).
    destruct h as [hero|hero refs ace]; [by apply not_elem_of_empty in Hx|].
    destruct (decide (r ∈ refs)); [|by apply not_elem_of_empty in Hx].
    apply elem_of_singleton in Hx as ->. by exists hero, refs, ace.
  - intros (hero & refs & ace & Hin & <- & Hr).
    exists {[HeroData.name hero]}. split; [|by apply elem_of_singleton].
    apply list_elem_of_fmap. exists (Linked hero refs ace).
    split; [|done]. by rewrite decide_True.
Qed.

End loader_facts.

Section loader_properties.
Implicit Types (alliances : list Alliance.t) (heroes : list HeroData.t)
  (loaded : list loaded_hero).

Lemma linked_refs alliances alliances' loaded hero refs ace :
  (∀ r, alliances' !! r
        = with_members (members_at loaded r) <$> alliances !! r) →
  Linked hero refs ace ∈ loaded →
  mapM (λ a, position_index alliances !! a) (HeroData.alliances hero)
  = Some refs →
  Forall2 (λ a r, ∃ al, alliances' !! r = Some al
                        ∧ Alliance.name al = a
                        ∧ HeroData.name hero ∈ Alliance.heroes al)
          (HeroData.alliances hero) refs.
Proof.
  intros Hlookup Hin Hrefs. apply mapM_Some in Hrefs.
  apply Forall2_same_length_lookup in Hrefs as [Hlen Hrefs].
  apply Forall2_same_length_lookup. split; [done|].
  intros i a r Ha Hr.
  destruct (position_index_Some _ _ _ (Hrefs i a r Ha Hr))
    as (al & Hal & Hname).
  exists (with_members (members_at loaded r) al).
  rewrite Hlookup, Hal. split_and!; [done..|]. simpl.
  apply elem_of_union. right. apply elem_of_members_at.
  exists hero, refs, ace. split_and!; [done..|].
  by eapply list_elem_of_lookup_2.
Qed.

(** X22.  What [load] returns.  The heroes come back in their order;
    those whose name in lower case is in the jail (in lower case) are
    untouched, and no other.  The alliances come back in their order with
    their name, level, total and effect, and each with the heroes it had
    and the heroes, not in jail, that list its name.  Every alliance
    such a hero refers to has the name the hero listed at that place and
    has the hero among its heroes. *)
Theorem load_links_heroes_and_alliances lower heroes alliances jailbirds
    loaded alliances' :
  load lower heroes alliances jailbirds = inr (loaded, alliances') →
  map loaded_data loaded = heroes
  ∧ (∀ h, h ∈ loaded →
       (∃ hero, h = Jailed hero)
       ↔ lower (HeroData.name (loaded_data h))
         ∈ (set_map lower jailbirds : gset string))
  ∧ length alliances' = length alliances
  ∧ (∀ r, alliances' !! r
          = with_members (members_at loaded r) <$> alliances !! r)
  ∧ (∀ r x, x ∈ members_at loaded r
            ↔ ∃ hero refs ace, Linked hero refs ace ∈ loaded
                               ∧ HeroData.name hero = x ∧ r ∈ refs)
  ∧ (∀ hero refs ace, Linked hero refs ace ∈ loaded →
       Forall2 (λ a r, ∃ al, alliances' !! r = Some al
                             ∧ Alliance.name al = a
                             ∧ HeroData.name hero ∈ Alliance.heroes al)
               (HeroData.alliances hero) refs).
Proof.
  unfold load. intros Hload.
  apply link_heroes_spec in Hload as (Hdata & Hdealt & Hlen & Hlookup).
  rewrite Forall_forall in Hdealt.
  split_and!; [done| |done|done| |].
  - intros h Hin. specialize (Hdealt h Hin).
    destruct h as [hero|hero refs ace]; simpl in *.
    + split; [done|]. by exists hero.
    + destruct Hdealt as [Hfree _]. split; [by intros [? ?]|done].
  - intros r x. apply elem_of_members_at.
  - intros hero refs ace Hin.
    destruct (Hdealt _ Hin) as (_ & Hrefs & _).
    by eapply linked_refs.
Qed.

Lemma load_links_heroes_and_alliances_witness :
  map loaded_data LoaderExample.loaded.1 = LoaderExample.heroes
  ∧ length LoaderExample.loaded.2 = length LoaderExample.alliances.
Proof.
  destruct (load_links_heroes_and_alliances LoaderExample.lower
              LoaderExample.heroes LoaderExample.alliances
              LoaderExample.jailbirds
              LoaderExample.loaded.1 LoaderExample.loaded.2)
    as (Hdata & _ & Hlen & _).
  - by vm_compute.
  - by split.
Defined.

Lemma names_of_refs alliances' (names : list string) (refs : list nat) :
  Forall2 (λ a r, ∃ al, alliances' !! r = Some al ∧ Alliance.name al = a)
          names refs →
  Alliance.name <$> omap (λ r, alliances' !! r) refs = names.
Proof.
  induction 1 as [|a r names refs (al & Hal & Hname) _ IH]; [done|].
  csimpl. rewrite Hal. csimpl. by rewrite Hname, IH.
Qed.

(** X23.  The engine reads [hero.alliances] of the heroes [load]
    returned.  When every one of them has its alliance objects, which a
    hero in jail has not (it keeps the names), no hero of the data lists
    an alliance twice and every alliance has a positive [level], the
    reference graph [load] has built is well formed: a hero refers to an
    alliance once, is among the heroes of every alliance it refers to,
    and refers to alliances with a positive level only.  The capacity
    invariant and the convergence of the passes are proved for such a
    graph.  No hero of the data was in jail then. *)
Theorem load_builds_a_well_formed_universe lower heroes alliances jailbirds
    loaded alliances' hero_alliances :
  load lower heroes alliances jailbirds = inr (loaded, alliances') →
  (∀ hero, hero ∈ heroes → NoDup (HeroData.alliances hero)) →
  (∀ al, al ∈ alliances → 0 < Alliance.level al) →
  engine_reads loaded alliances' hero_alliances →
  wf_universe hero_alliances elements
  ∧ ∀ hero, hero ∈ heroes →
      lower (HeroData.name hero) ∉ (set_map lower jailbirds : gset string).
Proof.
  intros Hload Honce Hlevel [Hreads Hnone]. unfold load in Hload.
  apply link_heroes_spec in Hload as (Hdata & Hdealt & _ & Hlookup).
  rewrite Forall_forall in Hdealt.
  assert (Hal : ∀ r al, alliances' !! r = Some al →
            ∃ al0, al0 ∈ alliances
                   ∧ al = with_members (members_at loaded r) al0).
  { intros r al. rewrite Hlookup.
    destruct (alliances !! r) as [al0|] eqn:Hr; [|done].
    intros [= <-]. exists al0. split; [|done].
    by eapply list_elem_of_lookup_2. }
  assert (Hcase : ∀ x,
            hero_alliances x = []
            ∨ ∃ hero refs ace,
                Linked hero refs ace ∈ loaded ∧ HeroData.name hero = x
                ∧ hero_alliances x = omap (λ r, alliances' !! r) refs).
  { intros x.
    destruct (decide (x ∈ map (λ h, HeroData.name (loaded_data h)) loaded))
      as [Hin|Hout]; [|left; by apply Hnone].
    apply list_elem_of_fmap in Hin as (h & -> & Hin).
    specialize (Hreads h Hin).
    destruct h as [hero|hero refs ace]; simpl in Hreads; [done|].
    injection Hreads as Hreads. right. by exists hero, refs, ace. }
  split; [split|].
  - intros x al Hin.
    destruct (Hcase x) as [Hnil|(hero & refs & ace & Hl & <- & Heq)].
    { rewrite Hnil in Hin. by apply elem_of_nil in Hin. }
    rewrite Heq in Hin. apply list_elem_of_omap in Hin as (r & Hr & Hlook).
    apply Hal in Hlook as (al0 & _ & ->). simpl.
    apply elem_of_union. right. apply elem_of_members_at.
    by exists hero, refs, ace.
  - intros x al Hin.
    destruct (Hcase x) as [Hnil|(hero & refs & ace & Hl & <- & Heq)].
    { rewrite Hnil in Hin. by apply elem_of_nil in Hin. }
    rewrite Heq in Hin. apply list_elem_of_omap in Hin as (r & Hr & Hlook).
    apply Hal in Hlook as (al0 & Hin0 & ->). simpl. by apply Hlevel.
  - intros x.
    destruct (Hcase x) as [Hnil|(hero & refs & ace & Hl & <- & Heq)].
    { rewrite Hnil. apply NoDup_nil_2. }
    rewrite Heq.
    destruct (Hdealt _ Hl) as (_ & Hrefs & _).
    pose proof (linked_refs _ _ _ _ _ _ Hlookup Hl Hrefs) as Hnames.
    apply (NoDup_fmap_1 Alliance.name).
    rewrite (names_of_refs alliances' (HeroData.alliances hero) refs).
    + apply Honce. rewrite <- Hdata. apply list_elem_of_fmap.
      by exists (Linked hero refs ace).
    + eapply Forall2_impl; [exact Hnames|]. naive_solver.
  - done.
  - intros hero Hin. rewrite <- Hdata in Hin.
    apply list_elem_of_fmap in Hin as (h & -> & Hin).
    specialize (Hreads h Hin). specialize (Hdealt h Hin).
    destruct h as [hero|hero refs ace]; simpl in *; [done|].
    by destruct Hdealt as [Hfree _].
Qed.

Lemma load_builds_a_well_formed_universe_witness :
  wf_universe LoaderExample.hero_alliances elements
  ∧ ∀ hero, hero ∈ LoaderExample.heroes →
      LoaderExample.lower (HeroData.name hero)
      ∉ (set_map LoaderExample.lower (∅ : gset string) : gset string).
Proof.
  apply (load_builds_a_well_formed_universe LoaderExample.lower
           LoaderExample.heroes LoaderExample.alliances ∅
           LoaderExample.loaded_free.1 LoaderExample.loaded_free.2).
  - by vm_compute.
  - intros hero Hin. apply (bool_decide_unpack _).
    revert hero Hin. apply Forall_forall. apply (bool_decide_unpack _).
    by vm_compute.
  - apply Forall_forall. apply (bool_decide_unpack _). by vm_compute.
  - split.
    + apply Forall_forall. apply (bool_decide_unpack _). by vm_compute.
    + intros x Hx. simpl in Hx. rewrite !not_elem_of_cons in Hx.
      destruct Hx as (? & ? & ? & _). unfold LoaderExample.hero_alliances.
      by rewrite !decide_False.
Defined.

Lemma resolve_ace_is_Some alliances ace :
  is_Some (resolve_ace (position_index alliances) ace)
  ↔ match ace with
    | None => True
    | Some a => a = EmptyString ∨ a ∈ map Alliance.name alliances
    end.
Proof.
  destruct ace as [a|]; simpl.
  - destruct (decide (a = EmptyString)) as [->|Hne].
    + split; [by left|by eexists].
    + rewrite fmap_is_Some, position_index_is_Some. naive_solver.
  - split; [done|by eexists].
Qed.

Lemma link_hero_is_Some alliances (store : list Alliance.t) hero :
  is_Some (link_hero (position_index alliances) store hero)
  ↔ linkable alliances hero.
Proof.
  unfold link_hero, linkable.
  rewrite <- resolve_ace_is_Some.
  rewrite <- (Forall_iff (is_Some ∘ (λ a, position_index alliances !! a)))
    by (intros a; apply position_index_is_Some).
  rewrite <- mapM_is_Some.
  destruct (mapM _ _) as [refs|]; simpl.
  - destruct (resolve_ace _ _) as [ace|]; simpl.
    + split; [by split; eexists|by eexists].
    + split; [by intros [? ?]|by intros [_ [? ?]]].
  - split; [by intros [? ?]|by intros [[? ?] _]].
Qed.

Lemma link_heroes_inr lower alliances jailbirds (store : list Alliance.t)
    heroes :
  (∃ result,
     link_heroes lower (position_index alliances) jailbirds store heroes
     = inr result)
  ↔ Forall (λ hero, lower (HeroData.name hero) ∈ jailbirds
                    ∨ linkable alliances hero) heroes.
Proof.
  revert store. induction heroes as [|hero heroes IH]; intros store;
    cbn [link_heroes].
  - split; [done|by eexists].
  - rewrite Forall_cons.
    destruct (decide (lower (HeroData.name hero) ∈ jailbirds)) as [Hjail|Hfree].
    + rewrite <- (IH store).
      destruct (link_heroes _ _ _ store heroes) as [e|[rest als]].
      * split; [by intros [? ?]|by intros [_ [? ?]]].
      * split; [intros _; split; [by left|by eexists]|by eexists].
    + pose proof (link_hero_is_Some alliances store hero) as Hlink.
      destruct (link_hero _ store hero) as [[store' linked]|].
      * rewrite <- (IH store').
        destruct (link_heroes _ _ _ store' heroes) as [e|[rest als]].
        -- split; [by intros [? ?]|by intros [_ [? ?]]].
        -- split; [intros _; split; [right; by apply Hlink|by eexists]
                  |by eexists].
      * split; [by intros [? ?]|].
        intros [[?|Hok] _]; [done|]. apply Hlink in Hok. by destruct Hok.
Qed.

Lemma link_heroes_inl lower alliances jailbirds (store : list Alliance.t)
    heroes name :
  link_heroes lower (position_index alliances) jailbirds store heroes
  = inl (ErrorLoading name) →
  ∃ hero, hero ∈ heroes ∧ HeroData.name hero = name
          ∧ (lower (HeroData.name hero) ∉ jailbirds)
          ∧ ¬ linkable alliances hero.
Proof.
  revert store. induction heroes as [|hero heroes IH]; intros store;
    cbn [link_heroes]; [done|].
  assert (Hrest : ∀ store',
            link_heroes lower (position_index alliances) jailbirds store' heroes
            = inl (ErrorLoading name) →
            ∃ hero', hero' ∈ hero :: heroes ∧ HeroData.name hero' = name
                     ∧ (lower (HeroData.name hero') ∉ jailbirds)
                     ∧ ¬ linkable alliances hero').
  { intros store' (hero' & Hin & Hrest)%IH. exists hero'.
    split; [by apply list_elem_of_further|done]. }
  destruct (decide (lower (HeroData.name hero) ∈ jailbirds)) as [Hjail|Hfree].
  - destruct (link_heroes _ _ _ store heroes) as [e|[rest als]] eqn:Hloop;
      [|done].
    intros [= ->]. by apply (Hrest store).
  - pose proof (link_hero_is_Some alliances store hero) as Hlink.
    destruct (link_hero _ store hero) as [[store' linked]|].
    + destruct (link_heroes _ _ _ store' heroes) as [e|[rest als]] eqn:Hloop;
        [|done].
      intros [= ->]. by apply (Hrest store').
    + intros [= <-]. exists hero. split_and!; [apply list_elem_of_here|done..|].
      intros Hok. apply Hlink in Hok. by destruct Hok.
Qed.

(** X24.  When [load] fails.  [load] returns exactly when every hero
    that is not in jail can be linked: the alliances it lists, and its
    ace unless that is [None] or empty, are names of alliances of the
    data.  Otherwise it raises the error of a hero that is not in jail
    and cannot be linked; a hero in jail is not looked at. *)
Theorem load_returns_iff_heroes_linkable lower heroes alliances jailbirds :
  ((∃ result, load lower heroes alliances jailbirds = inr result)
   ↔ Forall (λ hero, lower (HeroData.name hero)
                       ∈ (set_map lower jailbirds : gset string)
                     ∨ linkable alliances hero) heroes)
  ∧ ∀ name,
      load lower heroes alliances jailbirds = inl (ErrorLoading name) →
      ∃ hero, hero ∈ heroes ∧ HeroData.name hero = name
              ∧ (lower (HeroData.name hero)
                 ∉ (set_map lower jailbirds : gset string))
              ∧ ¬ linkable alliances hero.
Proof.
  split.
  - apply link_heroes_inr.
  - intros name. apply link_heroes_inl.
Qed.
End loader_properties.

(** ** The rules and the first [add] *)

(** X25.  What the three rules reach when they return a team:
    [team_add(amount)] leaves the alliance at the level [amount] at
    least, [team_inc] at one level above the level the alliance had on
    read at least, both clamped to the highest level of the alliance,
    and [team_max] at level 1 at least. *)
Theorem rules_reach_their_level hero_alliances iter_set team alliance team' :
  let highest := Alliance.total alliance `div` Alliance.level alliance in
  (∀ amount,
     team_add hero_alliances iter_set amount team alliance = inr team' →
     Z.min amount highest ≤ stored_level (Team.alliances team') alliance)
  ∧ (team_inc hero_alliances iter_set team alliance = inr team' →
     Z.min (stored_level (Team.alliances team) alliance + 1) highest
     ≤ stored_level (Team.alliances team') alliance)
  ∧ (team_max hero_alliances iter_set team alliance = inr team' →
     1 ≤ stored_level (Team.alliances team') alliance).
Proof.
  intros highest.
  assert (Hadd : ∀ level,
            returning_self (add hero_alliances iter_set team alliance level)
            = inr team' →
            Z.min level highest
            ≤ stored_level (Team.alliances team') alliance).
  { intros level Hrule.
    destruct (add _ _ _ _ _) as [self' [e|]] eqn:Hadd; [done|].
    injection Hrule as ->. unfold add in Hadd. destruct (decide _); [done|].
    apply _add_grown in Hadd as (_ & _ & _ & _ & _ & l & Hin & Hle).
    by apply list_elem_of_singleton in Hin as ->. }
  split_and!.
  - intros amount. apply Hadd.
  - unfold team_inc. intros Hrule. apply Hadd in Hrule.
    etrans; [|exact Hrule]. apply Z.eq_le_incl. f_equal.
    unfold contains, stored_level, getitem.
    destruct (find_item alliance _) as [ta|] eqn:Hfind.
    + rewrite bool_decide_eq_true_2; [done|].
      apply find_item_Some in Hfind as [Hin <-].
      apply list_elem_of_fmap. by exists ta.
    + rewrite bool_decide_eq_false_2; [done|]. by apply find_item_None.
  - unfold team_max. intros Hrule.
    destruct (add_max _ _ _ _) as [self' [e|]] eqn:Hadd'; [done|].
    injection Hrule as ->. unfold add_max in Hadd'.
    destruct (decide _); [done|].
    apply _add_grown in Hadd' as (_ & _ & _ & _ & _ & l & Hin & Hle).
    apply elem_of_range_down in Hin. lia.
Qed.
(** ** The first [add] *)

Section new_team.
Implicit Types (alliance : Alliance.t).

Lemma new_entry_sizes alliance level :
  let tas := TeamAlliances.mk [TeamAlliance.mk alliance level] ∅ ∅ in
  (∀ ta, TeamAlliance.alliance ta = alliance →
     p_heroes tas ta = ∅ ∧ m_heroes tas ta = ∅
     ∧ a_heroes tas ta = Alliance.heroes alliance
     ∧ a_size tas ta = Z.max 0 (total_size ta)
     ∧ m_size tas ta = 0
     ∧ level_up_amount tas ta = λ l reserved,
         Z.max 0 (l * Alliance.level alliance - 0 - reserved))
  ∧ TeamAlliances_size tas
    = Z.max 0 (total_size (TeamAlliance.mk alliance level)).
Proof.
  intros tas.
  assert (Hta : ∀ ta, TeamAlliance.alliance ta = alliance →
     p_heroes tas ta = ∅ ∧ m_heroes tas ta = ∅
     ∧ a_heroes tas ta = Alliance.heroes alliance
     ∧ a_size tas ta = Z.max 0 (total_size ta)
     ∧ m_size tas ta = 0
     ∧ level_up_amount tas ta = λ l reserved,
         Z.max 0 (l * Alliance.level alliance - 0 - reserved)).
  { intros ta <-.
    assert (Hp : p_heroes tas ta = ∅) by (unfold p_heroes, pool; set_solver).
    assert (Hm : m_heroes tas ta = ∅) by (unfold m_heroes; set_solver).
    assert (Ht : t_heroes tas ta = ∅) by (unfold t_heroes; set_solver).
    split_and!; [done|done| | | |].
    - unfold a_heroes, pool. set_solver.
    - rewrite a_size_max, Hp. change (len ∅) with 0. lia.
    - unfold m_size, p_size, t_size. rewrite Hp, Ht. lia.
    - unfold level_up_amount. by rewrite Hp. }
  split; [done|].
  unfold TeamAlliances_size, outstanding. simpl.
  destruct (Hta (TeamAlliance.mk alliance level) eq_refl) as (_ & _ & _ & -> & _).
  change (len ∅) with 0. unfold sum. simpl. lia.
Qed.

Lemma heroes_by_alliance_empty hero_alliances iter_set :
  wf_universe hero_alliances iter_set →
  heroes_by_alliance hero_alliances iter_set ∅ = [].
Proof.
  intros Hwf. unfold heroes_by_alliance.
  pose proof (wf_iter _ _ Hwf ∅) as Hiter. rewrite elements_empty in Hiter.
  apply Permutation_nil_r in Hiter. by rewrite Hiter.
Qed.

(** The convergence pass on a team with one entry and no hero, when the
    alliance has more heroes than the entry asks for. *)
Lemma _post_add_new_entry hero_alliances iter_set alliance level size limit :
  wf_universe hero_alliances iter_set →
  total_size (TeamAlliance.mk alliance level)
  < len (Alliance.heroes alliance) →
  let self :=
    Team.mk size (TeamAlliances.mk [TeamAlliance.mk alliance level] ∅ ∅) limit in
  _post_add hero_alliances iter_set self = (self, None).
Proof.
  intros Hwf Hstaff self.
  destruct (new_entry_sizes alliance level) as [Hta _].
  assert (Hmixed : mixed_promotion (Team.alliances self) = ∅).
  { apply mixed_promotion_stable. intros ta Hin.
    apply list_elem_of_singleton in Hin as ->.
    destruct (Hta (TeamAlliance.mk alliance level) eq_refl)
      as (_ & _ & Ha & Hsize & _).
    unfold mixed_stable. simpl. rewrite Ha, Hsize. intros Hle.
    apply len_empty_iff. lia. }
  assert (Hteam : team_promotion (Team.alliances self) = ∅).
  { apply team_promotion_stable. intros ta Hin.
    apply list_elem_of_singleton in Hin as ->.
    destruct (Hta (TeamAlliance.mk alliance level) eq_refl) as (_ & Hm & _).
    unfold team_stable. by intros _. }
  unfold _post_add.
  rewrite (_post_add_mixed_id self Hmixed), (_post_add_team_id self Hteam).
  unfold _post_add_alliance. simpl.
  by rewrite heroes_by_alliance_empty.
Qed.
End new_team.

(** X26.  [add] on a new team, in a well-formed universe, for an
    alliance with a positive [level] and a level asked for that, clamped
    to the highest level of the alliance, is at least 1.  Let [wanted] be
    the number of heroes of that level.  When it fits in the limit and
    the alliance has more heroes than that, the call returns: the team
    has the one entry at the clamped level, no heroes, and the cached
    size [wanted].  When it fits and the alliance has fewer heroes, the
    call raises the composition error; when it does not fit, the
    capacity error; either way the alliance is left with an entry at
    level 0, and in the first case with the cached size [wanted]. *)
Theorem add_to_a_new_team hero_alliances iter_set alliance level limit :
  wf_universe hero_alliances iter_set →
  0 < Alliance.level alliance →
  let clamped :=
    Z.min level (Alliance.total alliance `div` Alliance.level alliance) in
  let wanted := total_size (TeamAlliance.mk alliance clamped) in
  let result := add hero_alliances iter_set (Team_init limit) alliance level in
  1 ≤ clamped →
  (wanted ≤ limit → wanted < len (Alliance.heroes alliance) →
   result
   = (Team.mk wanted
        (TeamAlliances.mk [TeamAlliance.mk alliance clamped] ∅ ∅) limit,
      None))
  ∧ (wanted ≤ limit → len (Alliance.heroes alliance) < wanted →
     result
     = (Team.mk wanted (TeamAlliances.mk [from_empty alliance] ∅ ∅) limit,
        Some (ValueError Composition)))
  ∧ (limit < wanted →
     result
     = (Team.mk 0 (TeamAlliances.mk [from_empty alliance] ∅ ∅) limit,
        Some (ValueError Capacity))).
Proof.
  intros Hwf Hlevel c wanted result Hc. subst result.
  assert (Hwanted : 1 ≤ wanted) by (unfold wanted, total_size; simpl; nia).
  unfold add. rewrite decide_False by lia. fold c.
  unfold _add, reservation, contains, Team_init. simpl.
  assert (Hpool : pool (TeamAlliances.mk [] ∅ ∅) = ∅)
    by (unfold pool; set_solver).
  rewrite Hpool.
  replace (∅ ∪ (∅ : gset Hero) ∖ ∅) with (∅ : gset Hero) by set_solver.
  unfold with_items, with_mixed, with_alliances, with_size, TeamAlliances_set.
  simpl.
  destruct (new_entry_sizes alliance 0) as [Hta0 Hsize0].
  destruct (Hta0 (from_empty alliance) eq_refl)
    as (_ & _ & _ & _ & _ & Hamount0).
  destruct (new_entry_sizes alliance c) as [Hta Hsize].
  fold wanted in Hsize. rewrite Z.max_r in Hsize by lia.
  unfold from_empty in *. rewrite Hsize0, Hamount0.
  change (total_size {| TeamAlliance.alliance := alliance;
                        TeamAlliance.level := 0 |})
    with (Alliance.level alliance * 0).
  replace (Z.max 0 (Alliance.level alliance * 0)
           + Z.max 0 (c * Alliance.level alliance - 0 - 0)) with wanted
    by (unfold wanted, total_size; simpl; lia).
  replace (Z.max 0 (Alliance.level alliance * 0)) with 0 by lia.
  replace (c >? 0) with true
    by (symmetry; rewrite Z.gtb_ltb; apply Z.ltb_lt; lia).
  simpl.
  assert (Hcheck : ∀ size,
    _post_check
      (Team.mk size (TeamAlliances.mk [TeamAlliance.mk alliance c] ∅ ∅) limit)
      (TeamAlliances.mk [TeamAlliance.mk alliance 0] ∅ ∅)
    = if decide (wanted ≤ len (Alliance.heroes alliance))
      then (Team.mk size
              (TeamAlliances.mk [TeamAlliance.mk alliance c] ∅ ∅) limit, None)
      else (Team.mk size
              (TeamAlliances.mk [TeamAlliance.mk alliance 0] ∅ ∅) limit,
            Some (ValueError Composition))).
  { intros size.
    set (checked := Team.mk size
           (TeamAlliances.mk [TeamAlliance.mk alliance c] ∅ ∅) limit).
    set (prev_tas := TeamAlliances.mk [TeamAlliance.mk alliance 0] ∅ ∅).
    assert (Hdis : disjoint_sets (Team.alliances checked))
      by apply disjoint_empty_l.
    destruct (_post_check_loop_staffed checked prev_tas
                (TeamAlliances.items (Team.alliances checked)) Hdis)
      as [Hstaffed Hpass].
    destruct (decide _) as [Hle|Hgt].
    - apply Hpass. intros ta Hin. by apply list_elem_of_singleton in Hin as ->.
    - destruct (_post_check_cases checked prev_tas) as [Hok|Hko]; [|done].
      destruct Hgt.
      apply (Hstaffed Hok (TeamAlliance.mk alliance c)), list_elem_of_here. }
  split_and!.
  - intros Hfit Hstaff.
    replace (wanted <=? limit) with true by (symmetry; by apply Z.leb_le).
    simpl.
    replace (wanted >? limit) with false
      by (symmetry; rewrite Z.gtb_ltb; apply Z.ltb_ge; lia).
    rewrite decide_True by done. unfold with_items. simpl. rewrite Hsize.
    replace (wanted >? limit) with false
      by (symmetry; rewrite Z.gtb_ltb; apply Z.ltb_ge; lia).
    change (TeamAlliances_copy _)
      with (TeamAlliances.mk [TeamAlliance.mk alliance 0] ∅ ∅).
    rewrite Hcheck, decide_True by lia.
    by apply _post_add_new_entry.
  - intros Hfit Hstaff.
    replace (wanted <=? limit) with true by (symmetry; by apply Z.leb_le).
    simpl.
    replace (wanted >? limit) with false
      by (symmetry; rewrite Z.gtb_ltb; apply Z.ltb_ge; lia).
    rewrite decide_True by done. unfold with_items. simpl. rewrite Hsize.
    replace (wanted >? limit) with false
      by (symmetry; rewrite Z.gtb_ltb; apply Z.ltb_ge; lia).
    change (TeamAlliances_copy _)
      with (TeamAlliances.mk [TeamAlliance.mk alliance 0] ∅ ∅).
    by rewrite Hcheck, decide_False by lia.
  - intros Hover.
    replace (wanted <=? limit) with false by (symmetry; apply Z.leb_gt; lia).
    simpl. destruct (0 >? limit); [done|].
    rewrite decide_True by done. unfold with_items. simpl. rewrite Hsize.
    replace (wanted >? limit) with true
      by (symmetry; rewrite Z.gtb_ltb; apply Z.ltb_lt; lia).
    done.
Qed.

Lemma add_to_a_new_team_witness :
  let result :=
    add Examples.hero_alliances Examples.iter_set (Team_init 10) Examples.F 2 in
  (6 ≤ 10 → 6 < len (Alliance.heroes Examples.F) →
   result
   = (Team.mk 6 (TeamAlliances.mk [TeamAlliance.mk Examples.F 2] ∅ ∅) 10,
      None))
  ∧ (6 ≤ 10 → len (Alliance.heroes Examples.F) < 6 →
     result
     = (Team.mk 6 (TeamAlliances.mk [from_empty Examples.F] ∅ ∅) 10,
        Some (ValueError Composition)))
  ∧ (10 < 6 →
     result
     = (Team.mk 0 (TeamAlliances.mk [from_empty Examples.F] ∅ ∅) 10,
        Some (ValueError Capacity))).
Proof.
  apply (add_to_a_new_team Examples.hero_alliances Examples.iter_set
           Examples.F 2 10).
  - apply Examples_wf.
  - done.
  - done.
Defined.

(** ** Listing heroes *)

Section key_order.
Implicit Types (s : string) (k : Z * string).

Lemma string_ltb_lt (s1 s2 : string) :
  String.ltb s1 s2 = true ↔ OrdersEx.String_as_OT.lt s1 s2.
Proof.
  unfold String.ltb, OrdersEx.String_as_OT.lt.
  change (OrdersEx.String_as_OT.compare s1 s2) with (String.compare s1 s2).
  destruct (String.compare s1 s2); naive_solver.
Qed.

Lemma string_trichotomy (s1 s2 : string) :
  String.ltb s1 s2 = true ∨ s1 = s2 ∨ String.ltb s2 s1 = true.
Proof.
  rewrite !string_ltb_lt.
  destruct (OrdersEx.String_as_OT.compare_spec s1 s2); auto.
Qed.

Lemma string_ltb_irrefl (s : string) : String.ltb s s = false.
Proof.
  apply not_true_is_false. rewrite string_ltb_lt.
  apply (StrictOrder_Irreflexive (R := OrdersEx.String_as_OT.lt)).
Qed.

Lemma string_ltb_trans (s1 s2 s3 : string) :
  String.ltb s1 s2 = true → String.ltb s2 s3 = true → String.ltb s1 s3 = true.
Proof.
  rewrite !string_ltb_lt.
  apply (StrictOrder_Transitive (R := OrdersEx.String_as_OT.lt)).
Qed.

Lemma key_lt_irrefl k : key_lt k k = false.
Proof. unfold key_lt. rewrite decide_True by done. apply string_ltb_irrefl. Qed.

Lemma key_lt_trans k1 k2 k3 :
  key_lt k1 k2 = true → key_lt k2 k3 = true → key_lt k1 k3 = true.
Proof.
  unfold key_lt.
  destruct (decide (k1.1 = k2.1)) as [H12|H12],
    (decide (k2.1 = k3.1)) as [H23|H23],
    (decide (k1.1 = k3.1)) as [H13|H13];
    rewrite ?Z.ltb_lt; try lia; try congruence.
  apply string_ltb_trans.
Qed.

Lemma key_trichotomy k1 k2 :
  key_lt k1 k2 = true ∨ k1 = k2 ∨ key_lt k2 k1 = true.
Proof.
  unfold key_lt. destruct k1 as [t1 s1], k2 as [t2 s2]. simpl.
  destruct (decide (t1 = t2)) as [->|Hne].
  - rewrite decide_True by done.
    destruct (string_trichotomy s1 s2) as [?|[->|?]]; auto.
  - rewrite decide_False by done. rewrite !Z.ltb_lt. lia.
Qed.

End key_order.

Section display_facts.
Variable tier : Hero → Z.

#[local] Instance listed_before_trans : Transitive (listed_before tier).
Proof.
  intros h1 h2 h3. unfold listed_before. intros H21 H32.
  apply not_true_is_false. intros H31.
  destruct (key_trichotomy (hero_sort tier h1) (hero_sort tier h2))
    as [H12|[Heq|H12]]; [| |congruence].
  - pose proof (key_lt_trans _ _ _ H31 H12). congruence.
  - rewrite Heq in H31. congruence.
Qed.

#[local] Instance listed_before_antisym : AntiSymm eq (listed_before tier).
Proof.
  intros h1 h2. unfold listed_before. intros H21 H12.
  destruct (key_trichotomy (hero_sort tier h1) (hero_sort tier h2))
    as [?|[[= _ Heq]|?]]; congruence.
Qed.

Lemma listed_before_total h1 h2 :
  listed_before tier h1 h2 ∨ listed_before tier h2 h1.
Proof.
  unfold listed_before.
  destruct (key_lt (hero_sort tier h2) (hero_sort tier h1)) eqn:H21; [|by left].
  right. apply not_true_is_false. intros H12.
  pose proof (key_lt_trans _ _ _ H21 H12) as Hrefl.
  by rewrite key_lt_irrefl in Hrefl.
Qed.

Lemma insert_by_key_Permutation hero heroes :
  insert_by_key tier hero heroes ≡ₚ hero :: heroes.
Proof.
  induction heroes as [|other heroes IH]; simpl; [done|].
  destruct (key_lt _ _); [|done].
  rewrite IH. apply Permutation_swap.
Qed.

Lemma insert_by_key_Sorted hero heroes :
  Sorted.Sorted (listed_before tier) heroes →
  Sorted.Sorted (listed_before tier) (insert_by_key tier hero heroes).
Proof.
  induction heroes as [|other heroes IH]; intros Hsorted; simpl.
  - by repeat constructor.
  - apply Sorted.Sorted_inv in Hsorted as [Hsorted Hhd].
    destruct (key_lt (hero_sort tier other) (hero_sort tier hero)) eqn:Hlt.
    + constructor; [by apply IH|].
      destruct heroes as [|next heroes]; simpl.
      * constructor. unfold listed_before.
        destruct (listed_before_total other hero) as [?|Hback]; [done|].
        unfold listed_before in Hback. congruence.
      * apply Sorted.HdRel_inv in Hhd.
        destruct (key_lt (hero_sort tier next) (hero_sort tier hero));
          constructor; [done|].
        destruct (listed_before_total other hero) as [?|Hback]; [done|].
        unfold listed_before in Hback. congruence.
    + constructor; [by constructor|]. by constructor.
Qed.

Lemma sorted_heroes_Permutation heroes : sorted_heroes tier heroes ≡ₚ heroes.
Proof.
  induction heroes as [|hero heroes IH]; simpl; [done|].
  by rewrite insert_by_key_Permutation, IH.
Qed.

Lemma sorted_heroes_Sorted heroes :
  Sorted.Sorted (listed_before tier) (sorted_heroes tier heroes).
Proof.
  induction heroes as [|hero heroes IH]; simpl; [constructor|].
  by apply insert_by_key_Sorted.
Qed.

Lemma sorted_heroes_unique heroes1 heroes2 :
  heroes1 ≡ₚ heroes2 → sorted_heroes tier heroes1 = sorted_heroes tier heroes2.
Proof.
  intros Hperm. apply (sorting.Sorted_unique (listed_before tier)).
  - apply sorted_heroes_Sorted.
  - apply sorted_heroes_Sorted.
  - by rewrite !sorted_heroes_Permutation.
Qed.
End display_facts.

(** X27.  The listing of heroes [_str_heroes] does not depend on the
    order in which the set of heroes is iterated: two enumerations of
    the same heroes give the same string.  The heroes are listed by
    tier, and by name within a tier, each hero of the set as often as
    it was enumerated. *)
Theorem heroes_are_listed_in_one_order tier heroes1 heroes2 :
  heroes1 ≡ₚ heroes2 →
  _str_heroes tier heroes1 = _str_heroes tier heroes2
  ∧ sorted_heroes tier heroes1 = sorted_heroes tier heroes2
  ∧ sorted_heroes tier heroes1 ≡ₚ heroes1
  ∧ Sorted.Sorted (listed_before tier) (sorted_heroes tier heroes1)
  ∧ ∀ h1 h2, listed_before tier h1 h2
             ↔ tier h1 < tier h2
               ∨ (tier h1 = tier h2 ∧ String.ltb h2 h1 = false).
Proof.
  intros Hperm.
  pose proof (sorted_heroes_unique tier _ _ Hperm) as Hsame.
  split_and!.
  - unfold _str_heroes. by rewrite Hsame.
  - done.
  - apply sorted_heroes_Permutation.
  - apply sorted_heroes_Sorted.
  - intros h1 h2. unfold listed_before, key_lt, hero_sort. simpl.
    destruct (decide (tier h2 = tier h1)) as [Heq|Hne].
    + rewrite Heq. split; [by right|]. intros [?|[_ ?]]; [lia|done].
    + rewrite Z.ltb_ge. split; [intros; left; lia|].
      intros [?|[? _]]; [lia|congruence].
Qed.

Lemma heroes_are_listed_in_one_order_witness :
  let tier := λ h : Hero, if decide (h = "h2") then 1 else 2 in
  _str_heroes tier ["h3"; "h1"; "h2"] = _str_heroes tier ["h1"; "h2"; "h3"].
Proof.
  intros tier.
  apply (heroes_are_listed_in_one_order tier ["h3"; "h1"; "h2"]
           ["h1"; "h2"; "h3"]).
  apply (bool_decide_unpack _). by vm_compute.
Defined.

(** ** The texts do not depend on the order of a set *)

Section text_facts.
Variable tier : Hero → Z.
Variables iter_set1 iter_set2 : gset Hero → list Hero.
Hypothesis iter_set1_enumerates : ∀ s, iter_set1 s ≡ₚ elements s.
Hypothesis iter_set2_enumerates : ∀ s, iter_set2 s ≡ₚ elements s.

Lemma sorted_heroes_of_set s :
  sorted_heroes tier (iter_set1 s) = sorted_heroes tier (iter_set2 s).
Proof.
  apply sorted_heroes_unique.
  by rewrite iter_set1_enumerates, iter_set2_enumerates.
Qed.

Lemma _str_heroes_of_set s :
  _str_heroes tier (iter_set1 s) = _str_heroes tier (iter_set2 s).
Proof. unfold _str_heroes. by rewrite sorted_heroes_of_set. Qed.

Lemma TeamAlliance___str___of_set tas ta :
  TeamAlliance___str__ tier iter_set1 tas ta
  = TeamAlliance___str__ tier iter_set2 tas ta.
Proof. unfold TeamAlliance___str__. by rewrite !_str_heroes_of_set. Qed.

Lemma TeamAlliances___str___of_set tas :
  TeamAlliances___str__ tier iter_set1 tas
  = TeamAlliances___str__ tier iter_set2 tas.
Proof.
  unfold TeamAlliances___str__. rewrite !_str_heroes_of_set.
  rewrite (map_ext _ _ (TeamAlliance___str___of_set tas)). done.
Qed.
End text_facts.

(** X29.  The text of a team does not depend on the order in which
    Python enumerates a set of heroes: [Team.__str__],
    [TeamAlliances.__str__], [TeamAlliance.__str__] and [short_str] give
    the same string under any two enumerations of the sets.  The order
    of the entries in the text is the order of the dictionary. *)
Theorem team_text_is_independent_of_set_order tier iter_set1 iter_set2 team :
  (∀ s, iter_set1 s ≡ₚ elements s) →
  (∀ s, iter_set2 s ≡ₚ elements s) →
  let tas := Team.alliances team in
  Team___str__ tier iter_set1 team = Team___str__ tier iter_set2 team
  ∧ short_str tier iter_set1 team = short_str tier iter_set2 team
  ∧ TeamAlliances___str__ tier iter_set1 tas
    = TeamAlliances___str__ tier iter_set2 tas
  ∧ ∀ ta, TeamAlliance___str__ tier iter_set1 tas ta
          = TeamAlliance___str__ tier iter_set2 tas ta.
Proof.
  intros H1 H2 tas. split_and!.
  - unfold Team___str__.
    by rewrite (TeamAlliances___str___of_set tier _ _ H1 H2).
  - unfold short_str. cbv zeta.
    by rewrite !(_str_heroes_of_set tier _ _ H1 H2).
  - by apply TeamAlliances___str___of_set.
  - intros ta. by apply TeamAlliance___str___of_set.
Qed.

Lemma team_text_is_independent_of_set_order_witness :
  let tier := λ h : Hero, if decide (h = "h2") then 1 else 2 in
  let iter_set1 := λ s : gset Hero, elements s in
  let iter_set2 := λ s : gset Hero, reverse (elements s) in
  Team___str__ tier iter_set1 Examples.team_F3
  = Team___str__ tier iter_set2 Examples.team_F3.
Proof.
  intros tier iter_set1 iter_set2.
  apply (team_text_is_independent_of_set_order tier iter_set1 iter_set2).
  - done.
  - intros s. apply reverse_Permutation.
Defined.

(** X30.  [Alliance.__str__] raises (the [ValueError] of [range] in
    [sizes]) exactly when the [level] of the alliance is 0; otherwise it
    returns a text, the same under any two enumerations of the set
    [heroes]. *)
Theorem alliance_text_needs_a_level tier iter_set1 iter_set2 alliance :
  (∀ s, iter_set1 s ≡ₚ elements s) →
  (∀ s, iter_set2 s ≡ₚ elements s) →
  (Alliance___str__ tier iter_set1 alliance = None
   ↔ Alliance.level alliance = 0)
  ∧ (Alliance.level alliance ≠ 0 →
     is_Some (Alliance___str__ tier iter_set1 alliance))
  ∧ Alliance___str__ tier iter_set1 alliance
    = Alliance___str__ tier iter_set2 alliance.
Proof.
  intros H1 H2.
  assert (Alliance_sizes alliance = None ↔ Alliance.level alliance = 0)
    as Hsizes.
  { unfold Alliance_sizes, py_range. by destruct (decide _). }
  split_and!.
  - unfold Alliance___str__.
    destruct (Alliance_sizes alliance) as [sizes|]; simpl.
    + split; [done|]. intros Hlevel. apply Hsizes in Hlevel. done.
    + split; [|done]. intros _. by apply Hsizes.
  - intros Hlevel. unfold Alliance___str__.
    destruct (Alliance_sizes alliance) as [sizes|]; simpl; [done|].
    destruct Hlevel. by apply Hsizes.
  - unfold Alliance___str__.
    by rewrite (sorted_heroes_of_set tier _ _ H1 H2).
Qed.

Lemma alliance_text_needs_a_level_witness :
  let tier := λ h : Hero, if decide (h = "h2") then 1 else 2 in
  let iter_set1 := λ s : gset Hero, elements s in
  let iter_set2 := λ s : gset Hero, reverse (elements s) in
  Alliance___str__ tier iter_set1 Examples.F
  = Alliance___str__ tier iter_set2 Examples.F.
Proof.
  intros tier iter_set1 iter_set2.
  apply (alliance_text_needs_a_level tier iter_set1 iter_set2).
  - done.
  - intros s. apply reverse_Permutation.
Defined.

(** ** The two sets and the entries *)

(** X31.  On a team whose [team] and [mixed] sets are disjoint and whose
    pool holds only member heroes of alliances with an entry, at whatever
    level, and the heroes [direct] that were added by [add_hero], every
    [add], [add_max] and [add_hero] that returns leaves [team] and
    [mixed] disjoint and the pool within the member heroes of the
    alliances that have an entry now, the heroes [direct] and the hero
    the call added. *)
Theorem sets_stay_disjoint_and_within_entries hero_alliances iter_set c self self'
    (direct : gset Hero) :
  TeamAlliances.team (Team.alliances self)
    ## TeamAlliances.mixed (Team.alliances self) →
  pool (Team.alliances self)
    ⊆ heroes_of_entries (Team.alliances self) ∪ direct →
  run hero_alliances iter_set c self = (self', None) →
  TeamAlliances.team (Team.alliances self')
    ## TeamAlliances.mixed (Team.alliances self')
  ∧ TeamAlliances.team (Team.alliances self')
      ∪ TeamAlliances.mixed (Team.alliances self')
    ⊆ heroes_of_entries (Team.alliances self') ∪ (direct ∪ added_hero c).
Proof.
  intros Hdisj Hpool Hrun.
  assert (Hadd : ∀ alliance levels,
            added_hero c = ∅ →
            _add hero_alliances iter_set self alliance levels = (self', None) →
            TeamAlliances.team (Team.alliances self')
              ## TeamAlliances.mixed (Team.alliances self')
            ∧ pool (Team.alliances self')
              ⊆ heroes_of_entries (Team.alliances self') ∪ (direct ∪ added_hero c)).
  { intros alliance levels -> Hadd.
    apply _add_returns in Hadd as (size & level & _ & _ & _ & Hpost).
    pose proof (getitem_sets (Team.alliances self) alliance) as [Ht Hm].
    pose proof (reservation_subseteq (Team.alliances self) alliance) as Hw.
    apply _post_add_pool in Hpost as (Hd & Hk & Hp). simpl in *.
    rewrite Ht, Hm in Hd. split.
    - apply Hd. unfold pool in *. set_solver.
    - assert (Hkeys : ∀ k, k = alliance ∨ k ∈ keys (Team.alliances self) →
                           k ∈ keys (Team.alliances self')).
      { intros k Hin. apply Hk. unfold keys, TeamAlliances_set. simpl.
        apply set_item_keys. simpl.
        destruct Hin as [->|Hin]; [by left|]. right.
        apply (getitem_keys (Team.alliances self) alliance). by right. }
      intros h Hh. apply Hp in Hh.
      apply elem_of_union in Hh as [Hh|Hh].
      + unfold pool in Hh. simpl in Hh. rewrite Ht, Hm in Hh.
        destruct (decide (h ∈ pool (Team.alliances self))) as [Hin|Hout].
        * apply Hpool in Hin. apply elem_of_union in Hin as [Hin|Hin];
            [|set_solver].
          apply elem_of_union_l.
          eapply heroes_of_entries_mono; [|exact Hin]. intros k ?. apply Hkeys. auto.
        * apply elem_of_union_l, elem_of_heroes_of_entries. exists alliance.
          split; [apply Hkeys; by left|]. unfold pool in *. set_solver.
      + apply elem_of_union_l.
        eapply heroes_of_entries_mono; [|exact Hh]. intros k ?. by apply Hk. }
  destruct c as [alliance level|alliance|hero]; simpl in Hrun.
  - unfold add in Hrun. destruct (decide _); [done|]. by eapply Hadd.
  - unfold add_max in Hrun. destruct (decide _); [done|]. by eapply Hadd.
  - apply _add_hero_returns in Hrun as [_ Hpost].
    apply _post_add_pool in Hpost as (Hd & Hk & Hp). simpl in *. split.
    + apply Hd. set_solver.
    + intros h Hh. apply Hp in Hh. apply elem_of_union in Hh as [Hh|Hh].
      * change (TeamAlliances.mk _ _ _)
          with (with_hero (Team.alliances self) hero) in Hh.
        rewrite with_hero_pool in Hh.
        apply elem_of_union in Hh as [Hh|Hh]; [|set_solver].
        apply Hpool in Hh. apply elem_of_union in Hh as [Hh|Hh]; [|set_solver].
        apply elem_of_union_l.
        eapply heroes_of_entries_mono; [|exact Hh]. intros k ?. by apply Hk.
      * apply elem_of_union_l.
        eapply heroes_of_entries_mono; [|exact Hh]. intros k ?. by apply Hk.
Qed.

Lemma sets_stay_disjoint_and_within_entries_witness :
  ∃ self',
    Examples.run (call_add_hero "h1") team_P1_Q1 = (self', None)
    ∧ TeamAlliances.team (Team.alliances self') = {["h1"]}
    ∧ TeamAlliances.mixed (Team.alliances self') = {["h2"; "h3"]}
    ∧ TeamAlliances.team (Team.alliances self')
        ## TeamAlliances.mixed (Team.alliances self')
    ∧ TeamAlliances.team (Team.alliances self')
        ∪ TeamAlliances.mixed (Team.alliances self')
      ⊆ heroes_of_entries (Team.alliances self')
        ∪ (∅ ∪ added_hero (call_add_hero "h1")).
Proof.
  eexists. do 3 (split; [by vm_compute|]).
  apply (sets_stay_disjoint_and_within_entries Examples.hero_alliances
           Examples.iter_set (call_add_hero "h1") team_P1_Q1 _ ∅).
  - apply (bool_decide_unpack _). by vm_compute.
  - apply (bool_decide_unpack _). by vm_compute.
  - by vm_compute.
Defined.
